(** * The query compiler of [query/compile.go]

    A shallow embedding of the statement compiler: the parsed statement
    ([influxql]), the plan graph it builds (nodes and the two ends of every
    edge, kept in a store and named by their index), the compiler state
    [compiledStatement], and the functions [newCompiler], [compileExpr],
    [compileFunction], [linkAuxiliaryFields], [validateFields], [Compile]
    and [Select].

    Go's [(value, error)] results and [panic] are the three outcomes of
    [result]; the methods on [*compiledStatement] thread the compiler and the
    store through a small state monad. *)

From Stdlib Require Import String Ascii List ZArith Lia Bool DecimalString.
From stdpp Require Import base list strings.
Import ListNotations.

Set Warnings "-register-all".

Local Open Scope string_scope.
Local Open Scope list_scope.

(** ** The parsed statement (package [influxql]) *)

Module influxql.

(** Modelled from the spec: the operator token of a binary expression
    (package [influxql] is not part of the compiled file). *)
Inductive Token := ADD | SUB | MUL | DIV | MOD | AND | OR | EQ | NEQ | LT | LTE | GT | GTE.

(** Modelled from the spec: the values that implement [influxql.Literal]. *)
Inductive Literal :=
| BooleanLiteral (b : bool)
| IntegerLiteral (n : Z)
| StringLiteral (s : string)
| DurationLiteral (ns : Z)
| NilLiteral.

Record VarRef := mkVarRef { Val : string }.

(** Modelled from the spec: the expression tree, over variable references,
    function calls, binary operators and literals; [ParenExpr] and
    [Wildcard] stand for the other shapes an expression can have. *)
Inductive Expr :=
| Ref (ref : VarRef)
| Call (Name : string) (Args : list Expr)
| BinaryExpr (Op : Token) (LHS RHS : Expr)
| Lit (l : Literal)
| ParenExpr (e : Expr)
| Wildcard.

Record Field := mkField { FieldExpr : Expr; Alias : string }.

(** Modelled from the spec: a source is a measurement, or one of the other
    kinds the parser accepts. *)
Inductive Source :=
| Measurement (Name : string)
| OtherSource.

Record SelectStatement := mkSelect { Sources : list Source; Fields : list Field }.

#[global] Instance VarRef_eq_dec : EqDecision VarRef.
Proof. solve_decision. Defined.

#[global] Instance Token_eq_dec : EqDecision Token.
Proof. solve_decision. Defined.

End influxql.

(** ** The plan graph *)

(** Nodes and edge ends live in a store; a Go pointer is the index of the
    object in its store. *)
Abbreviation NodeRef := nat (only parsing).
Abbreviation OutputEdgeRef := nat (only parsing).
Abbreviation InputEdgeRef := nat (only parsing).

(** Modelled from the spec: the read end of an edge. [oNode] is the node that
    reads from it, [oInput] the write end it is linked to. *)
Record OutputEdge := mkOutputEdge {
  oNode : option NodeRef;
  oInput : option InputEdgeRef
}.

(** Modelled from the spec: the write end of an edge. [iNode] is the node that
    produces into it, [iOutput] the read end it is linked to. *)
Record InputEdge := mkInputEdge {
  iNode : option NodeRef;
  iOutput : option OutputEdgeRef
}.

(** The node types the compiler instantiates, with the fields it assigns.
    An [IteratorCreator] also holds the address of the compiler's own
    [AuxiliaryFields] field, which is the same for every node of a compile. *)
Inductive Node :=
| Merge (Inputs : list OutputEdgeRef) (Output : option InputEdgeRef)
| IteratorCreator (Expr : option influxql.VarRef) (Measurement : string)
                  (Output : option InputEdgeRef)
| FunctionCall (Name : string) (Input : option OutputEdgeRef)
               (Output : option InputEdgeRef)
| BinaryExpr (LHS RHS : option OutputEdgeRef) (Op : influxql.Token)
             (Output : option InputEdgeRef)
| AuxiliaryFieldsNode (Aux : list (influxql.VarRef * OutputEdgeRef))
                      (outputs : list InputEdgeRef)
                      (Input : option OutputEdgeRef) (Output : option InputEdgeRef).

Record Graph := mkGraph {
  nodes : list Node;
  outs : list OutputEdge;
  ins : list InputEdge
}.

(** ** The compiler state *)

Record compiledStatement := mkCompiled {
  Sources : list influxql.Source;
  FunctionCalls : list OutputEdgeRef;
  OnlySelectors : bool;
  TopBottomFunction : string;
  AuxiliaryFields : option NodeRef;
  Distinct : option NodeRef;
  OutputEdges : list OutputEdgeRef
}.

Record State := mkState { comp : compiledStatement; graph : Graph }.

Definition set_Sources (v : list influxql.Source) (c : compiledStatement) :=
  mkCompiled v (FunctionCalls c) (OnlySelectors c) (TopBottomFunction c)
             (AuxiliaryFields c) (Distinct c) (OutputEdges c).
Definition set_FunctionCalls (v : list OutputEdgeRef) (c : compiledStatement) :=
  mkCompiled (Sources c) v (OnlySelectors c) (TopBottomFunction c)
             (AuxiliaryFields c) (Distinct c) (OutputEdges c).
Definition set_OnlySelectors (v : bool) (c : compiledStatement) :=
  mkCompiled (Sources c) (FunctionCalls c) v (TopBottomFunction c)
             (AuxiliaryFields c) (Distinct c) (OutputEdges c).
Definition set_TopBottomFunction (v : string) (c : compiledStatement) :=
  mkCompiled (Sources c) (FunctionCalls c) (OnlySelectors c) v
             (AuxiliaryFields c) (Distinct c) (OutputEdges c).
Definition set_AuxiliaryFields (v : option NodeRef) (c : compiledStatement) :=
  mkCompiled (Sources c) (FunctionCalls c) (OnlySelectors c) (TopBottomFunction c)
             v (Distinct c) (OutputEdges c).
Definition set_OutputEdges (v : list OutputEdgeRef) (c : compiledStatement) :=
  mkCompiled (Sources c) (FunctionCalls c) (OnlySelectors c) (TopBottomFunction c)
             (AuxiliaryFields c) (Distinct c) v.

(** ** Outcomes and the compiler monad *)

Inductive result (A : Type) :=
| Ok (a : A)
| Err (msg : string)
| Panic (msg : string).
Arguments Ok {A} a.
Arguments Err {A} msg.
Arguments Panic {A} msg.

Definition M (A : Type) := State -> result A * State.

Definition ret {A} (a : A) : M A := fun s => (Ok a, s).
Definition fail {A} (msg : string) : M A := fun s => (Err msg, s).
Definition panic {A} (msg : string) : M A := fun s => (Panic msg, s).
Definition bind {A B} (m : M A) (f : A -> M B) : M B :=
  fun s => match m s with
           | (Ok a, s') => f a s'
           | (Err e, s') => (Err e, s')
           | (Panic p, s') => (Panic p, s')
           end.

Declare Scope compile_scope.
Delimit Scope compile_scope with compile.
Notation "'let*' x ':=' m 'in' k" := (bind m (fun x => k))
  (at level 10, x pattern, m at level 100, k at level 200) : compile_scope.
Notation "m ;;; k" := (bind m (fun _ => k))
  (at level 100, right associativity) : compile_scope.
Local Open Scope compile_scope.

Definition getc : M compiledStatement := fun s => (Ok (comp s), s).
Definition modc (f : compiledStatement -> compiledStatement) : M unit :=
  fun s => (Ok tt, mkState (f (comp s)) (graph s)).
Definition getg : M Graph := fun s => (Ok (graph s), s).
Definition modg (f : Graph -> Graph) : M unit :=
  fun s => (Ok tt, mkState (comp s) (f (graph s))).

(** ** Store operations *)

(** [&T{...}]: a new node, named by the next free index. *)
Definition new (n : Node) : M NodeRef :=
  let* g := getg in
  modg (fun g => mkGraph (nodes g ++ [n]) (outs g) (ins g)) ;;;
  ret (length (nodes g)).

Definition setNode (p : NodeRef) (f : Node -> Node) : M unit :=
  modg (fun g => mkGraph (alter f p (nodes g)) (outs g) (ins g)).

(** [n.Output = e] *)
Definition withOutput (e : InputEdgeRef) (n : Node) : Node :=
  match n with
  | Merge i _ => Merge i (Some e)
  | IteratorCreator x m _ => IteratorCreator x m (Some e)
  | FunctionCall f i _ => FunctionCall f i (Some e)
  | BinaryExpr l r op _ => BinaryExpr l r op (Some e)
  | AuxiliaryFieldsNode a o i _ => AuxiliaryFieldsNode a o i (Some e)
  end.

(** [n.Input = e], for the nodes that have one input. *)
Definition withInput (e : OutputEdgeRef) (n : Node) : Node :=
  match n with
  | FunctionCall f _ o => FunctionCall f (Some e) o
  | AuxiliaryFieldsNode a os _ o => AuxiliaryFieldsNode a os (Some e) o
  | _ => n
  end.

(** [e.Node = n] on a read end. *)
Definition setOutputEdgeNode (e : OutputEdgeRef) (n : NodeRef) : M unit :=
  modg (fun g => mkGraph (nodes g)
                         (alter (fun o => mkOutputEdge (Some n) (oInput o)) e (outs g))
                         (ins g)).

(** Modelled from the spec: [NewEdge(node)] allocates an edge whose producer
    is [node] and that nobody reads yet; it returns the write end and the read
    end, linked to each other. *)
Definition NewEdge (n : NodeRef) : M (InputEdgeRef * OutputEdgeRef) :=
  let* g := getg in
  let i := length (ins g) in
  let o := length (outs g) in
  modg (fun g => mkGraph (nodes g)
                         (outs g ++ [mkOutputEdge None (Some i)])
                         (ins g ++ [mkInputEdge (Some n) (Some o)])) ;;;
  ret (i, o).

(** Modelled from the spec: [AddEdge(from, to)] allocates an edge produced by
    [from] and read by [to]; it returns the write end for [from] and the read
    end for [to]. *)
Definition AddEdge (from to : NodeRef) : M (InputEdgeRef * OutputEdgeRef) :=
  let* g := getg in
  let i := length (ins g) in
  let o := length (outs g) in
  modg (fun g => mkGraph (nodes g)
                         (outs g ++ [mkOutputEdge (Some to) (Some i)])
                         (ins g ++ [mkInputEdge (Some from) (Some o)])) ;;;
  ret (i, o).

(** Modelled from the spec: [merge.AddInput(n)] adds an edge from [n] to the
    merge as one more input of the merge and returns its write end. *)
Definition Merge_AddInput (merge n : NodeRef) : M InputEdgeRef :=
  let* (i, o) := AddEdge n merge in
  setNode merge (fun m => match m with
                          | Merge inputs out => Merge (inputs ++ [o]) out
                          | _ => m
                          end) ;;;
  ret i.

Fixpoint lookupAux (ref : influxql.VarRef) (l : list (influxql.VarRef * OutputEdgeRef))
  : option OutputEdgeRef :=
  match l with
  | [] => None
  | (r, e) :: rest => if decide (r = ref) then Some e else lookupAux ref rest
  end.

(** Modelled from the spec: [AuxiliaryFields.Iterator(ref)] returns the output
    edge of [ref], allocating a new one the first time that reference value is
    seen. *)
Definition Iterator (aux : NodeRef) (ref : influxql.VarRef) : M OutputEdgeRef :=
  let* g := getg in
  match nodes g !! aux with
  | Some (AuxiliaryFieldsNode fields _ _ _) =>
      match lookupAux ref fields with
      | Some e => ret e
      | None =>
          let* (i, o) := NewEdge aux in
          setNode aux (fun n => match n with
                                | AuxiliaryFieldsNode a os inp out =>
                                    AuxiliaryFieldsNode (a ++ [(ref, o)]) (os ++ [i]) inp out
                                | _ => n
                                end) ;;;
          ret o
      end
  | _ => panic "invalid memory address or nil pointer dereference"
  end.

(** Modelled from the spec: [e.Insert(n)] splices [n] into the edge that ends
    in [e]: the old producer now writes to a new read end owned by [n], and
    [e] is fed by a new write end owned by [n]. It returns the new read end
    (the input of [n]) and the new write end (the output of [n]). *)
Definition Insert (e : OutputEdgeRef) (n : NodeRef) : M (OutputEdgeRef * InputEdgeRef) :=
  let* g := getg in
  match outs g !! e with
  | Some eo =>
      let o' := length (outs g) in
      let i' := length (ins g) in
      modg (fun g =>
              mkGraph (nodes g)
                      (alter (fun x => mkOutputEdge (oNode x) (Some i')) e (outs g)
                         ++ [mkOutputEdge (Some n) (oInput eo)])
                      (match oInput eo with
                       | Some i0 => alter (fun x => mkInputEdge (iNode x) (Some o')) i0 (ins g)
                       | None => ins g
                       end ++ [mkInputEdge (Some n) (Some e)])) ;;;
      ret (o', i')
  | None => panic "invalid memory address or nil pointer dereference"
  end.

(** ** The compiler (query/compile.go) *)

Definition newCompiler (stmt : influxql.SelectStatement) : State :=
  mkState (mkCompiled [] [] true "" None None []) (mkGraph [] [] []).

(** [switch s { case l1, l2, ...: }] on a string. *)
Definition oneOf (s : string) (cases : list string) : bool :=
  existsb (String.eqb s) cases.

(** [%d] of a length. *)
Definition itoa (n : nat) : string := NilZero.string_of_uint (Nat.to_uint n).

Definition isLiteral (e : influxql.Expr) : bool :=
  match e with influxql.Lit _ => true | _ => false end.

Definition isDistinctCall (e : influxql.Expr) : bool :=
  match e with
  | influxql.Call name _ => String.eqb name "distinct"
  | _ => false
  end.

(** The loop [for _, source := range c.Sources] that gives [merge] one
    [IteratorCreator] per source; [compileFunction] runs it with the argument
    of the call, [linkAuxiliaryFields] without an expression. *)
Fixpoint sourceIterators (expr : option influxql.VarRef) (merge : NodeRef)
         (sources : list influxql.Source) : M unit :=
  match sources with
  | [] => ret tt
  | influxql.Measurement m :: rest =>
      let* ic := new (IteratorCreator expr m None) in
      let* o := Merge_AddInput merge ic in
      setNode ic (withOutput o) ;;;
      sourceIterators expr merge rest
  | influxql.OtherSource :: _ => panic "unimplemented"
  end.

Definition errArgs (name : string) (exp got : nat) : string :=
  "invalid number of arguments for " +:+ name +:+ ", expected " +:+ itoa exp
  +:+ ", got " +:+ itoa got.

Definition errFieldArg (name : string) : string :=
  "expected field argument in " +:+ name +:+ "()".

Definition compileFunction (Name : string) (Args : list influxql.Expr) : M OutputEdgeRef :=
  if negb (1 =? length Args)%nat then fail (errArgs Name 1 (length Args))
  else
    match Args with
    | [] => panic "index out of range"
    | a0 :: _ =>
        (* If we have count(), the argument may be a distinct() call. *)
        if String.eqb Name "count" && isDistinctCall a0 then fail "unimplemented"
        else
          (* Must be a variable reference. *)
          match a0 with
          | influxql.Ref arg0 =>
              let* merge := new (Merge [] None) in
              let* c := getc in
              sourceIterators (Some arg0) merge (Sources c) ;;;
              let* call := new (FunctionCall Name None None) in
              let* (mo, ci) := AddEdge merge call in
              setNode merge (withOutput mo) ;;;
              setNode call (withInput ci) ;;;
              (* Mark down some meta properties related to the function. *)
              (if oneOf Name ["top"; "bottom"] then
                 modc (fun c => if String.eqb (TopBottomFunction c) ""
                                then set_TopBottomFunction Name c else c)
               else if oneOf Name ["max"; "min"; "first"; "last"; "percentile"; "sample"] then
                 ret tt
               else modc (set_OnlySelectors false)) ;;;
              let* (co, out) := NewEdge call in
              setNode call (withOutput co) ;;;
              modc (fun c => set_FunctionCalls (FunctionCalls c ++ [out]) c) ;;;
              ret out
          | _ => fail (errFieldArg Name)
          end
    end.

Fixpoint compileExpr (expr : influxql.Expr) : M OutputEdgeRef :=
  match expr with
  | influxql.Ref ref =>
      (* If there is no instance of AuxiliaryFields, instantiate one now. *)
      let* c := getc in
      let* aux := match AuxiliaryFields c with
                  | None =>
                      let* a := new (AuxiliaryFieldsNode [] [] None None) in
                      modc (set_AuxiliaryFields (Some a)) ;;;
                      ret a
                  | Some a => ret a
                  end in
      Iterator aux ref
  | influxql.Call name args =>
      if oneOf name ["count"; "min"; "max"; "sum"; "first"; "last"; "mean"]
      then compileFunction name args
      else fail "unimplemented"
  | influxql.BinaryExpr op lhsE rhsE =>
      (* Check if either side is a literal so we only compile one side if it is. *)
      if isLiteral lhsE then fail "unimplemented"
      else if isLiteral rhsE then fail "unimplemented"
      else
        let* lhs := compileExpr lhsE in
        let* rhs := compileExpr rhsE in
        let* node := new (BinaryExpr (Some lhs) (Some rhs) op None) in
        setOutputEdgeNode lhs node ;;;
        setOutputEdgeNode rhs node ;;;
        let* (no, out) := NewEdge node in
        setNode node (withOutput no) ;;;
        ret out
  | _ => fail "unimplemented"
  end.

Definition errNoField : string := "at least 1 non-time field must be queried".
Definition errMixAggregate : string :=
  "mixing aggregate and non-aggregate queries is not supported".
Definition errMixSelectors : string :=
  "mixing multiple selector functions with tags or fields is not supported".
Definition errTopBottom (name : string) : string :=
  "selector function " +:+ name +:+ "() cannot be combined with other functions".

Definition linkAuxiliaryFields : M unit :=
  let* c := getc in
  match AuxiliaryFields c with
  | None =>
      if (length (FunctionCalls c) =? 0)%nat then fail errNoField else ret tt
  | Some aux =>
      if negb (OnlySelectors c) then fail errMixAggregate
      else if (1 <? length (FunctionCalls c))%nat then fail errMixSelectors
      else
        match FunctionCalls c with
        | [call] =>
            let* (i, o) := Insert call aux in
            setNode aux (withInput i) ;;;
            setNode aux (withOutput o)
        | _ =>
            (* Create a default IteratorCreator for this AuxiliaryFields. *)
            let* merge := new (Merge [] None) in
            sourceIterators None merge (Sources c) ;;;
            let* (mo, ai) := AddEdge merge aux in
            setNode merge (withOutput mo) ;;;
            setNode aux (withInput ai)
        end
  end.

Definition validateFields : M unit :=
  let* c := getc in
  (* Ensure there are not multiple calls if top/bottom is present. *)
  if (1 <? length (FunctionCalls c))%nat && negb (String.eqb (TopBottomFunction c) "")
  then fail (errTopBottom (TopBottomFunction c))
  else ret tt.

Definition isTimeRef (e : influxql.Expr) : bool :=
  match e with
  | influxql.Ref ref => String.eqb (influxql.Val ref) "time"
  | _ => false
  end.

(** The loop of [Compile] over [stmt.Fields]. *)
Fixpoint compileFields (fields : list influxql.Field) : M unit :=
  match fields with
  | [] => ret tt
  | f :: rest =>
      if isTimeRef (influxql.FieldExpr f) then compileFields rest
      else
        let* out := compileExpr (influxql.FieldExpr f) in
        modc (fun c => set_OutputEdges (OutputEdges c ++ [out]) c) ;;;
        compileFields rest
  end.

(** The body of [Compile] as a computation on the compiler state. *)
Definition compileBody (stmt : influxql.SelectStatement) : M unit :=
  modc (fun c => set_Sources (Sources c ++ influxql.Sources stmt) c) ;;;
  compileFields (influxql.Fields stmt) ;;;
  linkAuxiliaryFields ;;;
  validateFields.

(** [Compile] together with the state the compiler was left in, which Go
    drops when it returns an error. *)
Definition runCompile (stmt : influxql.SelectStatement) : result unit * State :=
  compileBody stmt (newCompiler stmt).

Definition Compile (stmt : influxql.SelectStatement) : result State :=
  match runCompile stmt with
  | (Ok _, s) => Ok s
  | (Err e, _) => Err e
  | (Panic p, _) => Panic p
  end.

(** Modelled from the spec: a [Plan] records the edges registered as its
    targets, in the order of the [AddTarget] calls. *)
Record Plan := mkPlan { targets : list OutputEdgeRef }.

Definition AddTarget (plan : Plan) (e : OutputEdgeRef) : Plan :=
  mkPlan (targets plan ++ [e]).

(** [Select] returns the plan it has mutated, the edges and the error
    ([None] is [nil]). *)
Definition Select (c : compiledStatement) (plan : Plan)
  : Plan * (list OutputEdgeRef * option string) :=
  (fold_left AddTarget (OutputEdges c) plan, (OutputEdges c, None)).

(** ** Observations on a state *)

Definition nameOf (n : Node) : option string :=
  match n with FunctionCall name _ _ => Some name | _ => None end.

(** The names of the [FunctionCall] nodes instantiated so far, in order. *)
Definition compiledFunctions (s : State) : list string :=
  omap nameOf (nodes (graph s)).

Definition asBinaryExpr (n : Node) : option Node :=
  match n with BinaryExpr _ _ _ _ => Some n | _ => None end.

(** The [BinaryExpr] nodes of the graph, in order. *)
Definition binaryExprs (s : State) : list Node := omap asBinaryExpr (nodes (graph s)).

(** The output edge the shared [AuxiliaryFields] node has for [r]. *)
Definition auxEdge (s : State) (r : influxql.VarRef) : option OutputEdgeRef :=
  match AuxiliaryFields (comp s) with
  | Some a =>
      match nodes (graph s) !! a with
      | Some (AuxiliaryFieldsNode fields _ _ _) => lookupAux r fields
      | _ => None
      end
  | None => None
  end.

(** The three lists of names in the source: the functions the dispatcher of
    [compileExpr] routes to [compileFunction], the names that do not clear
    [OnlySelectors] in [compileFunction], and the true aggregates. *)
Definition isSupported (name : string) : bool :=
  oneOf name ["count"; "min"; "max"; "sum"; "first"; "last"; "mean"].
Definition isSelector (name : string) : bool :=
  oneOf name ["top"; "bottom"; "max"; "min"; "first"; "last"; "percentile"; "sample"].
Definition isAggregate (name : string) : bool :=
  oneOf name ["count"; "sum"; "mean"].

(** The meta properties [compileFunction] marks down for a call of [name]. *)
Definition markFunction (name : string) (c : compiledStatement) : compiledStatement :=
  if oneOf name ["top"; "bottom"] then
    if String.eqb (TopBottomFunction c) "" then set_TopBottomFunction name c else c
  else if oneOf name ["max"; "min"; "first"; "last"; "percentile"; "sample"] then c
  else set_OnlySelectors false c.

(** The first lines of the [VarRef] case: the shared [AuxiliaryFields] node,
    instantiated if there is none yet. *)
Definition theAuxiliaryFields (c : compiledStatement) : M NodeRef :=
  match AuxiliaryFields c with
  | None =>
      let* a := new (AuxiliaryFieldsNode [] [] None None) in
      modc (set_AuxiliaryFields (Some a)) ;;;
      ret a
  | Some a => ret a
  end.

(** The compiler after [c.Sources = append(c.Sources, stmt.Sources...)]. *)
Definition started (stmt : influxql.SelectStatement) : State :=
  (modc (fun c => set_Sources (Sources c ++ influxql.Sources stmt) c) (newCompiler stmt)).2.

(** The errors [compileExpr] can return. *)
Definition exprError (msg : string) : Prop :=
  msg = "unimplemented"
  \/ (exists name got, msg = errArgs name 1 got)
  \/ (exists name, msg = errFieldArg name).

(** ** Shapes of fields and sources *)

(** The bare reference [time]. *)
Definition timeField (f : influxql.Field) : Prop :=
  influxql.FieldExpr f = influxql.Ref (influxql.mkVarRef "time").

Definition nonTime (f : influxql.Field) : bool := negb (isTimeRef (influxql.FieldExpr f)).

(** A field that is a plain variable reference other than [time]. *)
Definition rawField (f : influxql.Field) : Prop :=
  exists r, influxql.FieldExpr f = influxql.Ref r /\ influxql.Val r <> "time".

(** A field that is a call of a selector function. *)
Definition selectorCall (f : influxql.Field) : Prop :=
  exists name args, influxql.FieldExpr f = influxql.Call name args
                    /\ isSelector name = true.

(** A field that is a call of [max], [min], [first] or [last], the selectors
    the dispatcher routes, on one plain variable reference. *)
Definition routedSelectorCall (f : influxql.Field) : Prop :=
  exists name r, influxql.FieldExpr f = influxql.Call name [influxql.Ref r]
                 /\ In name ["max"; "min"; "first"; "last"].

Definition isMeasurement (src : influxql.Source) : Prop :=
  match src with influxql.Measurement _ => True | influxql.OtherSource => False end.

(** [e] is the edge [compileExpr] returned for the expression of [f]. *)
Definition edgeOf (f : influxql.Field) (e : OutputEdgeRef) : Prop :=
  exists s1 s2, compileExpr (influxql.FieldExpr f) s1 = (Ok e, s2).

(** ** Relations between a state and a later one *)

(** [m] relates every state to the state it leaves, whatever the outcome. *)
Definition step {A} (R : State -> State -> Prop) (m : M A) : Prop :=
  forall s, R s (m s).2.

(** The compiler and the compiled functions are untouched. *)
Definition keeps (s s' : State) : Prop :=
  comp s' = comp s /\ compiledFunctions s' = compiledFunctions s.

(** What every step of [Compile] guarantees about the state it leaves:
    the sources and the top/bottom name are kept, an [AuxiliaryFields] node
    stays the one it is, and the [FunctionCall] nodes added are calls of
    supported functions, each with one entry of [FunctionCalls], that clear
    [OnlySelectors] exactly when one of them is not a selector. *)
Record extends (s s' : State) : Prop := mkExtends {
  ext_Sources : Sources (comp s') = Sources (comp s);
  ext_TopBottom : TopBottomFunction (comp s') = TopBottomFunction (comp s);
  ext_Aux : forall a, AuxiliaryFields (comp s) = Some a -> AuxiliaryFields (comp s') = Some a;
  ext_Outputs : exists o, OutputEdges (comp s') = OutputEdges (comp s) ++ o;
  ext_Functions : exists added,
      compiledFunctions s' = compiledFunctions s ++ added
      /\ forallb isSupported added = true
      /\ OnlySelectors (comp s') = OnlySelectors (comp s) && forallb isSelector added
      /\ length (FunctionCalls (comp s')) = length (FunctionCalls (comp s)) + length added
}.

(** What holds of every state [Compile] passes through. *)
Record reached (stmt : influxql.SelectStatement) (s : State) : Prop := mkReached {
  reached_Sources : Sources (comp s) = influxql.Sources stmt;
  reached_TopBottom : TopBottomFunction (comp s) = "";
  reached_supported : forallb isSupported (compiledFunctions s) = true;
  reached_OnlySelectors :
    OnlySelectors (comp s) = forallb isSelector (compiledFunctions s);
  reached_FunctionCalls :
    length (FunctionCalls (comp s)) = length (compiledFunctions s)
}.

(** ** Well-typed stores *)

(** The edges of an [AuxiliaryFields] node are edges of the store. *)
Definition validAux (g : Graph) (fields : list (influxql.VarRef * OutputEdgeRef)) : Prop :=
  Forall (fun p => p.2 < length (outs g)) fields.

(** The store is well typed where the compiler looks into it: its
    [AuxiliaryFields] pointer, when not nil, points to an [AuxiliaryFields]
    node, whose edges are in the store. Go's types give this for free. *)
Definition wf (s : State) : Prop :=
  forall a, AuxiliaryFields (comp s) = Some a ->
    exists fields os i o,
      nodes (graph s) !! a = Some (AuxiliaryFieldsNode fields os i o)
      /\ validAux (graph s) fields.

Definition keepsWf (s s' : State) : Prop := wf s -> wf s'.

(** [f] keeps an [AuxiliaryFields] node such a node, with the same fields. *)
Definition keepsAux (f : Node -> Node) : Prop :=
  forall fields os i o, exists os' i' o',
    f (AuxiliaryFieldsNode fields os i o) = AuxiliaryFieldsNode fields os' i' o'.

(** ** The kinds of nodes in the graph *)

(** A node without its edges: what it is, and the parameters it was
    instantiated with. *)
Inductive Kind :=
| KMerge
| KIteratorCreator (Expr : option influxql.VarRef) (Measurement : string)
| KFunctionCall (Name : string)
| KBinaryExpr (Op : influxql.Token)
| KAuxiliaryFields.

Definition kindOf (n : Node) : Kind :=
  match n with
  | Merge _ _ => KMerge
  | IteratorCreator e m _ => KIteratorCreator e m
  | FunctionCall name _ _ => KFunctionCall name
  | BinaryExpr _ _ op _ => KBinaryExpr op
  | AuxiliaryFieldsNode _ _ _ _ => KAuxiliaryFields
  end.

(** The kinds of the nodes of the graph, in the order of instantiation. *)
Definition kinds (s : State) : list Kind := map kindOf (nodes (graph s)).

Definition isAuxKind (k : Kind) : bool :=
  match k with KAuxiliaryFields => true | _ => false end.

(** The number of [AuxiliaryFields] nodes in the graph. *)
Definition auxNodes (s : State) : nat := length (List.filter isAuxKind (kinds s)).

(** The graph has an [AuxiliaryFields] node exactly when the compiler points
    to one, and then only that one. *)
Definition oneAux (s : State) : Prop :=
  auxNodes s = match AuxiliaryFields (comp s) with Some _ => 1 | None => 0 end.

(** Every edge in [FunctionCalls] is an edge of the store. *)
Definition callsValid (s : State) : Prop :=
  Forall (fun e => e < length (outs (graph s))) (FunctionCalls (comp s)).

(** The sources of a statement over the measurements [names]. *)
Definition measurements (names : list string) : list influxql.Source :=
  map influxql.Measurement names.

(** The errors [Compile] can return. *)
Definition compileError (msg : string) : Prop :=
  exprError msg \/ msg = errNoField \/ msg = errMixAggregate \/ msg = errMixSelectors.

(** A store operation: the compiler is untouched, nodes are only added, none
    of them an [AuxiliaryFields] node, and no edge is dropped. *)
Definition grows (s s' : State) : Prop :=
  comp s' = comp s
  /\ (exists added, kinds s' = kinds s ++ added /\ List.filter isAuxKind added = [])
  /\ length (outs (graph s)) <= length (outs (graph s')).

(** What every step of [Compile] keeps of the graph and of the fields of the
    compiler that no claim is about. *)
Record builds (s s' : State) : Prop := mkBuilds {
  bld_Sources : Sources (comp s') = Sources (comp s);
  bld_Distinct : Distinct (comp s') = Distinct (comp s);
  bld_outs : length (outs (graph s)) <= length (outs (graph s'));
  bld_kinds : exists added, kinds s' = kinds s ++ added;
  bld_aux : oneAux s -> oneAux s';
  bld_calls : callsValid s -> callsValid s';
  bld_measure :
    length (FunctionCalls (comp s)) < length (FunctionCalls (comp s')) ->
    Forall isMeasurement (Sources (comp s))
}.

(** ** The output edges, field by field *)

(** The state the loop of [Compile] is in after
    [c.OutputEdges = append(c.OutputEdges, out)]. *)
Definition appendOutput (out : OutputEdgeRef) (s : State) : State :=
  (modc (fun c => set_OutputEdges (OutputEdges c ++ [out]) c) s).2.

(** [inFieldOrder s fields edges]: started in [s], the fields other than
    [time] compile one after the other, each in the state the fields before
    it left, and [edges] lists, in field order, the edge [compileExpr]
    returned for each of them. *)
Inductive inFieldOrder : State -> list influxql.Field -> list OutputEdgeRef -> Prop :=
| inFieldOrder_nil s : inFieldOrder s [] []
| inFieldOrder_time s f rest edges :
    isTimeRef (influxql.FieldExpr f) = true ->
    inFieldOrder s rest edges ->
    inFieldOrder s (f :: rest) edges
| inFieldOrder_field s f rest out s1 edges :
    isTimeRef (influxql.FieldExpr f) = false ->
    compileExpr (influxql.FieldExpr f) s = (Ok out, s1) ->
    inFieldOrder (appendOutput out s1) rest edges ->
    inFieldOrder s (f :: rest) (out :: edges).

(** What the state [s] of a compiled statement records of the edge [e] of a
    field: for a variable reference, [e] is the edge the shared
    [AuxiliaryFields] node has for that reference; for a function call, [e] is
    one of [FunctionCalls]. *)
Definition edgeIn (s : State) (f : influxql.Field) (e : OutputEdgeRef) : Prop :=
  match influxql.FieldExpr f with
  | influxql.Ref r => auxEdge s r = Some e
  | influxql.Call _ _ => In e (FunctionCalls (comp s))
  | _ => True
  end.

(** The edges of the [AuxiliaryFields] node and the entries of
    [FunctionCalls] stay what they are. *)
Definition retains (s s' : State) : Prop :=
  (forall r e, auxEdge s r = Some e -> auxEdge s' r = Some e)
  /\ (forall e, In e (FunctionCalls (comp s)) -> In e (FunctionCalls (comp s'))).

(** The edges [Select] passes to [plan.AddTarget], call by call: what it
    leaves in a plan that had no target. *)
Definition addTargetCalls (c : compiledStatement) : list OutputEdgeRef :=
  targets (Select c (mkPlan [])).1.

(** [Select] calls [plan.AddTarget] exactly once for each output edge. *)
Definition oncePerEdge (c : compiledStatement) : Prop :=
  forall e, In e (OutputEdges c) -> count_occ Nat.eq_dec (addTargetCalls c) e = 1.

(** ** Statements used as examples *)

Definition ref (v : string) : influxql.Expr := influxql.Ref (influxql.mkVarRef v).
Definition call1 (f v : string) : influxql.Expr := influxql.Call f [ref v].
Definition field (e : influxql.Expr) : influxql.Field := influxql.mkField e "".
Definition select (fs : list influxql.Expr) : influxql.SelectStatement :=
  influxql.mkSelect [influxql.Measurement "cpu"] (map field fs).

Definition top_x_3 : influxql.Expr :=
  influxql.Call "top" [ref "x"; influxql.Lit (influxql.IntegerLiteral 3)].

Definition stmt_raw_sum_unimplemented : influxql.SelectStatement :=
  select [ref "x"; call1 "sum" "y"; influxql.Call "count" [influxql.Call "distinct" [ref "z"]]].

Definition stmt_max_sample : influxql.SelectStatement :=
  select [call1 "max" "x"; call1 "sample" "y"].

Definition stmt_max_min_other_source : influxql.SelectStatement :=
  influxql.mkSelect [influxql.OtherSource] (map field [call1 "max" "x"; call1 "min" "y"]).

Definition stmt_max_min_raw_unimplemented : influxql.SelectStatement :=
  select [call1 "max" "x"; call1 "min" "y"; ref "z";
          influxql.Call "count" [influxql.Call "distinct" [ref "w"]]].

Definition stmt_x_twice : influxql.SelectStatement :=
  select [ref "x"; ref "x"].

Definition stmt_time_x_max_z_x : influxql.SelectStatement :=
  select [ref "time"; ref "x"; call1 "max" "y"; ref "z"; ref "x"].

(** * Proofs *)

#[local] Instance keeps_preorder : PreOrder keeps.
Proof.
  split.
  - intros s. split; reflexivity.
  - intros a b c [H1 H2] [H3 H4]. split; congruence.
Qed.

Lemma step_bind {A B} (R : State -> State -> Prop) `{!PreOrder R}
      (m : M A) (f : A -> M B) :
  step R m -> (forall a, step R (f a)) -> step R (bind m f).
Proof.
  intros Hm Hf s. unfold bind. specialize (Hm s).
  destruct (m s) as [[a | e | p] s1]; cbn in *; auto.
  etransitivity; [exact Hm | apply Hf].
Qed.

Lemma step_ret {A} (R : State -> State -> Prop) `{!Reflexive R} (a : A) : step R (ret a).
Proof. intros s. cbn. reflexivity. Qed.

Lemma step_fail {A} (R : State -> State -> Prop) `{!Reflexive R} msg : step R (@fail A msg).
Proof. intros s. cbn. reflexivity. Qed.

Lemma step_panic {A} (R : State -> State -> Prop) `{!Reflexive R} msg : step R (@panic A msg).
Proof. intros s. cbn. reflexivity. Qed.

Lemma step_getc (R : State -> State -> Prop) `{!Reflexive R} : step R getc.
Proof. intros s. cbn. reflexivity. Qed.

Lemma step_getg (R : State -> State -> Prop) `{!Reflexive R} : step R getg.
Proof. intros s. cbn. reflexivity. Qed.

Lemma step_weaken {A} (R R' : State -> State -> Prop) (m : M A) :
  (forall s s', R s s' -> R' s s') -> step R m -> step R' m.
Proof. intros H Hm s. apply H, Hm. Qed.

Lemma omap_nameOf_alter (f : Node -> Node) (p : nat) (l : list Node) :
  (forall n, nameOf (f n) = nameOf n) ->
  omap nameOf (alter f p l) = omap nameOf l.
Proof.
  intros Hf. revert p. induction l as [| n l IH]; intros [| p]; cbn; auto.
  - rewrite Hf. reflexivity.
  - specialize (IH p). cbn in IH. rewrite IH. reflexivity.
Qed.

Lemma nameOf_withOutput e n : nameOf (withOutput e n) = nameOf n.
Proof. destruct n; reflexivity. Qed.

Lemma nameOf_withInput e n : nameOf (withInput e n) = nameOf n.
Proof. destruct n; reflexivity. Qed.

Lemma keeps_setNode p f :
  (forall n, nameOf (f n) = nameOf n) -> step keeps (setNode p f).
Proof.
  intros Hf s. split; [reflexivity |].
  unfold compiledFunctions. cbn. apply omap_nameOf_alter, Hf.
Qed.

Lemma keeps_new n : nameOf n = None -> step keeps (new n).
Proof.
  intros Hn s. split; [reflexivity |].
  unfold compiledFunctions. cbn. rewrite omap_app. cbn. rewrite Hn.
  apply app_nil_r.
Qed.

Lemma keeps_setOutputEdgeNode e n : step keeps (setOutputEdgeNode e n).
Proof. intros s. split; reflexivity. Qed.

Lemma keeps_NewEdge n : step keeps (NewEdge n).
Proof. intros s. split; reflexivity. Qed.

Lemma keeps_AddEdge a b : step keeps (AddEdge a b).
Proof. intros s. split; reflexivity. Qed.

Lemma keeps_Merge_AddInput m n : step keeps (Merge_AddInput m n).
Proof.
  unfold Merge_AddInput. apply step_bind; [apply _ | apply keeps_AddEdge |].
  intros [i o]. apply step_bind; [apply _ | | intros; apply step_ret; apply _].
  apply keeps_setNode. intros []; reflexivity.
Qed.

Lemma keeps_Iterator aux r : step keeps (Iterator aux r).
Proof.
  intros s. unfold Iterator, bind. cbn.
  destruct (nodes (graph s) !! aux) as [[] |]; cbn; try reflexivity.
  destruct (lookupAux r Aux); cbn; [reflexivity |].
  split; [reflexivity |].
  unfold compiledFunctions. cbn. apply omap_nameOf_alter. intros []; reflexivity.
Qed.

Lemma keeps_Insert e n : step keeps (Insert e n).
Proof.
  intros s. unfold Insert, bind. cbn.
  destruct (outs (graph s) !! e); cbn; split; reflexivity.
Qed.

Lemma keeps_sourceIterators expr merge sources : step keeps (sourceIterators expr merge sources).
Proof.
  induction sources as [| [m |] rest IH]; cbn.
  - apply step_ret; apply _.
  - apply step_bind; [apply _ | apply keeps_new; reflexivity |]. intros ic.
    apply step_bind; [apply _ | apply keeps_Merge_AddInput |]. intros o.
    apply step_bind; [apply _ | | intros; exact IH].
    apply keeps_setNode, nameOf_withOutput.
  - apply step_panic; apply _.
Qed.

(** ** [compileFunction] *)

Lemma compileFunction_arity name args s :
  length args <> 1 ->
  compileFunction name args s = (Err (errArgs name 1 (length args)), s).
Proof.
  intros H. unfold compileFunction.
  destruct (Nat.eqb_spec 1 (length args)) as [E | E]; [congruence | reflexivity].
Qed.

Lemma compileFunction_ref name r s :
  match compileFunction name [influxql.Ref r] s with
  | (Ok out, s') =>
      comp s' = set_FunctionCalls (FunctionCalls (comp s) ++ [out]) (markFunction name (comp s))
      /\ compiledFunctions s' = compiledFunctions s ++ [name]
  | (Err _, _) => False
  | (Panic _, s') => keeps s s'
  end.
Proof.
  unfold compileFunction. cbn [length Nat.eqb negb isDistinctCall].
  rewrite andb_false_r.
  unfold bind at 1. cbn [new getg modg bind ret].
  unfold bind at 1. cbn [getc comp].
  unfold bind at 1.
  match goal with |- context [sourceIterators ?e ?m ?l ?s1] =>
    pose proof (keeps_sourceIterators e m l s1) as Hk;
    destruct (sourceIterators e m l s1) as [[[] | e' | p] s2] eqn:Hs end;
    cbn in Hk; destruct Hk as [Hc Hn].
  - unfold compiledFunctions in Hn. cbn in Hn. rewrite omap_app in Hn. cbn in Hn.
    rewrite app_nil_r in Hn.
    unfold markFunction.
    destruct (oneOf name ["top"; "bottom"]);
      [| destruct (oneOf name ["max"; "min"; "first"; "last"; "percentile"; "sample"])];
      cbn; rewrite Hc; cbn;
      (split; [try destruct (String.eqb (TopBottomFunction (comp s)) ""); reflexivity |]);
      unfold compiledFunctions; cbn;
      rewrite !omap_nameOf_alter by (intros; first [apply nameOf_withOutput | apply nameOf_withInput]);
      rewrite omap_app; cbn; fold (compiledFunctions s2); unfold compiledFunctions; rewrite Hn;
      reflexivity.
  - exfalso. clear - Hs.
    revert Hs. generalize (length (nodes (graph s))).
    generalize ({| comp := comp s;
                   graph := {| nodes := nodes (graph s) ++ [Merge [] None];
                               outs := outs (graph s); ins := ins (graph s) |} |}).
    induction (Sources (comp s)) as [| [m |] rest IH]; intros s0 n; cbn; try discriminate.
    unfold bind. cbn. intros H. eapply IH. exact H.
  - cbn. split; [exact Hc |].
    unfold compiledFunctions in *. cbn in Hn. rewrite omap_app in Hn. cbn in Hn.
    rewrite app_nil_r in Hn. exact Hn.
Qed.

(** ** The state only grows *)

#[local] Instance extends_preorder : PreOrder extends.
Proof.
  split.
  - intros s. split; auto.
    + exists []. symmetry. apply app_nil_r.
    + exists []. cbn. rewrite app_nil_r, andb_true_r. auto with arith.
  - intros a b c [S1 T1 A1 [o1 O1] [n1 (N1 & P1 & Q1 & L1)]]
                 [S2 T2 A2 [o2 O2] [n2 (N2 & P2 & Q2 & L2)]].
    split; try congruence; auto.
    + exists (o1 ++ o2). rewrite O2, O1. symmetry. apply app_assoc.
    + exists (n1 ++ n2). rewrite N2, N1, Q2, Q1, L2, L1, !forallb_app, P1, P2, length_app.
      split; [symmetry; apply app_assoc |].
      split; [reflexivity |].
      split; [symmetry; apply andb_assoc | lia].
Qed.

Lemma keeps_extends s s' : keeps s s' -> extends s s'.
Proof.
  intros [Hc Hn]. split; try (rewrite Hc; auto).
  - exists []. symmetry. apply app_nil_r.
  - exists []. cbn. rewrite app_nil_r, andb_true_r, Hn. auto with arith.
Qed.

Lemma isSelector_split name :
  isSelector name
  = oneOf name ["top"; "bottom"]
    || oneOf name ["max"; "min"; "first"; "last"; "percentile"; "sample"].
Proof.
  unfold isSelector, oneOf. cbn.
  destruct (String.eqb name "top"), (String.eqb name "bottom"); reflexivity.
Qed.

Lemma markFunction_OnlySelectors name c :
  OnlySelectors (markFunction name c) = OnlySelectors c && isSelector name.
Proof.
  rewrite isSelector_split. unfold markFunction.
  generalize (oneOf name ["top"; "bottom"]).
  generalize (oneOf name ["max"; "min"; "first"; "last"; "percentile"; "sample"]).
  intros b1 b2.
  destruct b2, b1, (String.eqb (TopBottomFunction c) ""), (OnlySelectors c) eqn:E;
    cbn; congruence.
Qed.

Lemma isSupported_not_topBottom name :
  isSupported name = true -> oneOf name ["top"; "bottom"] = false.
Proof.
  unfold isSupported, oneOf. cbn.
  destruct (String.eqb_spec name "top") as [-> | _]; [discriminate |].
  destruct (String.eqb_spec name "bottom") as [-> | _]; [discriminate | reflexivity].
Qed.

Lemma markFunction_supported name c :
  isSupported name = true ->
  markFunction name c = if isSelector name then c else set_OnlySelectors false c.
Proof.
  intros H. rewrite isSelector_split. unfold markFunction.
  rewrite (isSupported_not_topBottom _ H). reflexivity.
Qed.

(** Everything but a single variable reference is turned down before the
    state is touched. *)
Lemma compileFunction_rejects name args s :
  (forall r, args <> [influxql.Ref r]) ->
  exists msg, compileFunction name args s = (Err msg, s).
Proof.
  intros H. destruct args as [| a [| b rest]].
  - eexists. apply compileFunction_arity. cbn. lia.
  - unfold compileFunction. cbn [length Nat.eqb negb].
    destruct (String.eqb name "count" && isDistinctCall a); [eexists; reflexivity |].
    destruct a; try (eexists; reflexivity).
    exfalso. eapply H. reflexivity.
  - eexists. apply compileFunction_arity. cbn. lia.
Qed.

Lemma extends_compileFunction name args :
  isSupported name = true -> step extends (compileFunction name args).
Proof.
  intros Hsup s.
  assert ((exists r, args = [influxql.Ref r]) \/ (forall r, args <> [influxql.Ref r]))
    as [[r ->] | Hno].
  { destruct args as [| [r | | | | |] [| b rest]]; try (right; intros r'; discriminate).
    left. eauto. }
  - pose proof (compileFunction_ref name r s) as H.
    destruct (compileFunction name [influxql.Ref r] s) as [[out | e | p] s']; cbn.
    + destruct H as [Hc Hn]. rewrite (markFunction_supported _ _ Hsup) in Hc.
      split; try (rewrite Hc; destruct (isSelector name); reflexivity).
      * intros a. rewrite Hc. destruct (isSelector name); auto.
      * exists []. rewrite Hc, app_nil_r. destruct (isSelector name); reflexivity.
      * exists [name]. split; [exact Hn |].
        split; [cbn [forallb]; rewrite Hsup; reflexivity |].
        rewrite Hc. cbn [forallb length]. rewrite andb_true_r.
        destruct (isSelector name); cbn; rewrite length_app; cbn;
          split; auto using andb_true_r, andb_false_r.
    + contradiction.
    + apply keeps_extends, H.
  - destruct (compileFunction_rejects name args s) as [msg ->].
    + exact Hno.
    + cbn. reflexivity.
Qed.

(** ** [compileExpr] *)

Lemma bind_at {A B} (R : State -> State -> Prop) `{!PreOrder R}
      (m : M A) (f : A -> M B) (s : State) :
  R s (m s).2 ->
  (forall a s1, m s = (Ok a, s1) -> R s1 (f a s1).2) ->
  R s (bind m f s).2.
Proof.
  intros Hm Hf. unfold bind.
  destruct (m s) as [[a | e | p] s1] eqn:E; cbn in *; auto.
  etransitivity; [exact Hm | eapply Hf; reflexivity].
Qed.

Lemma compileExpr_Ref r :
  compileExpr (influxql.Ref r)
  = (let* c := getc in let* aux := theAuxiliaryFields c in Iterator aux r).
Proof. reflexivity. Qed.

Lemma compileExpr_Call name args :
  compileExpr (influxql.Call name args)
  = if isSupported name then compileFunction name args else fail "unimplemented".
Proof. reflexivity. Qed.

Lemma compileExpr_BinaryExpr op l r :
  compileExpr (influxql.BinaryExpr op l r)
  = if isLiteral l then fail "unimplemented"
    else if isLiteral r then fail "unimplemented"
    else
      let* lhs := compileExpr l in
      let* rhs := compileExpr r in
      let* node := new (BinaryExpr (Some lhs) (Some rhs) op None) in
      setOutputEdgeNode lhs node ;;;
      setOutputEdgeNode rhs node ;;;
      let* (no, out) := NewEdge node in
      setNode node (withOutput no) ;;;
      ret out.
Proof. reflexivity. Qed.

Lemma theAuxiliaryFields_spec s :
  exists a s1, theAuxiliaryFields (comp s) s = (Ok a, s1)
    /\ AuxiliaryFields (comp s1) = Some a
    /\ extends s s1
    /\ OutputEdges (comp s1) = OutputEdges (comp s)
    /\ FunctionCalls (comp s1) = FunctionCalls (comp s)
    /\ OnlySelectors (comp s1) = OnlySelectors (comp s).
Proof.
  unfold theAuxiliaryFields.
  destruct (AuxiliaryFields (comp s)) as [a |] eqn:E.
  - exists a, s. cbn. split; [reflexivity |]. split; [exact E |].
    split; [reflexivity | auto].
  - eexists _, _. cbn. split; [reflexivity |]. cbn.
    split; [reflexivity |]. split; [| auto].
    split; cbn; auto.
    + intros a Ha. congruence.
    + exists []. symmetry. apply app_nil_r.
    + exists []. unfold compiledFunctions. cbn. rewrite omap_app. cbn.
      rewrite !app_nil_r, andb_true_r. auto with arith.
Qed.

Lemma extends_compileExpr expr : step extends (compileExpr expr).
Proof.
  induction expr as [r | name args | op l IHl r IHr | | |];
    try (apply step_fail; apply _).
  - intros s. rewrite compileExpr_Ref.
    apply bind_at; [apply _ | cbn; reflexivity |].
    intros c s1 [= <- <-].
    destruct (theAuxiliaryFields_spec s) as (a & s1 & E & _ & Hx & _).
    apply bind_at; [apply _ | rewrite E; exact Hx |].
    intros a' s1' E'. apply keeps_extends, keeps_Iterator.
  - rewrite compileExpr_Call. destruct (isSupported name) eqn:E.
    + apply extends_compileFunction, E.
    + apply step_fail; apply _.
  - rewrite compileExpr_BinaryExpr. destruct (isLiteral l); [apply step_fail; apply _ |].
    destruct (isLiteral r); [apply step_fail; apply _ |].
    apply step_bind; [apply _ | exact IHl |]. intros lhs.
    apply step_bind; [apply _ | exact IHr |]. intros rhs.
    apply (step_weaken keeps); [apply keeps_extends |].
    apply step_bind; [apply _ | apply keeps_new; reflexivity |]. intros node.
    apply step_bind; [apply _ | apply keeps_setOutputEdgeNode |]. intros _.
    apply step_bind; [apply _ | apply keeps_setOutputEdgeNode |]. intros _.
    apply step_bind; [apply _ | apply keeps_NewEdge |]. intros [no out].
    apply step_bind; [apply _ | apply keeps_setNode, nameOf_withOutput |]. intros _.
    apply step_ret; apply _.
Qed.

(** [compileExpr] leaves the result list alone: [Compile] appends to it. *)
Lemma compileExpr_OutputEdges expr s :
  OutputEdges (comp (compileExpr expr s).2) = OutputEdges (comp s).
Proof.
  revert s. induction expr as [r | name args | op l IHl r IHr | | |]; intros s;
    try reflexivity.
  - rewrite compileExpr_Ref. unfold bind at 1. cbn [getc].
    destruct (theAuxiliaryFields_spec s) as (a & s1 & E & _ & _ & Ho & _).
    unfold bind. rewrite E. pose proof (keeps_Iterator a r s1) as [Hc _].
    destruct (Iterator a r s1) as [[] ?]; cbn in *; congruence.
  - rewrite compileExpr_Call. destruct (isSupported name) eqn:E; [| reflexivity].
    assert ((exists r, args = [influxql.Ref r]) \/ (forall r, args <> [influxql.Ref r]))
      as [[r ->] | Hno].
    { destruct args as [| [r | | | | |] [| b rest]]; try (right; intros r'; discriminate).
      left. eauto. }
    + pose proof (compileFunction_ref name r s) as H.
      destruct (compileFunction name [influxql.Ref r] s) as [[out | e | p] s']; cbn.
      * destruct H as [-> _]. rewrite (markFunction_supported _ _ E).
        destruct (isSelector name); reflexivity.
      * contradiction.
      * destruct H as [-> _]. reflexivity.
    + destruct (compileFunction_rejects name args s Hno) as [msg ->]. reflexivity.
  - rewrite compileExpr_BinaryExpr. destruct (isLiteral l); [reflexivity |].
    destruct (isLiteral r); [reflexivity |].
    unfold bind at 1. specialize (IHl s).
    destruct (compileExpr l s) as [[lhs | e | p] s1]; cbn in IHl; auto.
    unfold bind at 1. specialize (IHr s1).
    destruct (compileExpr r s1) as [[rhs | e | p] s2]; cbn in *; congruence.
Qed.

(** ** The loop over the fields, and the two checks after it *)

Lemma runCompile_started stmt :
  runCompile stmt
  = (compileFields (influxql.Fields stmt) ;;; linkAuxiliaryFields ;;; validateFields)
      (started stmt).
Proof. reflexivity. Qed.

Lemma compileFields_cons f rest :
  compileFields (f :: rest)
  = if isTimeRef (influxql.FieldExpr f) then compileFields rest
    else
      let* out := compileExpr (influxql.FieldExpr f) in
      modc (fun c => set_OutputEdges (OutputEdges c ++ [out]) c) ;;;
      compileFields rest.
Proof. reflexivity. Qed.

Lemma compileFields_app pre post s :
  compileFields (pre ++ post) s = (compileFields pre ;;; compileFields post) s.
Proof.
  revert s. induction pre as [| f pre IH]; intros s; [reflexivity |].
  cbn [app]. rewrite !compileFields_cons.
  destruct (isTimeRef (influxql.FieldExpr f)); [apply IH |].
  unfold bind.
  destruct (compileExpr (influxql.FieldExpr f) s) as [[out | e | p] s1]; try reflexivity.
  cbn [modc]. rewrite IH. reflexivity.
Qed.

Lemma extends_appendOutput out :
  step extends (modc (fun c => set_OutputEdges (OutputEdges c ++ [out]) c)).
Proof.
  intros s. split; cbn; auto.
  - eauto.
  - exists []. cbn. rewrite app_nil_r, andb_true_r. auto with arith.
Qed.

Lemma extends_compileFields fields : step extends (compileFields fields).
Proof.
  induction fields as [| f rest IH]; [apply step_ret; apply _ |].
  rewrite compileFields_cons.
  destruct (isTimeRef (influxql.FieldExpr f)); [exact IH |].
  apply step_bind; [apply _ | apply extends_compileExpr |]. intros out.
  apply step_bind; [apply _ | apply extends_appendOutput | intros; exact IH].
Qed.

Lemma keeps_linkAuxiliaryFields : step keeps linkAuxiliaryFields.
Proof.
  unfold linkAuxiliaryFields.
  apply step_bind; [apply _ | apply step_getc; apply _ |]. intros c.
  destruct (AuxiliaryFields c) as [aux |].
  - destruct (negb (OnlySelectors c)); [apply step_fail; apply _ |].
    destruct (1 <? length (FunctionCalls c))%nat; [apply step_fail; apply _ |].
    destruct (FunctionCalls c) as [| call [| ? ?]].
    2: { apply step_bind; [apply _ | apply keeps_Insert |]. intros [i o].
         apply step_bind; [apply _ | apply keeps_setNode, nameOf_withInput |]. intros _.
         apply keeps_setNode, nameOf_withOutput. }
    all: (apply step_bind; [apply _ | apply keeps_new; reflexivity |]); intros merge;
      (apply step_bind; [apply _ | apply keeps_sourceIterators |]); intros _;
      (apply step_bind; [apply _ | apply keeps_AddEdge |]); intros [mo ai];
      (apply step_bind; [apply _ | apply keeps_setNode, nameOf_withOutput |]); intros _;
      apply keeps_setNode, nameOf_withInput.
  - destruct (length (FunctionCalls c) =? 0)%nat; [apply step_fail | apply step_ret]; apply _.
Qed.

Lemma validateFields_state s : (validateFields s).2 = s.
Proof.
  unfold validateFields, bind. cbn.
  destruct (_ && _); reflexivity.
Qed.

Lemma reached_extends stmt s : extends (started stmt) s -> reached stmt s.
Proof.
  intros [S T _ _ [added (N & P & Q & L)]]. cbn in *.
  unfold compiledFunctions in N. cbn in N.
  split; unfold compiledFunctions in *; try rewrite N; auto.
Qed.

Lemma reached_started stmt : reached stmt (started stmt).
Proof. apply reached_extends. reflexivity. Qed.

Lemma reached_fields stmt fields :
  reached stmt (compileFields fields (started stmt)).2.
Proof. apply reached_extends, extends_compileFields. Qed.

(** The state in which [Compile] stops, whatever the outcome. *)
Lemma reached_runCompile stmt : reached stmt (runCompile stmt).2.
Proof.
  apply reached_extends. rewrite runCompile_started.
  generalize (started stmt).
  apply step_bind; [apply _ | apply extends_compileFields |]. intros _.
  apply step_bind; [apply _ | |].
  - apply (step_weaken keeps); [apply keeps_extends | apply keeps_linkAuxiliaryFields].
  - intros _ s. rewrite validateFields_state. reflexivity.
Qed.

(** ** The errors of each stage *)

Lemma compileFunction_errors name args s msg s' :
  compileFunction name args s = (Err msg, s') -> exprError msg.
Proof.
  intros H. destruct args as [| a [| b rest]].
  - rewrite compileFunction_arity in H by (cbn; lia).
    injection H as <- _. right. left. eauto.
  - revert H. unfold compileFunction. cbn [length Nat.eqb negb].
    destruct (String.eqb name "count" && isDistinctCall a) eqn:E.
    + intros [= <- _]. left. reflexivity.
    + destruct a as [r | | | | |]; try (intros [= <- _]; right; right; eauto).
      intros H. pose proof (compileFunction_ref name r s) as H'.
      unfold compileFunction in H'. cbn [length Nat.eqb negb] in H'.
      rewrite E in H'. rewrite H in H'. contradiction.
  - rewrite compileFunction_arity in H by (cbn; lia).
    injection H as <- _. right. left. eauto.
Qed.

Lemma Iterator_no_error aux r s msg s' : Iterator aux r s <> (Err msg, s').
Proof.
  unfold Iterator, bind. cbn.
  destruct (nodes (graph s) !! aux) as [[] |]; cbn; try discriminate.
  destruct (lookupAux r Aux); discriminate.
Qed.

Lemma compileExpr_errors expr s msg s' :
  compileExpr expr s = (Err msg, s') -> exprError msg.
Proof.
  revert s s'. induction expr as [r | name args | op l IHl r IHr | | |]; intros s s';
    try (intros [= <- _]; left; reflexivity).
  - rewrite compileExpr_Ref. unfold bind at 1. cbn [getc].
    destruct (theAuxiliaryFields_spec s) as (a & s1 & E & _).
    unfold bind. rewrite E. intros H. exfalso. eapply Iterator_no_error. exact H.
  - rewrite compileExpr_Call. destruct (isSupported name).
    + apply compileFunction_errors.
    + intros [= <- _]. left. reflexivity.
  - rewrite compileExpr_BinaryExpr.
    destruct (isLiteral l); [intros [= <- _]; left; reflexivity |].
    destruct (isLiteral r); [intros [= <- _]; left; reflexivity |].
    unfold bind at 1.
    destruct (compileExpr l s) as [[lhs | e | p] s1] eqn:El; try discriminate.
    2: { intros [= <- _]. eapply IHl. exact El. }
    unfold bind at 1.
    destruct (compileExpr r s1) as [[rhs | e | p] s2] eqn:Er; try discriminate.
    intros [= <- _]. eapply IHr. exact Er.
Qed.

Lemma compileFields_errors fields s msg s' :
  compileFields fields s = (Err msg, s') -> exprError msg.
Proof.
  revert s. induction fields as [| f rest IH]; intros s; [discriminate |].
  rewrite compileFields_cons.
  destruct (isTimeRef (influxql.FieldExpr f)); [apply IH |].
  unfold bind at 1.
  destruct (compileExpr (influxql.FieldExpr f) s) as [[out | e | p] s1] eqn:E;
    try discriminate.
  - unfold bind. cbn [modc]. apply IH.
  - intros [= <- _]. eapply compileExpr_errors. exact E.
Qed.

Lemma sourceIterators_no_error expr merge sources s msg s' :
  sourceIterators expr merge sources s <> (Err msg, s').
Proof.
  revert s. induction sources as [| [m |] rest IH]; intros s; cbn; try discriminate.
  unfold bind. cbn. apply IH.
Qed.

(** The three ways [linkAuxiliaryFields] returns an error. *)
Lemma linkAuxiliaryFields_errors s msg s' :
  linkAuxiliaryFields s = (Err msg, s') ->
  (msg = errNoField /\ AuxiliaryFields (comp s) = None /\ FunctionCalls (comp s) = [])
  \/ (msg = errMixAggregate /\ AuxiliaryFields (comp s) <> None
      /\ OnlySelectors (comp s) = false)
  \/ (msg = errMixSelectors /\ AuxiliaryFields (comp s) <> None
      /\ OnlySelectors (comp s) = true /\ 1 < length (FunctionCalls (comp s))).
Proof.
  unfold linkAuxiliaryFields. unfold bind at 1. cbn [getc].
  destruct (AuxiliaryFields (comp s)) as [aux |].
  - destruct (OnlySelectors (comp s)); cbn [negb].
    2: { intros [= <- _]. right. left. auto. }
    destruct (Nat.ltb_spec 1 (length (FunctionCalls (comp s)))) as [Hlt | Hge].
    { intros [= <- _]. right. right. auto. }
    clear Hge.
    destruct (FunctionCalls (comp s)) as [| call [| ? ?]].
    2: { unfold Insert, bind. cbn.
         destruct (outs (graph s) !! call); cbn; discriminate. }
    all: unfold bind at 1; cbn [new getg modg bind ret]; unfold bind at 1;
      match goal with |- context [sourceIterators ?e ?m ?l ?s1] =>
        pose proof (sourceIterators_no_error e m l s1) as Hne;
        destruct (sourceIterators e m l s1) as [[[] | e' | p] s2] end;
      cbn; try discriminate; intros H; exfalso; eapply Hne; reflexivity.
  - destruct (FunctionCalls (comp s)); cbn; [| discriminate].
    intros [= <- _]. left. auto.
Qed.

Lemma validateFields_ok s :
  TopBottomFunction (comp s) = "" -> validateFields s = (Ok tt, s).
Proof.
  intros H. unfold validateFields, bind. cbn. rewrite H. cbn.
  rewrite andb_false_r. reflexivity.
Qed.

(** [Compile] in terms of its stages. *)
Lemma Compile_fields_Err stmt msg s :
  compileFields (influxql.Fields stmt) (started stmt) = (Err msg, s) ->
  Compile stmt = Err msg.
Proof.
  intros H. unfold Compile. rewrite runCompile_started. unfold bind at 1.
  rewrite H. reflexivity.
Qed.

Lemma Compile_fields_Panic stmt msg s :
  compileFields (influxql.Fields stmt) (started stmt) = (Panic msg, s) ->
  Compile stmt = Panic msg.
Proof.
  intros H. unfold Compile. rewrite runCompile_started. unfold bind at 1.
  rewrite H. reflexivity.
Qed.

Lemma Compile_fields_Ok stmt s :
  compileFields (influxql.Fields stmt) (started stmt) = (Ok tt, s) ->
  Compile stmt = match linkAuxiliaryFields s with
                 | (Ok _, s1) => Ok s1
                 | (Err e, _) => Err e
                 | (Panic p, _) => Panic p
                 end.
Proof.
  intros H. unfold Compile. rewrite runCompile_started. unfold bind at 1.
  rewrite H. unfold bind at 1.
  pose proof (keeps_linkAuxiliaryFields s) as [Hc _].
  destruct (linkAuxiliaryFields s) as [[[] | e | p] s1]; try reflexivity.
  cbn in Hc. rewrite validateFields_ok; [reflexivity |].
  rewrite Hc. pose proof (reached_fields stmt (influxql.Fields stmt)) as R.
  rewrite H in R. apply R.
Qed.

(** ** Fields that are the bare reference [time] *)

Lemma compileFields_nonTime fields s :
  compileFields fields s = compileFields (List.filter nonTime fields) s.
Proof.
  revert s. induction fields as [| f rest IH]; intros s; [reflexivity |].
  cbn [List.filter]. unfold nonTime at 1. rewrite compileFields_cons.
  destruct (isTimeRef (influxql.FieldExpr f)) eqn:E; cbn [negb]; [apply IH |].
  rewrite compileFields_cons, E. unfold bind.
  destruct (compileExpr (influxql.FieldExpr f) s) as [[out | e | p] s1]; try reflexivity.
  cbn [modc]. apply IH.
Qed.

Lemma filter_nonTime_timeFields fields :
  Forall timeField fields -> List.filter nonTime fields = [].
Proof.
  induction 1 as [| f rest Hf _ IH]; [reflexivity |].
  cbn. unfold nonTime at 1. rewrite Hf. cbn. exact IH.
Qed.

(** C4: a statement whose every field is the bare reference [time], or that
    has no field at all, fails to compile with "at least 1 non-time field must
    be queried"; and a bare [time] field is always skipped: the loop over the
    fields does exactly what it does on the fields that are not [time], so a
    [time] field adds no node and no output edge, and a statement with only
    such fields leaves the graph and the result list empty. *)
Theorem C4_time_fields_skipped (stmt : influxql.SelectStatement) :
  (forall s, compileFields (influxql.Fields stmt) s
             = compileFields (List.filter nonTime (influxql.Fields stmt)) s)
  /\ (Forall timeField (influxql.Fields stmt) ->
      Compile stmt = Err "at least 1 non-time field must be queried"
      /\ graph (runCompile stmt).2 = mkGraph [] [] []
      /\ OutputEdges (comp (runCompile stmt).2) = []).
Proof.
  split; [intros s; apply compileFields_nonTime |].
  intros H.
  assert (compileFields (influxql.Fields stmt) (started stmt) = (Ok tt, started stmt)) as E.
  { rewrite compileFields_nonTime, (filter_nonTime_timeFields _ H). reflexivity. }
  split; [rewrite (Compile_fields_Ok _ _ E); reflexivity |].
  assert ((runCompile stmt).2 = started stmt) as ->; [| split; reflexivity].
  rewrite runCompile_started. unfold bind at 1. rewrite E. reflexivity.
Qed.

Lemma C4_time_fields_skipped_witness :
  Compile (select [ref "time"; ref "time"]) = Err "at least 1 non-time field must be queried"
  /\ Compile (select []) = Err "at least 1 non-time field must be queried".
Proof.
  split.
  - apply (C4_time_fields_skipped (select [ref "time"; ref "time"])).
    repeat constructor.
  - apply (C4_time_fields_skipped (select [])). constructor.
Defined.

(** ** The preconditions of [compileFunction] *)

(** C5: [compileFunction] enforces its preconditions in this order: a call
    without exactly one argument fails with an error that names the function,
    the expected count 1 and the actual count; [count] of a [distinct()] call
    fails with "unimplemented"; any other single argument that is not a plain
    variable reference fails with "expected field argument in NAME()". No
    state is touched. *)
Theorem C5_compileFunction_preconditions
        (name : string) (args : list influxql.Expr) (s : State) :
  (length args <> 1 ->
   compileFunction name args s
   = (Err ("invalid number of arguments for " +:+ name +:+ ", expected "
           +:+ itoa 1 +:+ ", got " +:+ itoa (length args)), s))
  /\ (forall a, args = [a] -> name = "count" -> isDistinctCall a = true ->
      compileFunction name args s = (Err "unimplemented", s))
  /\ (forall a, args = [a] -> (forall r, a <> influxql.Ref r) ->
      (name = "count" -> isDistinctCall a = false) ->
      compileFunction name args s
      = (Err ("expected field argument in " +:+ name +:+ "()"), s)).
Proof.
  split; [apply compileFunction_arity |]. split.
  - intros a -> -> Hd. unfold compileFunction. cbn. rewrite Hd. reflexivity.
  - intros a -> Hr Hc. unfold compileFunction. cbn [length Nat.eqb negb].
    destruct (String.eqb_spec name "count") as [E | E].
    + rewrite (Hc E). cbn. destruct a; try reflexivity. exfalso. eapply Hr. reflexivity.
    + cbn. destruct a; try reflexivity. exfalso. eapply Hr. reflexivity.
Qed.

Lemma C5_compileFunction_preconditions_witness :
  compileFunction "max" [ref "x"; ref "y"] (newCompiler (select []))
  = (Err "invalid number of arguments for max, expected 1, got 2", newCompiler (select []))
  /\ compileFunction "count" [influxql.Call "distinct" [ref "x"]] (newCompiler (select []))
     = (Err "unimplemented", newCompiler (select []))
  /\ compileFunction "count" [call1 "max" "x"] (newCompiler (select []))
     = (Err "expected field argument in count()", newCompiler (select [])).
Proof.
  split; [| split].
  - apply (C5_compileFunction_preconditions "max" [ref "x"; ref "y"]). cbn. lia.
  - destruct (C5_compileFunction_preconditions
                "count" [influxql.Call "distinct" [ref "x"]] (newCompiler (select [])))
      as (_ & H & _).
    apply (H (influxql.Call "distinct" [ref "x"])); reflexivity.
  - destruct (C5_compileFunction_preconditions
                "count" [call1 "max" "x"] (newCompiler (select [])))
      as (_ & _ & H).
    apply (H (call1 "max" "x")); [reflexivity | discriminate | reflexivity].
Defined.

(** C10: for [min], [max], [sum], [first], [last] and [mean], a single
    argument that is itself a function call, [distinct()] included, fails
    with "expected field argument in NAME()" and not with "unimplemented":
    the [distinct] case is special for [count] only. *)
Theorem C10_distinct_special_only_for_count
        (name fname : string) (fargs : list influxql.Expr) (s : State) :
  In name ["min"; "max"; "sum"; "first"; "last"; "mean"] ->
  compileFunction name [influxql.Call fname fargs] s
  = (Err ("expected field argument in " +:+ name +:+ "()"), s)
  /\ compileFunction name [influxql.Call fname fargs] s <> (Err "unimplemented", s).
Proof.
  intros H. cbn in H.
  assert (compileFunction name [influxql.Call fname fargs] s
          = (Err ("expected field argument in " +:+ name +:+ "()"), s)) as E.
  { destruct H as [<- | [<- | [<- | [<- | [<- | [<- | []]]]]]]; reflexivity. }
  split; [exact E |]. rewrite E.
  destruct H as [<- | [<- | [<- | [<- | [<- | [<- | []]]]]]]; discriminate.
Qed.

Lemma C10_distinct_special_only_for_count_witness :
  compileFunction "sum" [influxql.Call "distinct" [ref "x"]] (newCompiler (select []))
  = (Err "expected field argument in sum()", newCompiler (select [])).
Proof.
  apply (C10_distinct_special_only_for_count "sum" "distinct" [ref "x"]).
  cbn. auto.
Defined.

(** ** Raw fields and function calls together *)

Lemma compileExpr_Ref_aux r s :
  exists a, AuxiliaryFields (comp (compileExpr (influxql.Ref r) s).2) = Some a.
Proof.
  rewrite compileExpr_Ref. unfold bind at 1. cbn [getc].
  destruct (theAuxiliaryFields_spec s) as (a & s1 & E & Ha & _).
  exists a. unfold bind. rewrite E.
  pose proof (keeps_Iterator a r s1) as [Hc _].
  destruct (Iterator a r s1) as [[] ?]; cbn in *; congruence.
Qed.

Lemma compileFields_raw_aux fields s0 s :
  compileFields fields s0 = (Ok tt, s) ->
  Exists rawField fields ->
  AuxiliaryFields (comp s) <> None.
Proof.
  intros H Hex. revert s0 H. induction Hex as [f rest (r & Hr & Hv) | f rest _ IH];
    intros s0; rewrite compileFields_cons.
  - rewrite Hr. cbn [isTimeRef].
    destruct (String.eqb_spec (influxql.Val r) "time") as [E | _]; [contradiction |].
    unfold bind at 1. destruct (compileExpr_Ref_aux r s0) as [a Ha].
    destruct (compileExpr (influxql.Ref r) s0) as [[out | e | p] s1]; try discriminate.
    unfold bind. cbn [modc]. intros H.
    match type of H with compileFields _ ?s2 = _ =>
      pose proof (extends_compileFields rest s2) as Hx end.
    rewrite H in Hx. cbn in Hx, Ha. rewrite (ext_Aux _ _ Hx a Ha). discriminate.
  - destruct (isTimeRef (influxql.FieldExpr f)); [apply IH |].
    unfold bind at 1.
    destruct (compileExpr (influxql.FieldExpr f) s0) as [[out | e | p] s1]; try discriminate.
    unfold bind. cbn [modc]. apply IH.
Qed.

Lemma aggregate_not_selector name : isAggregate name = true -> isSelector name = false.
Proof.
  unfold isAggregate, oneOf. cbn.
  destruct (String.eqb_spec name "count") as [-> | _]; [reflexivity |].
  destruct (String.eqb_spec name "sum") as [-> | _]; [reflexivity |].
  destruct (String.eqb_spec name "mean") as [-> | _]; [reflexivity | discriminate].
Qed.

Lemma supported_selector_or_aggregate name :
  isSupported name = true -> isSelector name = negb (isAggregate name).
Proof.
  unfold isSupported, oneOf. cbn.
  repeat match goal with
         | |- context [String.eqb name ?x] =>
             destruct (String.eqb_spec name x) as [-> | _]; [reflexivity |]
         end.
  discriminate.
Qed.

(** A compiled true aggregate has cleared [OnlySelectors]. *)
Lemma reached_aggregate stmt s name :
  reached stmt s -> In name (compiledFunctions s) -> isAggregate name = true ->
  OnlySelectors (comp s) = false.
Proof.
  intros R Hin Ha. rewrite (reached_OnlySelectors _ _ R).
  apply not_true_is_false. intros Hall.
  rewrite forallb_forall in Hall. specialize (Hall _ Hin).
  rewrite (aggregate_not_selector _ Ha) in Hall. discriminate.
Qed.

(** C1, as stated, fails: the statement [x, sum(y), count(distinct(z))] has
    a raw field and a compiled true aggregate, so that an [AuxiliaryFields]
    set exists and [OnlySelectors] is false, and yet [Compile] returns
    "unimplemented", the error of its third field. *)
Lemma C1_counterexample :
  Exists rawField (influxql.Fields stmt_raw_sum_unimplemented)
  /\ In "sum" (compiledFunctions (runCompile stmt_raw_sum_unimplemented).2)
  /\ AuxiliaryFields (comp (runCompile stmt_raw_sum_unimplemented).2) <> None
  /\ OnlySelectors (comp (runCompile stmt_raw_sum_unimplemented).2) = false
  /\ Compile stmt_raw_sum_unimplemented = Err "unimplemented"
  /\ Compile stmt_raw_sum_unimplemented
     <> Err "mixing aggregate and non-aggregate queries is not supported".
Proof.
  split.
  { apply Exists_cons_hd. exists (influxql.mkVarRef "x"). split; [reflexivity | discriminate]. }
  split; [vm_compute; auto |].
  split; [vm_compute; discriminate |].
  split; [vm_compute; reflexivity |].
  split; [vm_compute; reflexivity | vm_compute; discriminate].
Qed.

(** C1 (amended): for every statement whose fields all compile, in which at
    least one field is a plain variable reference other than [time] and at
    least one compiled function call is a true aggregate ([count], [sum] or
    [mean]), [Compile] fails with "mixing aggregate and non-aggregate queries
    is not supported". *)
Theorem C1_mixing_aggregate_and_raw (stmt : influxql.SelectStatement) (s : State) :
  compileFields (influxql.Fields stmt) (started stmt) = (Ok tt, s) ->
  Exists rawField (influxql.Fields stmt) ->
  (exists name, In name (compiledFunctions s) /\ isAggregate name = true) ->
  Compile stmt = Err "mixing aggregate and non-aggregate queries is not supported".
Proof.
  intros H Hraw (name & Hin & Hagg).
  rewrite (Compile_fields_Ok _ _ H).
  pose proof (compileFields_raw_aux _ _ _ H Hraw) as Haux.
  pose proof (reached_fields stmt (influxql.Fields stmt)) as R. rewrite H in R.
  cbn [snd] in R.
  pose proof (reached_aggregate _ _ _ R Hin Hagg) as Hsel.
  unfold linkAuxiliaryFields. unfold bind at 1. cbn [getc].
  destruct (AuxiliaryFields (comp s)); [| contradiction].
  rewrite Hsel. reflexivity.
Qed.

Lemma C1_mixing_aggregate_and_raw_witness :
  Compile (select [ref "x"; call1 "sum" "y"])
  = Err "mixing aggregate and non-aggregate queries is not supported".
Proof.
  apply (C1_mixing_aggregate_and_raw
           (select [ref "x"; call1 "sum" "y"])
           (compileFields (influxql.Fields (select [ref "x"; call1 "sum" "y"]))
                          (started (select [ref "x"; call1 "sum" "y"]))).2).
  - vm_compute. reflexivity.
  - apply Exists_cons_hd. exists (influxql.mkVarRef "x"). split; [reflexivity | discriminate].
  - exists "sum". split; [vm_compute; auto | reflexivity].
Defined.

Lemma Compile_Err_cases stmt msg :
  Compile stmt = Err msg ->
  exprError msg
  \/ exists s s', compileFields (influxql.Fields stmt) (started stmt) = (Ok tt, s)
                  /\ linkAuxiliaryFields s = (Err msg, s').
Proof.
  intros H.
  destruct (compileFields (influxql.Fields stmt) (started stmt)) as [[[] | e | p] s] eqn:E.
  - right. exists s. rewrite (Compile_fields_Ok _ _ E) in H.
    destruct (linkAuxiliaryFields s) as [[[] | e | p] s1]; try discriminate.
    injection H as ->. eauto.
  - left. rewrite (Compile_fields_Err _ _ _ E) in H. injection H as <-.
    eapply compileFields_errors. exact E.
  - rewrite (Compile_fields_Panic _ _ _ E) in H. discriminate.
Qed.

Lemma exprError_not_mixSelectors msg : exprError msg -> msg <> errMixSelectors.
Proof.
  intros [-> | [(name & got & ->) | (name & ->)]]; discriminate.
Qed.

Lemma exprError_not_topBottom msg name : exprError msg -> msg <> errTopBottom name.
Proof.
  intros [-> | [(n & got & ->) | (n & ->)]]; discriminate.
Qed.

(** ** Sources that are all measurements *)

Lemma sourceIterators_ok expr merge sources s :
  Forall isMeasurement sources ->
  exists s', sourceIterators expr merge sources s = (Ok tt, s').
Proof.
  intros H. revert s. induction H as [| [m |] rest Hm _ IH]; intros s.
  - eexists. reflexivity.
  - cbn. unfold bind. cbn. apply IH.
  - destruct Hm.
Qed.

Lemma compileFunction_ok name r s :
  Forall isMeasurement (Sources (comp s)) ->
  exists out s', compileFunction name [influxql.Ref r] s = (Ok out, s').
Proof.
  intros H. unfold compileFunction. cbn [length Nat.eqb negb isDistinctCall].
  rewrite andb_false_r.
  unfold bind at 1. cbn [new getg modg bind ret].
  unfold bind at 1. cbn [getc comp].
  unfold bind at 1.
  match goal with |- context [sourceIterators ?e ?m ?l ?s1] =>
    destruct (sourceIterators_ok e m l s1 H) as [s2 ->] end.
  destruct (oneOf name ["top"; "bottom"]);
    [| destruct (oneOf name ["max"; "min"; "first"; "last"; "percentile"; "sample"])];
    eexists _, _; reflexivity.
Qed.

Lemma compileFields_selectorCalls fields s :
  Forall isMeasurement (Sources (comp s)) ->
  Forall (fun f => timeField f \/ routedSelectorCall f) fields ->
  exists s', compileFields fields s = (Ok tt, s')
             /\ AuxiliaryFields (comp s') = AuxiliaryFields (comp s)
             /\ length (FunctionCalls (comp s'))
                = length (FunctionCalls (comp s)) + length (List.filter nonTime fields).
Proof.
  intros Hm Hf. revert s Hm. induction Hf as [| f rest Hf _ IH]; intros s Hm.
  - exists s. cbn. auto with arith.
  - rewrite compileFields_cons. cbn [List.filter]. unfold nonTime at 1.
    destruct Hf as [Ht | (name & r & Hc & Hin)].
    + rewrite Ht. cbn. apply IH, Hm.
    + rewrite Hc. cbn [isTimeRef negb]. rewrite compileExpr_Call.
      assert (isSupported name = true) as Hsup.
      { cbn in Hin. destruct Hin as [<- | [<- | [<- | [<- | []]]]]; reflexivity. }
      rewrite Hsup. unfold bind at 1.
      destruct (compileFunction_ok name r s Hm) as (out & s1 & E).
      pose proof (compileFunction_ref name r s) as Hspec. rewrite E in Hspec |- *.
      destruct Hspec as [Hcomp _].
      unfold bind at 1. cbn [modc].
      match goal with |- context [compileFields rest ?s2] =>
        destruct (IH s2) as (s' & E' & Ha & Hl) end.
      { cbn. rewrite Hcomp. rewrite (markFunction_supported _ _ Hsup).
        destruct (isSelector name); exact Hm. }
      exists s'. split; [exact E' |]. cbn in Ha, Hl. rewrite Ha, Hl, Hcomp.
      rewrite (markFunction_supported _ _ Hsup).
      destruct (isSelector name); cbn; rewrite length_app; cbn; split; auto; lia.
Qed.

Lemma markFunction_Aux name c :
  AuxiliaryFields (markFunction name c) = AuxiliaryFields c.
Proof.
  unfold markFunction.
  destruct (oneOf name ["top"; "bottom"]);
    [destruct (String.eqb (TopBottomFunction c) "") |
     destruct (oneOf name ["max"; "min"; "first"; "last"; "percentile"; "sample"])];
    reflexivity.
Qed.

(** A function call that compiles adds one entry to [FunctionCalls] and
    leaves the [AuxiliaryFields] pointer alone. *)
Lemma compileExpr_Call_Ok name args s out s' :
  compileExpr (influxql.Call name args) s = (Ok out, s') ->
  AuxiliaryFields (comp s') = AuxiliaryFields (comp s)
  /\ length (FunctionCalls (comp s')) = S (length (FunctionCalls (comp s))).
Proof.
  rewrite compileExpr_Call. destruct (isSupported name); [| discriminate].
  assert ((exists r, args = [influxql.Ref r]) \/ (forall r, args <> [influxql.Ref r]))
    as [[r ->] | Hno].
  { destruct args as [| [r | | | | |] [| b rest]]; try (right; intros r'; discriminate).
    left. eauto. }
  - pose proof (compileFunction_ref name r s) as H. intros E. rewrite E in H.
    destruct H as [-> _]. cbn. rewrite markFunction_Aux, length_app. cbn.
    split; [reflexivity |].
    unfold markFunction.
    destruct (oneOf name ["top"; "bottom"]);
      [destruct (String.eqb (TopBottomFunction (comp s)) "") |
       destruct (oneOf name ["max"; "min"; "first"; "last"; "percentile"; "sample"])];
      cbn; lia.
  - destruct (compileFunction_rejects name args s Hno) as [msg ->]. discriminate.
Qed.

Lemma compileFields_calls fields s s' :
  compileFields fields s = (Ok tt, s') ->
  Forall (fun f => timeField f \/ selectorCall f) fields ->
  AuxiliaryFields (comp s') = AuxiliaryFields (comp s)
  /\ length (FunctionCalls (comp s'))
     = length (FunctionCalls (comp s)) + length (List.filter nonTime fields).
Proof.
  intros H Hf. revert s H. induction Hf as [| f rest Hf _ IH]; intros s.
  - intros [= <-]. cbn. auto with arith.
  - rewrite compileFields_cons. cbn [List.filter]. unfold nonTime at 1.
    destruct Hf as [Ht | (name & args & Hc & _)].
    + rewrite Ht. cbn. apply IH.
    + rewrite Hc. cbn [isTimeRef negb]. unfold bind at 1.
      destruct (compileExpr (influxql.Call name args) s) as [[out | e | p] s1] eqn:E;
        try discriminate.
      destruct (compileExpr_Call_Ok _ _ _ _ _ E) as [Ha Hl].
      unfold bind. cbn [modc]. intros H. destruct (IH _ H) as [Ha' Hl'].
      cbn in Ha', Hl'. rewrite Ha', Hl', Ha, Hl. cbn. split; [reflexivity | lia].
Qed.

(** C2, as stated, fails in both halves. Two selector calls and no raw
    field do not always compile: [max(x), sample(y)] returns "unimplemented"
    ([sample] is a selector the dispatcher does not route), and
    [max(x), min(y)] over a source that is not a measurement panics. And a
    statement with two compiled selector calls and a raw field, with
    [OnlySelectors] still true, returns the error of a later field instead of
    the multiple-selectors error. *)
Lemma C2_counterexample :
  (isSelector "max" = true /\ isSelector "sample" = true
   /\ Compile stmt_max_sample = Err "unimplemented")
  /\ Compile stmt_max_min_other_source = Panic "unimplemented"
  /\ (Exists rawField (influxql.Fields stmt_max_min_raw_unimplemented)
      /\ length (FunctionCalls (comp (runCompile stmt_max_min_raw_unimplemented).2)) = 2
      /\ OnlySelectors (comp (runCompile stmt_max_min_raw_unimplemented).2) = true
      /\ Compile stmt_max_min_raw_unimplemented = Err "unimplemented"
      /\ Compile stmt_max_min_raw_unimplemented
         <> Err "mixing multiple selector functions with tags or fields is not supported").
Proof.
  split; [repeat split; vm_compute; reflexivity |].
  split; [vm_compute; reflexivity |].
  split.
  { do 2 apply Exists_cons_tl. apply Exists_cons_hd.
    exists (influxql.mkVarRef "z"). split; [reflexivity | discriminate]. }
  repeat split; vm_compute; try reflexivity. discriminate.
Qed.

(** C2 (amended): a statement whose fields all compile and whose fields
    other than [time] are two or more selector function calls, with no raw
    variable reference, compiles, and has no [AuxiliaryFields]; the fields do
    all compile, and so does the statement, when the sources are all
    measurements and every such field is a call of [max], [min], [first] or
    [last] on one plain variable reference. A statement whose fields all
    compile, leaving more than one function call and [OnlySelectors] still
    true, and that has a raw variable reference among its fields, fails with
    "mixing multiple selector functions with tags or fields is not
    supported"; and [Compile] returns that error only when all fields compiled
    and auxiliary fields exist. *)
Theorem C2_multiple_selectors (stmt : influxql.SelectStatement) :
  (forall s,
      compileFields (influxql.Fields stmt) (started stmt) = (Ok tt, s) ->
      Forall (fun f => timeField f \/ selectorCall f) (influxql.Fields stmt) ->
      2 <= length (List.filter nonTime (influxql.Fields stmt)) ->
      exists s', Compile stmt = Ok s' /\ AuxiliaryFields (comp s') = None)
  /\ (Forall isMeasurement (influxql.Sources stmt) ->
      Forall (fun f => timeField f \/ routedSelectorCall f) (influxql.Fields stmt) ->
      2 <= length (List.filter nonTime (influxql.Fields stmt)) ->
      exists s, Compile stmt = Ok s /\ AuxiliaryFields (comp s) = None)
  /\ (forall s,
         compileFields (influxql.Fields stmt) (started stmt) = (Ok tt, s) ->
         1 < length (FunctionCalls (comp s)) ->
         Exists rawField (influxql.Fields stmt) ->
         OnlySelectors (comp s) = true ->
         Compile stmt
         = Err "mixing multiple selector functions with tags or fields is not supported")
  /\ (Compile stmt
      = Err "mixing multiple selector functions with tags or fields is not supported" ->
      exists s, compileFields (influxql.Fields stmt) (started stmt) = (Ok tt, s)
                /\ AuxiliaryFields (comp s) <> None
                /\ 1 < length (FunctionCalls (comp s))).
Proof.
  assert (forall s,
             compileFields (influxql.Fields stmt) (started stmt) = (Ok tt, s) ->
             AuxiliaryFields (comp s) = None ->
             1 <= length (FunctionCalls (comp s)) ->
             exists s', Compile stmt = Ok s' /\ AuxiliaryFields (comp s') = None) as Hok.
  { intros s E Ha Hl. exists s. rewrite (Compile_fields_Ok _ _ E).
    unfold linkAuxiliaryFields. unfold bind at 1. cbn [getc]. rewrite Ha.
    destruct (Nat.eqb_spec (length (FunctionCalls (comp s))) 0) as [E0 | _]; [lia |].
    split; reflexivity. }
  split; [| split; [| split]].
  - intros s E Hf Hn. destruct (compileFields_calls _ _ _ E Hf) as [Ha Hl].
    cbn in Ha, Hl. apply (Hok s E Ha). lia.
  - intros Hm Hf Hn.
    destruct (compileFields_selectorCalls (influxql.Fields stmt) (started stmt))
      as (s & E & Ha & Hl); [exact Hm | exact Hf |].
    cbn in Ha, Hl. apply (Hok s E Ha). lia.
  - intros s E Hl Hraw Hsel. rewrite (Compile_fields_Ok _ _ E).
    pose proof (compileFields_raw_aux _ _ _ E Hraw) as Haux.
    unfold linkAuxiliaryFields. unfold bind at 1. cbn [getc].
    destruct (AuxiliaryFields (comp s)); [| contradiction].
    rewrite Hsel. cbn [negb].
    destruct (Nat.ltb_spec 1 (length (FunctionCalls (comp s)))); [reflexivity | lia].
  - intros H. destruct (Compile_Err_cases _ _ H) as [Hx | (s & s' & E & Hl)].
    + exfalso. exact (exprError_not_mixSelectors _ Hx eq_refl).
    + exists s. split; [exact E |].
      destruct (linkAuxiliaryFields_errors _ _ _ Hl)
        as [(Hm & _) | [(Hm & _) | (_ & Ha & _ & Hlen)]]; try discriminate.
      auto.
Qed.

Lemma C2_multiple_selectors_witness :
  (exists s, Compile (select [call1 "max" "x"; call1 "min" "y"]) = Ok s
             /\ AuxiliaryFields (comp s) = None)
  /\ (exists s, Compile (select [ref "time"; call1 "first" "x"; call1 "last" "y"]) = Ok s
                /\ AuxiliaryFields (comp s) = None)
  /\ Compile (select [call1 "max" "x"; call1 "min" "y"; ref "z"])
     = Err "mixing multiple selector functions with tags or fields is not supported".
Proof.
  split; [| split].
  - destruct (C2_multiple_selectors (select [call1 "max" "x"; call1 "min" "y"]))
      as (H & _).
    apply (H (compileFields (influxql.Fields (select [call1 "max" "x"; call1 "min" "y"]))
                            (started (select [call1 "max" "x"; call1 "min" "y"]))).2).
    + vm_compute. reflexivity.
    + constructor; [| constructor; [| constructor]];
        right; eexists _, _; (split; reflexivity).
    + cbn. lia.
  - destruct (C2_multiple_selectors
                (select [ref "time"; call1 "first" "x"; call1 "last" "y"]))
      as (_ & H & _).
    apply H.
    + constructor; [exact I | constructor].
    + constructor; [left; reflexivity |].
      constructor; [| constructor; [| constructor]];
        right; eexists _, _; (split; [reflexivity | cbn; auto]).
    + cbn. lia.
  - destruct (C2_multiple_selectors (select [call1 "max" "x"; call1 "min" "y"; ref "z"]))
      as (_ & _ & H & _).
    apply (H (compileFields
                (influxql.Fields (select [call1 "max" "x"; call1 "min" "y"; ref "z"]))
                (started (select [call1 "max" "x"; call1 "min" "y"; ref "z"]))).2).
    + vm_compute. reflexivity.
    + vm_compute. lia.
    + do 2 apply Exists_cons_tl. apply Exists_cons_hd.
      exists (influxql.mkVarRef "z"). split; [reflexivity | discriminate].
    + vm_compute. reflexivity.
Defined.

(** ** [top] and [bottom] *)

(** C3, as stated, fails: [top(x, 3)] alone, [top(x, 3)] with a raw field
    and even [top(x)] do not compile but return "unimplemented", and
    [top(x, 3)] with [max(y)] returns "unimplemented" and not the
    exclusivity error. *)
Lemma C3_counterexample :
  Compile (select [top_x_3]) = Err "unimplemented"
  /\ Compile (select [top_x_3; ref "y"]) = Err "unimplemented"
  /\ Compile (select [call1 "top" "x"]) = Err "unimplemented"
  /\ Compile (select [top_x_3; call1 "max" "y"]) = Err "unimplemented"
  /\ Compile (select [top_x_3; call1 "max" "y"])
     <> Err "selector function top() cannot be combined with other functions".
Proof. repeat split; vm_compute; try reflexivity. discriminate. Qed.

(** C3 (amended): a statement with a field that calls [top], whose fields
    before that call compile, fails to compile with "unimplemented", whether
    the call stands alone, with raw field references or with other function
    calls; and [Compile] never returns "selector function NAME() cannot be
    combined with other functions". *)
Theorem C3_top_unimplemented (stmt : influxql.SelectStatement) :
  (forall pre args alias post s,
      influxql.Fields stmt = pre ++ influxql.mkField (influxql.Call "top" args) alias :: post ->
      compileFields pre (started stmt) = (Ok tt, s) ->
      Compile stmt = Err "unimplemented")
  /\ (forall name,
         Compile stmt
         <> Err ("selector function " +:+ name +:+ "() cannot be combined with other functions")).
Proof.
  split.
  - intros pre args alias post s Hf E.
    apply (Compile_fields_Err _ _ s). rewrite Hf, compileFields_app.
    unfold bind at 1. rewrite E. reflexivity.
  - intros name H. destruct (Compile_Err_cases _ _ H) as [Hx | (s & s' & E & Hl)].
    + exact (exprError_not_topBottom _ name Hx eq_refl).
    + destruct (linkAuxiliaryFields_errors _ _ _ Hl)
        as [(Hm & _) | [(Hm & _) | (Hm & _)]]; discriminate.
Qed.

Lemma C3_top_unimplemented_witness :
  Compile (select [call1 "max" "y"; top_x_3; ref "z"]) = Err "unimplemented".
Proof.
  destruct (C3_top_unimplemented (select [call1 "max" "y"; top_x_3; ref "z"])) as [H _].
  apply (H [field (call1 "max" "y")]
           [ref "x"; influxql.Lit (influxql.IntegerLiteral 3)] "" [field (ref "z")]
           (compileFields [field (call1 "max" "y")]
                          (started (select [call1 "max" "y"; top_x_3; ref "z"]))).2).
  - reflexivity.
  - vm_compute. reflexivity.
Defined.

(** ** The [OnlySelectors] flag *)

Lemma compileFunction_OnlySelectors name args s :
  OnlySelectors (comp (compileFunction name args s).2)
  = match (compileFunction name args s).1 with
    | Ok _ => OnlySelectors (comp s) && isSelector name
    | _ => OnlySelectors (comp s)
    end.
Proof.
  assert ((exists r, args = [influxql.Ref r]) \/ (forall r, args <> [influxql.Ref r]))
    as [[r ->] | Hno].
  { destruct args as [| [r | | | | |] [| b rest]]; try (right; intros r'; discriminate).
    left. eauto. }
  - pose proof (compileFunction_ref name r s) as H.
    destruct (compileFunction name [influxql.Ref r] s) as [[out | e | p] s']; cbn.
    + destruct H as [-> _]. cbn. apply markFunction_OnlySelectors.
    + contradiction.
    + destruct H as [-> _]. reflexivity.
  - destruct (compileFunction_rejects name args s Hno) as [msg ->]. reflexivity.
Qed.

Lemma extends_OnlySelectors_false s s' :
  extends s s' -> OnlySelectors (comp s) = false -> OnlySelectors (comp s') = false.
Proof. intros [_ _ _ _ (added & _ & _ & -> & _)] ->. reflexivity. Qed.

Lemma reached_no_aggregate stmt s :
  reached stmt s ->
  OnlySelectors (comp s) = true
  <-> (forall name, In name (compiledFunctions s) -> isAggregate name = false).
Proof.
  intros R. rewrite (reached_OnlySelectors _ _ R), forallb_forall.
  pose proof (reached_supported _ _ R) as Hs. rewrite forallb_forall in Hs.
  split; intros H name Hin; specialize (H name Hin); specialize (Hs name Hin);
    rewrite (supported_selector_or_aggregate _ Hs) in *;
    destruct (isAggregate name); auto; discriminate.
Qed.

Lemma Compile_Ok_state stmt s : Compile stmt = Ok s -> s = (runCompile stmt).2.
Proof.
  unfold Compile. destruct (runCompile stmt) as [[[] | e | p] s']; try discriminate.
  intros [= ->]. reflexivity.
Qed.

(** C8: [OnlySelectors] starts true; a call [compileFunction] compiles
    clears it exactly when its name is outside [top], [bottom], [max], [min],
    [first], [last], [percentile], [sample], and a call it turns down leaves
    it as it is; after [Compile], successful or not, it is true if and only if
    no compiled function is [count], [sum] or [mean]; and once it is false no
    operation of the compiler makes it true again. *)
Theorem C8_OnlySelectors_flag :
  (forall stmt, OnlySelectors (comp (newCompiler stmt)) = true)
  /\ (forall name args s,
         OnlySelectors (comp (compileFunction name args s).2)
         = match (compileFunction name args s).1 with
           | Ok _ =>
               OnlySelectors (comp s)
               && oneOf name ["top"; "bottom"; "max"; "min"; "first"; "last";
                              "percentile"; "sample"]
           | _ => OnlySelectors (comp s)
           end)
  /\ (forall stmt,
         OnlySelectors (comp (runCompile stmt).2) = true
         <-> (forall name, In name (compiledFunctions (runCompile stmt).2) ->
                           oneOf name ["count"; "sum"; "mean"] = false))
  /\ (forall stmt s, Compile stmt = Ok s ->
         (OnlySelectors (comp s) = true
          <-> (forall name, In name (compiledFunctions s) ->
                            oneOf name ["count"; "sum"; "mean"] = false)))
  /\ (forall s, OnlySelectors (comp s) = false ->
         (forall name args, OnlySelectors (comp (compileFunction name args s).2) = false)
         /\ (forall expr, OnlySelectors (comp (compileExpr expr s).2) = false)
         /\ (forall fields, OnlySelectors (comp (compileFields fields s).2) = false)
         /\ OnlySelectors (comp (linkAuxiliaryFields s).2) = false
         /\ OnlySelectors (comp (validateFields s).2) = false).
Proof.
  split; [reflexivity |].
  split; [exact compileFunction_OnlySelectors |].
  split; [intros stmt; apply (reached_no_aggregate stmt), reached_runCompile |].
  split.
  { intros stmt s H. rewrite (Compile_Ok_state _ _ H).
    apply (reached_no_aggregate stmt), reached_runCompile. }
  intros s Hs. repeat split.
  - intros name args. rewrite compileFunction_OnlySelectors, Hs.
    destruct (compileFunction name args s).1; reflexivity.
  - intros expr. exact (extends_OnlySelectors_false _ _ (extends_compileExpr expr s) Hs).
  - intros fields. exact (extends_OnlySelectors_false _ _ (extends_compileFields fields s) Hs).
  - destruct (keeps_linkAuxiliaryFields s) as [-> _]. exact Hs.
  - rewrite validateFields_state. exact Hs.
Qed.

Lemma C8_OnlySelectors_flag_witness :
  OnlySelectors (comp (runCompile (select [call1 "max" "x"; call1 "first" "y"])).2) = true
  /\ OnlySelectors (comp (compileExpr (call1 "max" "x")
                            (compileExpr (call1 "mean" "y") (started (select []))).2).2)
     = false.
Proof.
  destruct C8_OnlySelectors_flag as (_ & _ & Hr & _ & Hm).
  split.
  - apply (proj2 (Hr (select [call1 "max" "x"; call1 "first" "y"]))).
    vm_compute. intros name [<- | [<- | []]]; reflexivity.
  - apply Hm. vm_compute. reflexivity.
Defined.

(** ** The top/bottom bookkeeping is never reached *)

(** C9: through [Compile] the [TopBottomFunction] field stays the empty
    string: the dispatcher of [compileExpr] answers "unimplemented" to [top]
    and [bottom] without calling [compileFunction], no expression changes the
    field, it is empty after any number of fields and in the state [Compile]
    stops in, and so [validateFields], run after the fields compiled and the
    auxiliary fields were linked, always returns no error. *)
Theorem C9_top_bottom_never_tracked :
  (forall name args s, In name ["top"; "bottom"] ->
      compileExpr (influxql.Call name args) s = (Err "unimplemented", s))
  /\ (forall expr s,
         TopBottomFunction (comp (compileExpr expr s).2) = TopBottomFunction (comp s))
  /\ (forall stmt fields,
         TopBottomFunction (comp (compileFields fields (started stmt)).2) = "")
  /\ (forall stmt, TopBottomFunction (comp (runCompile stmt).2) = "")
  /\ (forall stmt s s1,
         compileFields (influxql.Fields stmt) (started stmt) = (Ok tt, s) ->
         linkAuxiliaryFields s = (Ok tt, s1) ->
         validateFields s1 = (Ok tt, s1)).
Proof.
  split.
  { intros name args s [<- | [<- | []]]; reflexivity. }
  split; [intros expr s; apply (ext_TopBottom _ _ (extends_compileExpr expr s)) |].
  split; [intros stmt fields; apply (reached_TopBottom stmt), reached_fields |].
  split; [intros stmt; apply (reached_TopBottom stmt), reached_runCompile |].
  intros stmt s s1 E El. apply validateFields_ok.
  pose proof (keeps_linkAuxiliaryFields s) as [Hc _]. rewrite El in Hc. cbn in Hc.
  rewrite Hc. pose proof (reached_fields stmt (influxql.Fields stmt)) as R.
  rewrite E in R. apply R.
Qed.

Lemma C9_top_bottom_never_tracked_witness :
  compileExpr (influxql.Call "bottom" [ref "x"]) (started (select []))
  = (Err "unimplemented", started (select []))
  /\ validateFields (runCompile (select [call1 "max" "x"; call1 "min" "y"])).2
     = (Ok tt, (runCompile (select [call1 "max" "x"; call1 "min" "y"])).2).
Proof.
  destruct C9_top_bottom_never_tracked as (Hd & _ & _ & _ & Hv).
  split.
  - apply Hd. cbn. auto.
  - apply (Hv (select [call1 "max" "x"; call1 "min" "y"])
              (compileFields (influxql.Fields (select [call1 "max" "x"; call1 "min" "y"]))
                             (started (select [call1 "max" "x"; call1 "min" "y"]))).2);
      vm_compute; reflexivity.
Defined.

(** ** [Select] *)

Lemma targets_fold_AddTarget edges plan :
  targets (fold_left AddTarget edges plan) = targets plan ++ edges.
Proof.
  revert plan. induction edges as [| e rest IH]; intros plan; cbn.
  - symmetry. apply app_nil_r.
  - rewrite IH. cbn. rewrite <- app_assoc. reflexivity.
Qed.

Lemma compileFields_OutputEdges fields s s' :
  compileFields fields s = (Ok tt, s') ->
  exists edges, OutputEdges (comp s') = OutputEdges (comp s) ++ edges
                /\ Forall2 edgeOf (List.filter nonTime fields) edges.
Proof.
  revert s. induction fields as [| f rest IH]; intros s.
  - intros [= <-]. exists []. split; [symmetry; apply app_nil_r | constructor].
  - rewrite compileFields_cons. cbn [List.filter]. unfold nonTime at 1.
    destruct (isTimeRef (influxql.FieldExpr f)); cbn [negb]; [apply IH |].
    unfold bind at 1. pose proof (compileExpr_OutputEdges (influxql.FieldExpr f) s) as Ho.
    destruct (compileExpr (influxql.FieldExpr f) s) as [[out | e | p] s1] eqn:E;
      try discriminate.
    unfold bind. cbn [modc]. intros H.
    destruct (IH _ H) as (edges & Hout & Hall). cbn in Hout, Ho.
    exists (out :: edges). split.
    + rewrite Hout, Ho, <- app_assoc. reflexivity.
    + constructor; [| exact Hall]. exists s, s1. exact E.
Qed.

(** ** Binary expressions *)

Lemma omap_alter_stable {B} (g : Node -> option B) (f : Node -> Node) (p : nat) (l : list Node) :
  (forall n, g (f n) = g n) -> omap g (alter f p l) = omap g l.
Proof.
  intros Hf. revert p. induction l as [| n l IH]; intros [| p]; cbn; auto.
  - rewrite Hf. reflexivity.
  - specialize (IH p). cbn in IH. rewrite IH. reflexivity.
Qed.

Lemma lookupAux_app_Some r fields more e :
  lookupAux r fields = Some e -> lookupAux r (fields ++ more) = Some e.
Proof.
  induction fields as [| [r' e'] rest IH]; cbn; [discriminate |].
  destruct (decide (r' = r)); auto.
Qed.

Lemma lookupAux_app_None r fields e :
  lookupAux r fields = None -> lookupAux r (fields ++ [(r, e)]) = Some e.
Proof.
  induction fields as [| [r' e'] rest IH]; cbn.
  - intros _. destruct (decide (r = r)); [reflexivity | contradiction].
  - destruct (decide (r' = r)); [discriminate | exact IH].
Qed.

Lemma lookupAux_valid g r fields e :
  validAux g fields -> lookupAux r fields = Some e -> e < length (outs g).
Proof.
  induction 1 as [| [r' e'] rest Hp _ IH]; cbn; [discriminate |].
  destruct (decide (r' = r)); [intros [= <-]; exact Hp | exact IH].
Qed.

(** [Iterator] on the shared node: the edge it returns is the one the node
    has for [r] afterwards, and the edges of other references stay. *)
Lemma Iterator_spec x r s fields os i o :
  nodes (graph s) !! x = Some (AuxiliaryFieldsNode fields os i o) ->
  validAux (graph s) fields ->
  exists e s' fields' os',
    Iterator x r s = (Ok e, s')
    /\ comp s' = comp s
    /\ nodes (graph s') !! x = Some (AuxiliaryFieldsNode fields' os' i o)
    /\ validAux (graph s') fields'
    /\ lookupAux r fields' = Some e
    /\ (forall r' e', lookupAux r' fields = Some e' -> lookupAux r' fields' = Some e')
    /\ binaryExprs s' = binaryExprs s.
Proof.
  intros Hn Hv. unfold Iterator, bind. cbn [getg]. rewrite Hn.
  destruct (lookupAux r fields) as [e |] eqn:L.
  - exists e, s, fields, os. cbn. auto 10.
  - eexists _, _, (fields ++ [(r, length (outs (graph s)))]), (os ++ [length (ins (graph s))]).
    cbn. split; [reflexivity |]. cbn. split; [reflexivity |].
    split; [rewrite list_lookup_alter_eq, Hn; reflexivity |].
    split.
    { unfold validAux in *. cbn. rewrite length_app. cbn. apply Forall_app. split.
      - eapply Forall_impl; [exact Hv |]. cbn. intros; lia.
      - constructor; [cbn; lia | constructor]. }
    split; [apply lookupAux_app_None, L |].
    split; [intros r' e' H; apply lookupAux_app_Some, H |].
    unfold binaryExprs. cbn. apply omap_alter_stable. intros []; reflexivity.
Qed.

Lemma compileExpr_Ref_spec r s :
  wf s ->
  exists e s',
    compileExpr (influxql.Ref r) s = (Ok e, s')
    /\ wf s'
    /\ auxEdge s' r = Some e
    /\ e < length (outs (graph s'))
    /\ (forall r' e', auxEdge s r' = Some e' -> auxEdge s' r' = Some e')
    /\ binaryExprs s' = binaryExprs s.
Proof.
  intros Hwf. rewrite compileExpr_Ref. unfold bind at 1. cbn [getc].
  unfold bind at 1. unfold theAuxiliaryFields.
  destruct (AuxiliaryFields (comp s)) as [x |] eqn:Ha.
  - cbn [ret]. destruct (Hwf x Ha) as (fields & os & i & o & Hn & Hv).
    destruct (Iterator_spec x r s fields os i o Hn Hv)
      as (e & s' & fields' & os' & E & Hc & Hn' & Hv' & Hl & Hkeep & Hb).
    exists e, s'. split; [exact E |].
    split. { intros a. rewrite Hc, Ha. intros [= <-]. eauto 10. }
    split. { unfold auxEdge. rewrite Hc, Ha, Hn'. exact Hl. }
    split. { eapply lookupAux_valid; [exact Hv' | exact Hl]. }
    split; [| exact Hb].
    intros r' e'. unfold auxEdge. rewrite Hc, Ha, Hn, Hn'. apply Hkeep.
  - cbn [new getg modg bind ret modc comp graph].
    match goal with |- context [Iterator ?x r ?s1] =>
      destruct (Iterator_spec x r s1 [] [] None None)
        as (e & s' & fields' & os' & E & Hc & Hn' & Hv' & Hl & Hkeep & Hb) end.
    { cbn. apply list_lookup_middle. reflexivity. }
    { constructor. }
    exists e, s'. split; [exact E |]. cbn in Hc.
    split. { intros a. rewrite Hc. cbn. intros [= <-]. eauto 10. }
    split. { unfold auxEdge. rewrite Hc. cbn. rewrite Hn'. exact Hl. }
    split. { eapply lookupAux_valid; [exact Hv' | exact Hl]. }
    split. { intros r' e'. unfold auxEdge. rewrite Ha. discriminate. }
    rewrite Hb. unfold binaryExprs. cbn. rewrite omap_app. cbn. apply app_nil_r.
Qed.

Lemma auxEdge_kept s s' r e :
  auxEdge s r = Some e ->
  comp s' = comp s ->
  (forall x nd, nodes (graph s) !! x = Some nd -> nodes (graph s') !! x = Some nd) ->
  auxEdge s' r = Some e.
Proof.
  unfold auxEdge. intros H -> Hn.
  destruct (AuxiliaryFields (comp s)) as [x |]; [| discriminate].
  destruct (nodes (graph s) !! x) as [nd |] eqn:Hx; [| discriminate].
  rewrite (Hn _ _ Hx). exact H.
Qed.

Lemma oNode_after_patch (n ea eb e : nat) (l : list OutputEdge) :
  e = ea \/ e = eb -> e < length l ->
  oNode <$> alter (fun o => mkOutputEdge (Some n) (oInput o)) eb
              (alter (fun o => mkOutputEdge (Some n) (oInput o)) ea l) !! e
  = Some (Some n).
Proof.
  intros He Hlt. destruct (lookup_lt_is_Some_2 l e Hlt) as [x Hx].
  destruct (decide (eb = e)) as [-> | Hne].
  - rewrite list_lookup_alter_eq, list_lookup_alter.
    case_decide; subst; rewrite Hx; reflexivity.
  - rewrite list_lookup_alter_ne by exact Hne.
    destruct He as [-> | ->]; [| contradiction].
    rewrite list_lookup_alter_eq, Hx. reflexivity.
Qed.

(** ** Every store the compiler builds is well typed *)

#[local] Instance keepsWf_preorder : PreOrder keepsWf.
Proof. split; unfold keepsWf; [intros s; auto | intros a b c; auto]. Qed.

Create HintDb wfdb.

Lemma wf_new n : step keepsWf (new n).
Proof.
  intros s Hwf a Ha. destruct (Hwf a Ha) as (fields & os & i & o & Hn & Hv).
  exists fields, os, i, o. split; [| exact Hv]. cbn. apply lookup_app_l_Some, Hn.
Qed.

Lemma wf_setNode p f : keepsAux f -> step keepsWf (setNode p f).
Proof.
  intros Hf s Hwf a Ha. destruct (Hwf a Ha) as (fields & os & i & o & Hn & Hv).
  cbn. rewrite list_lookup_alter. case_decide; subst.
  - rewrite Hn. cbn. destruct (Hf fields os i o) as (os' & i' & o' & ->). eauto 10.
  - eauto 10.
Qed.

Lemma keepsAux_withOutput e : keepsAux (withOutput e).
Proof. intros fields os i o. cbn. eauto. Qed.

Lemma keepsAux_withInput e : keepsAux (withInput e).
Proof. intros fields os i o. cbn. eauto. Qed.

Lemma wf_setOutputEdgeNode e n : step keepsWf (setOutputEdgeNode e n).
Proof.
  intros s Hwf a Ha. destruct (Hwf a Ha) as (fields & os & i & o & Hn & Hv).
  exists fields, os, i, o. split; [exact Hn |].
  unfold validAux in *. cbn. rewrite length_alter. exact Hv.
Qed.

Lemma validAux_grow (g g' : Graph) fields :
  length (outs g) <= length (outs g') -> validAux g fields -> validAux g' fields.
Proof.
  intros Hle Hv. eapply Forall_impl; [exact Hv |]. cbn. intros; lia.
Qed.

Lemma wf_NewEdge n : step keepsWf (NewEdge n).
Proof.
  intros s Hwf a Ha. destruct (Hwf a Ha) as (fields & os & i & o & Hn & Hv).
  exists fields, os, i, o. split; [exact Hn |].
  eapply validAux_grow; [| exact Hv]. cbn. rewrite length_app. lia.
Qed.

Lemma wf_AddEdge a b : step keepsWf (AddEdge a b).
Proof.
  intros s Hwf x Hx. destruct (Hwf x Hx) as (fields & os & i & o & Hn & Hv).
  exists fields, os, i, o. split; [exact Hn |].
  eapply validAux_grow; [| exact Hv]. cbn. rewrite length_app. lia.
Qed.

Lemma wf_modc g :
  (forall c, AuxiliaryFields (g c) = AuxiliaryFields c) -> step keepsWf (modc g).
Proof. intros Hg s Hwf a Ha. cbn in Ha. rewrite Hg in Ha. exact (Hwf a Ha). Qed.

#[local] Hint Resolve wf_new wf_setOutputEdgeNode wf_NewEdge wf_AddEdge
  keepsAux_withOutput keepsAux_withInput : wfdb.

(** One step through a sequence of store operations. *)
Ltac wf_steps :=
  repeat first
    [ apply step_ret; apply _
    | apply step_fail; apply _
    | apply step_panic; apply _
    | apply step_getc; apply _
    | apply step_getg; apply _
    | apply wf_setNode; solve [auto with wfdb]
    | apply wf_modc; solve [intros; reflexivity]
    | solve [auto with wfdb]
    | apply step_bind; [apply _ | | intros ?]
    | match goal with p : (_ * _)%type |- _ => destruct p end ].

Lemma wf_Merge_AddInput m n : step keepsWf (Merge_AddInput m n).
Proof.
  unfold Merge_AddInput. wf_steps.
  apply wf_setNode. intros fields os i o. eauto.
Qed.

#[local] Hint Resolve wf_Merge_AddInput : wfdb.

Lemma wf_sourceIterators expr merge sources :
  step keepsWf (sourceIterators expr merge sources).
Proof.
  induction sources as [| [m |] rest IH]; cbn; wf_steps.
Qed.

#[local] Hint Resolve wf_sourceIterators : wfdb.

Lemma wf_compileFunction name args : step keepsWf (compileFunction name args).
Proof.
  unfold compileFunction.
  destruct (negb (1 =? length args)%nat); [wf_steps |].
  destruct args as [| a0 rest]; [wf_steps |].
  destruct (String.eqb name "count" && isDistinctCall a0); [wf_steps |].
  destruct a0; wf_steps.
  destruct (oneOf name ["top"; "bottom"]);
    [| destruct (oneOf name ["max"; "min"; "first"; "last"; "percentile"; "sample"])];
    wf_steps.
  apply wf_modc. intros c. destruct (String.eqb (TopBottomFunction c) ""); reflexivity.
Qed.

Lemma wf_compileExpr expr : step keepsWf (compileExpr expr).
Proof.
  induction expr as [r | name args | op l IHl r IHr | | |]; try (apply step_fail; apply _).
  - intros s Hwf. destruct (compileExpr_Ref_spec r s Hwf) as (e & s' & -> & Hwf' & _).
    exact Hwf'.
  - rewrite compileExpr_Call. destruct (isSupported name); [| apply step_fail; apply _].
    apply wf_compileFunction.
  - rewrite compileExpr_BinaryExpr.
    destruct (isLiteral l); [apply step_fail; apply _ |].
    destruct (isLiteral r); [apply step_fail; apply _ |].
    apply step_bind; [apply _ | exact IHl |]. intros lhs.
    apply step_bind; [apply _ | exact IHr |]. intros rhs.
    wf_steps.
Qed.

Lemma wf_compileFields fields : step keepsWf (compileFields fields).
Proof.
  induction fields as [| f rest IH]; [apply step_ret; apply _ |].
  rewrite compileFields_cons.
  destruct (isTimeRef (influxql.FieldExpr f)); [exact IH |].
  apply step_bind; [apply _ | apply wf_compileExpr |]. intros out.
  apply step_bind; [apply _ | apply wf_modc; reflexivity | intros; exact IH].
Qed.

(** The store is well typed in every state the loop over the fields of a
    statement passes through. *)
Lemma wf_reached stmt fields : wf (compileFields fields (started stmt)).2.
Proof.
  apply wf_compileFields. intros a H. cbn in H. discriminate.
Qed.

(** C6: a binary expression with a literal on either side fails with
    "unimplemented", and nothing is built; a binary expression of two plain
    variable references compiles, in any well-typed store, to the output edge
    of one new [BinaryExpr] node that carries the operator of the expression
    and whose two inputs are the output edges the shared [AuxiliaryFields]
    node has for the two variables, both now read by that node. The store is
    well typed in every state the loop of [Compile] over the fields reaches,
    and stays so through every [compileExpr]. *)
Theorem C6_binary_expressions :
  (forall op l r s,
      isLiteral l = true \/ isLiteral r = true ->
      compileExpr (influxql.BinaryExpr op l r) s = (Err "unimplemented", s))
  /\ (forall op a b s,
         wf s ->
         exists out s' node lhs rhs w,
           compileExpr (influxql.BinaryExpr op (influxql.Ref a) (influxql.Ref b)) s
           = (Ok out, s')
           /\ nodes (graph s') !! node = Some (BinaryExpr (Some lhs) (Some rhs) op (Some w))
           /\ ins (graph s') !! w = Some (mkInputEdge (Some node) (Some out))
           /\ outs (graph s') !! out = Some (mkOutputEdge None (Some w))
           /\ auxEdge s' a = Some lhs
           /\ auxEdge s' b = Some rhs
           /\ oNode <$> outs (graph s') !! lhs = Some (Some node)
           /\ oNode <$> outs (graph s') !! rhs = Some (Some node)
           /\ binaryExprs s'
              = binaryExprs s ++ [BinaryExpr (Some lhs) (Some rhs) op (Some w)])
  /\ (forall stmt fields, wf (compileFields fields (started stmt)).2)
  /\ (forall expr s, wf s -> wf (compileExpr expr s).2).
Proof.
  split.
  { intros op l r s H. rewrite compileExpr_BinaryExpr.
    destruct (isLiteral l); [reflexivity |].
    destruct H as [H | ->]; [discriminate | reflexivity]. }
  split; [| split; [exact wf_reached | exact wf_compileExpr]].
  intros op a b s Hwf. rewrite compileExpr_BinaryExpr. cbn [isLiteral].
  destruct (compileExpr_Ref_spec a s Hwf) as (ea & s1 & E1 & Hwf1 & Ha1 & Hlt1 & _ & Hb1).
  destruct (compileExpr_Ref_spec b s1 Hwf1)
    as (eb & s2 & E2 & Hwf2 & Hb2 & Hlt2 & Hkeep & Hbin2).
  specialize (Hkeep _ _ Ha1).
  assert (ea < length (outs (graph s2))) as Hlt1'.
  { unfold auxEdge in Hkeep. destruct (AuxiliaryFields (comp s2)) as [x |] eqn:Hx;
      [| discriminate].
    destruct (Hwf2 x Hx) as (fields & os & i & o & Hn & Hv). rewrite Hn in Hkeep.
    eapply lookupAux_valid; [exact Hv | exact Hkeep]. }
  unfold bind at 1. rewrite E1. unfold bind at 1. rewrite E2.
  cbn. rewrite !length_alter.
  exists (length (outs (graph s2))). eexists.
  exists (length (nodes (graph s2))), ea, eb, (length (ins (graph s2))).
  split; [reflexivity |]. cbn.
  split. { rewrite list_lookup_alter_eq, list_lookup_middle by reflexivity. reflexivity. }
  split. { apply list_lookup_middle. reflexivity. }
  split. { apply list_lookup_middle. rewrite !length_alter. reflexivity. }
  assert (forall x nd, nodes (graph s2) !! x = Some nd ->
            alter (withOutput (length (ins (graph s2)))) (length (nodes (graph s2)))
              (nodes (graph s2) ++ [BinaryExpr (Some ea) (Some eb) op None]) !! x = Some nd)
    as Hnodes.
  { intros x nd Hx. pose proof (lookup_lt_Some _ _ _ Hx) as Hlt.
    rewrite list_lookup_alter_ne by lia. apply lookup_app_l_Some, Hx. }
  split. { eapply auxEdge_kept; [exact Hkeep | reflexivity | exact Hnodes]. }
  split. { eapply auxEdge_kept; [exact Hb2 | reflexivity | exact Hnodes]. }
  split. { rewrite lookup_app_l by (rewrite !length_alter; exact Hlt1').
           apply oNode_after_patch; auto. }
  split. { rewrite lookup_app_l by (rewrite !length_alter; exact Hlt2).
           apply oNode_after_patch; auto. }
  unfold binaryExprs. cbn.
  rewrite alter_app_r_alt by lia. rewrite Nat.sub_diag. cbn.
  rewrite omap_app. cbn. fold (binaryExprs s2). rewrite Hbin2, Hb1. reflexivity.
Qed.

Lemma C6_binary_expressions_witness :
  compileExpr (influxql.BinaryExpr influxql.ADD (ref "a")
                 (influxql.Lit (influxql.IntegerLiteral 1))) (started (select []))
  = (Err "unimplemented", started (select []))
  /\ exists out s',
      compileExpr (influxql.BinaryExpr influxql.ADD (ref "a") (ref "b")) (started (select []))
      = (Ok out, s')
      /\ binaryExprs s' = [BinaryExpr (Some 0) (Some 1) influxql.ADD (Some 2)].
Proof.
  destruct C6_binary_expressions as (Hlit & Hrefs & _).
  split.
  - apply Hlit. right. reflexivity.
  - destruct (Hrefs influxql.ADD (influxql.mkVarRef "a") (influxql.mkVarRef "b")
                    (started (select [])))
      as (out & s' & node & lhs & rhs & w & E & _).
    + intros a H. vm_compute in H. discriminate.
    + exists out, s'. split; [exact E |].
      vm_compute in E. injection E as <- <-. vm_compute. reflexivity.
Defined.

(** * More of the compiler: the graph it builds and the outcomes it has *)

(** ** Store operations only add to the graph *)

#[local] Instance grows_preorder : PreOrder grows.
Proof.
  split.
  - intros s. split; [reflexivity |]. split; [| lia].
    exists []. split; [symmetry; apply app_nil_r | reflexivity].
  - intros a b c (C1 & (k1 & K1 & F1) & L1) (C2 & (k2 & K2 & F2) & L2).
    split; [congruence |]. split; [| lia].
    exists (k1 ++ k2). split.
    + rewrite K2, K1. symmetry. apply app_assoc.
    + rewrite List.filter_app, F1, F2. reflexivity.
Qed.

Lemma map_kindOf_alter (f : Node -> Node) (p : nat) (l : list Node) :
  (forall n, kindOf (f n) = kindOf n) -> map kindOf (alter f p l) = map kindOf l.
Proof.
  intros Hf. revert p. induction l as [| n l IH]; intros [| p]; cbn; auto.
  - rewrite Hf. reflexivity.
  - specialize (IH p). cbn in IH. rewrite IH. reflexivity.
Qed.

Lemma kindOf_withOutput e n : kindOf (withOutput e n) = kindOf n.
Proof. destruct n; reflexivity. Qed.

Lemma kindOf_withInput e n : kindOf (withInput e n) = kindOf n.
Proof. destruct n; reflexivity. Qed.

Lemma grows_same_graph_size s s' :
  comp s' = comp s -> kinds s' = kinds s ->
  length (outs (graph s)) <= length (outs (graph s')) -> grows s s'.
Proof.
  intros Hc Hk Hl. split; [exact Hc |]. split; [| exact Hl].
  exists []. split; [rewrite Hk; symmetry; apply app_nil_r | reflexivity].
Qed.

Lemma grows_setNode p f :
  (forall n, kindOf (f n) = kindOf n) -> step grows (setNode p f).
Proof.
  intros Hf s. apply grows_same_graph_size; cbn; auto.
  unfold kinds. cbn. apply map_kindOf_alter, Hf.
Qed.

Lemma grows_new n : isAuxKind (kindOf n) = false -> step grows (new n).
Proof.
  intros Hn s. split; [reflexivity |]. split; [| cbn; lia].
  exists [kindOf n]. unfold kinds. cbn. rewrite map_app, Hn. auto.
Qed.

Lemma grows_setOutputEdgeNode e n : step grows (setOutputEdgeNode e n).
Proof.
  intros s. apply grows_same_graph_size; cbn; auto. rewrite length_alter. lia.
Qed.

Lemma grows_NewEdge n : step grows (NewEdge n).
Proof.
  intros s. apply grows_same_graph_size; cbn; auto. rewrite length_app. lia.
Qed.

Lemma grows_AddEdge a b : step grows (AddEdge a b).
Proof.
  intros s. apply grows_same_graph_size; cbn; auto. rewrite length_app. lia.
Qed.

Create HintDb growdb.

#[local] Hint Resolve grows_setOutputEdgeNode grows_NewEdge grows_AddEdge
  kindOf_withOutput kindOf_withInput : growdb.

Ltac grow_steps :=
  repeat first
    [ apply step_ret; apply _
    | apply step_fail; apply _
    | apply step_panic; apply _
    | apply step_getc; apply _
    | apply step_getg; apply _
    | apply grows_setNode; solve [auto with growdb]
    | apply grows_new; reflexivity
    | solve [auto with growdb]
    | apply step_bind; [apply _ | | intros ?]
    | match goal with p : (_ * _)%type |- _ => destruct p end ].

Lemma grows_Merge_AddInput m n : step grows (Merge_AddInput m n).
Proof.
  unfold Merge_AddInput. grow_steps. apply grows_setNode. intros []; reflexivity.
Qed.

#[local] Hint Resolve grows_Merge_AddInput : growdb.

Lemma grows_Iterator aux r : step grows (Iterator aux r).
Proof.
  intros s. unfold Iterator, bind. cbn.
  destruct (nodes (graph s) !! aux) as [[] |]; cbn; try reflexivity.
  destruct (lookupAux r Aux); cbn; [reflexivity |].
  apply grows_same_graph_size; cbn; auto.
  - unfold kinds. cbn. apply map_kindOf_alter. intros []; reflexivity.
  - rewrite length_app. lia.
Qed.

Lemma grows_Insert e n : step grows (Insert e n).
Proof.
  intros s. unfold Insert, bind. cbn.
  destruct (outs (graph s) !! e); cbn; [| reflexivity].
  apply grows_same_graph_size; cbn; auto.
  rewrite length_app, length_alter. lia.
Qed.

Lemma grows_sourceIterators expr merge sources :
  step grows (sourceIterators expr merge sources).
Proof.
  induction sources as [| [m |] rest IH]; cbn; grow_steps.
Qed.

#[local] Hint Resolve grows_Iterator grows_Insert grows_sourceIterators : growdb.

Lemma grows_linkAuxiliaryFields : step grows linkAuxiliaryFields.
Proof.
  unfold linkAuxiliaryFields.
  apply step_bind; [apply _ | apply step_getc; apply _ |]. intros c.
  destruct (AuxiliaryFields c) as [aux |].
  - destruct (negb (OnlySelectors c)); [apply step_fail; apply _ |].
    destruct (1 <? length (FunctionCalls c))%nat; [apply step_fail; apply _ |].
    destruct (FunctionCalls c) as [| call [| ? ?]]; grow_steps.
  - destruct (length (FunctionCalls c) =? 0)%nat; grow_steps.
Qed.

(** ** One [IteratorCreator] per source *)

Lemma measurements_Forall sources :
  Forall isMeasurement sources -> exists names, sources = measurements names.
Proof.
  induction 1 as [| [m |] rest Hm _ (names & ->)].
  - exists []. reflexivity.
  - exists (m :: names). reflexivity.
  - destruct Hm.
Qed.

Lemma Forall_measurements names : Forall isMeasurement (measurements names).
Proof. induction names; constructor; [exact I | assumption]. Qed.

Lemma isMeasurement_dec sources :
  Forall isMeasurement sources \/ ~ Forall isMeasurement sources.
Proof.
  induction sources as [| [m |] rest [IH | IH]].
  - left. constructor.
  - left. constructor; [exact I | exact IH].
  - right. intros H. apply IH. inversion H. assumption.
  - right. intros H. inversion H as [| ? ? Hm _]. destruct Hm.
  - right. intros H. inversion H as [| ? ? Hm _]. destruct Hm.
Qed.

(** Over measurements the loop never stops early: [merge] gets one more
    input, and the graph one [IteratorCreator], per source, in order. *)
Lemma sourceIterators_spec names expr m s inputs o :
  nodes (graph s) !! m = Some (Merge inputs o) ->
  exists s' added,
    sourceIterators expr m (measurements names) s = (Ok tt, s')
    /\ comp s' = comp s
    /\ kinds s' = kinds s ++ map (KIteratorCreator expr) names
    /\ nodes (graph s') !! m = Some (Merge (inputs ++ added) o)
    /\ length added = length names
    /\ length (outs (graph s')) = length (outs (graph s)) + length names.
Proof.
  revert s inputs. induction names as [| name rest IH]; intros s inputs Hm.
  - exists s, []. cbn. rewrite !app_nil_r. repeat split; auto; lia.
  - pose proof (lookup_lt_Some _ _ _ Hm) as Hlt.
    assert (exists s1,
               sourceIterators expr m (measurements (name :: rest)) s
               = sourceIterators expr m (measurements rest) s1
               /\ comp s1 = comp s
               /\ nodes (graph s1)
                  = alter (withOutput (length (ins (graph s)))) (length (nodes (graph s)))
                      (alter (fun n => match n with
                                       | Merge i out => Merge (i ++ [length (outs (graph s))]) out
                                       | _ => n
                                       end) m
                         (nodes (graph s) ++ [IteratorCreator expr name None]))
               /\ length (outs (graph s1)) = S (length (outs (graph s))))
      as (s1 & -> & Hc1 & Hn1 & Ho1).
    { cbn. unfold bind. cbn. eexists. split; [reflexivity |]. cbn.
      rewrite length_app. cbn. repeat split; auto; lia. }
    destruct (IH s1 (inputs ++ [length (outs (graph s))]))
      as (s' & added & E & Hc & Hk & Hn & Hl & Ho).
    { rewrite Hn1. rewrite list_lookup_alter_ne by lia.
      rewrite list_lookup_alter_eq. rewrite (lookup_app_l_Some _ _ _ _ Hm). reflexivity. }
    exists s', (length (outs (graph s)) :: added).
    split; [exact E |]. split; [congruence |].
    split.
    { rewrite Hk. unfold kinds. rewrite Hn1.
      rewrite !map_kindOf_alter by (intros []; reflexivity).
      rewrite map_app. cbn. rewrite <- app_assoc. reflexivity. }
    split; [rewrite Hn, <- app_assoc; reflexivity |].
    split; [cbn; lia |].
    rewrite Ho, Ho1. cbn. lia.
Qed.

(** A source that is not a measurement stops the loop with a panic. *)
Lemma sourceIterators_panic expr m sources s :
  ~ Forall isMeasurement sources ->
  exists s', sourceIterators expr m sources s = (Panic "unimplemented", s').
Proof.
  revert s. induction sources as [| [name |] rest IH]; intros s Hn.
  - exfalso. apply Hn. constructor.
  - cbn. unfold bind. cbn. apply IH. intros H. apply Hn. constructor; [exact I | exact H].
  - eexists. reflexivity.
Qed.

(** ** The subgraph of a function call *)

Lemma markFunction_frame name c :
  Sources (markFunction name c) = Sources c
  /\ Distinct (markFunction name c) = Distinct c
  /\ AuxiliaryFields (markFunction name c) = AuxiliaryFields c
  /\ FunctionCalls (markFunction name c) = FunctionCalls c
  /\ OutputEdges (markFunction name c) = OutputEdges c.
Proof.
  unfold markFunction.
  destruct (oneOf name ["top"; "bottom"]);
    [destruct (String.eqb (TopBottomFunction c) "") |
     destruct (oneOf name ["max"; "min"; "first"; "last"; "percentile"; "sample"])];
    auto.
Qed.

(** Over measurements, [compileFunction] on a variable reference builds the
    chain merge, function call, output edge, with one [IteratorCreator] per
    source feeding the merge. *)
Lemma compileFunction_spec name r s names :
  Sources (comp s) = measurements names ->
  exists out s' inputs w ci co,
    compileFunction name [influxql.Ref r] s = (Ok out, s')
    /\ comp s'
       = set_FunctionCalls (FunctionCalls (comp s) ++ [out]) (markFunction name (comp s))
    /\ kinds s'
       = kinds s ++ KMerge :: map (KIteratorCreator (Some r)) names ++ [KFunctionCall name]
    /\ nodes (graph s') !! length (nodes (graph s)) = Some (Merge inputs (Some w))
    /\ length inputs = length names
    /\ nodes (graph s') !! (length (nodes (graph s)) + S (length names))
       = Some (FunctionCall name (Some ci) (Some co))
    /\ ins (graph s') !! w
       = Some (mkInputEdge (Some (length (nodes (graph s)))) (Some ci))
    /\ ins (graph s') !! co
       = Some (mkInputEdge (Some (length (nodes (graph s)) + S (length names))) (Some out))
    /\ outs (graph s') !! out = Some (mkOutputEdge None (Some co))
    /\ length (outs (graph s')) = length (outs (graph s)) + length names + 2.
Proof.
  intros Hsrc. unfold compileFunction. cbn [length Nat.eqb negb isDistinctCall].
  rewrite andb_false_r.
  unfold bind at 1. cbn [new getg modg bind ret].
  unfold bind at 1. cbn [getc comp].
  unfold bind at 1. rewrite Hsrc.
  match goal with |- context [sourceIterators ?e ?m ?l ?s1] =>
    destruct (sourceIterators_spec names e m s1 [] None)
      as (s2 & inputs & E & Hc & Hk & Hn & Hl & Ho) end.
  { cbn. apply list_lookup_middle. reflexivity. }
  rewrite E. cbn in Hc, Ho.
  assert (length (nodes (graph s2)) = length (nodes (graph s)) + S (length names)) as Hlen.
  { pose proof (f_equal (@length _) Hk) as Hlk. unfold kinds in Hlk. cbn in Hlk.
    rewrite !length_map, !length_app, !length_map, length_app in Hlk. cbn in Hlk. lia. }
  pose proof (lookup_lt_Some _ _ _ Hn) as Hlt.
  exists (length (outs (graph s2)) + 1).
  unfold markFunction.
  destruct (oneOf name ["top"; "bottom"]);
    [| destruct (oneOf name ["max"; "min"; "first"; "last"; "percentile"; "sample"])];
    cbn; rewrite ?length_app; cbn;
    eexists _, inputs, (length (ins (graph s2))), (length (outs (graph s2))),
            (length (ins (graph s2)) + 1);
    (split; [reflexivity |]); cbn; rewrite Hc;
    (split; [try destruct (String.eqb (TopBottomFunction (comp s)) ""); reflexivity |]);
    (split; [unfold kinds in *; cbn;
             rewrite !map_kindOf_alter
               by (intros; first [apply kindOf_withOutput | apply kindOf_withInput]);
             rewrite map_app, Hk; cbn; rewrite map_app; cbn;
             rewrite <- !app_assoc; reflexivity |]);
    (split; [rewrite !list_lookup_alter_ne by lia;
             rewrite list_lookup_alter_eq, (lookup_app_l_Some _ _ _ _ Hn); reflexivity |]);
    (split; [exact Hl |]);
    rewrite <- Hlen;
    (split; [rewrite !list_lookup_alter_eq;
             rewrite list_lookup_alter_ne by lia;
             rewrite list_lookup_middle by reflexivity; reflexivity |]);
    (split; [apply lookup_app_l_Some, list_lookup_middle; reflexivity |]);
    (split; [apply list_lookup_middle; rewrite length_app; cbn; lia |]);
    (split; [apply list_lookup_middle; rewrite length_app; cbn; lia |]);
    rewrite !length_app, Ho; cbn; lia.
Qed.

Lemma compileFunction_panic name r s :
  ~ Forall isMeasurement (Sources (comp s)) ->
  exists s', compileFunction name [influxql.Ref r] s = (Panic "unimplemented", s')
             /\ grows s s'.
Proof.
  intros Hn. unfold compileFunction. cbn [length Nat.eqb negb isDistinctCall].
  rewrite andb_false_r.
  unfold bind at 1. cbn [new getg modg bind ret].
  unfold bind at 1. cbn [getc comp].
  unfold bind at 1.
  match goal with |- context [sourceIterators ?e ?m ?l ?s1] =>
    destruct (sourceIterators_panic e m l s1 Hn) as [s' E];
    pose proof (grows_sourceIterators e m l s1) as Hg;
    pose proof (grows_new (Merge [] None) eq_refl s) as Hg0 end.
  rewrite E in Hg |- *. exists s'. split; [reflexivity |].
  etransitivity; [exact Hg0 | exact Hg].
Qed.

(** ** What every step builds *)

#[local] Instance builds_preorder : PreOrder builds.
Proof.
  split.
  - intros s. split; auto; try lia. exists []. symmetry. apply app_nil_r.
  - intros a b c [S1 D1 O1 [k1 K1] A1 C1 M1] [S2 D2 O2 [k2 K2] A2 C2 M2].
    split; try congruence; auto; try lia.
    + exists (k1 ++ k2). rewrite K2, K1. symmetry. apply app_assoc.
    + intros Hlt.
      destruct (Nat.lt_ge_cases (length (FunctionCalls (comp a)))
                                (length (FunctionCalls (comp b)))) as [H | H].
      * apply M1, H.
      * rewrite <- S1. apply M2. lia.
Qed.

Lemma grows_builds s s' : grows s s' -> builds s s'.
Proof.
  intros (Hc & (added & Hk & Hf) & Hl).
  split; try (rewrite Hc; auto); auto.
  - eauto.
  - unfold oneAux, auxNodes. rewrite Hc, Hk, List.filter_app, Hf, app_nil_r. auto.
  - unfold callsValid. rewrite Hc. intros H. eapply Forall_impl; [exact H |].
    cbn. intros; lia.
  - lia.
Qed.

Lemma builds_compileFunction name args : step builds (compileFunction name args).
Proof.
  intros s.
  assert ((exists r, args = [influxql.Ref r]) \/ (forall r, args <> [influxql.Ref r]))
    as [[r ->] | Hno].
  { destruct args as [| [r | | | | |] [| b rest]]; try (right; intros r'; discriminate).
    left. eauto. }
  - destruct (isMeasurement_dec (Sources (comp s))) as [Hm | Hm].
    + destruct (measurements_Forall _ Hm) as [names Hsrc].
      destruct (compileFunction_spec name r s names Hsrc)
        as (out & s' & inputs & w & ci & co & -> & Hc & Hk & _ & _ & _ & _ & _ & Ho & Hl).
      cbn. destruct (markFunction_frame name (comp s)) as (Fs & Fd & Fa & Ff & _).
      split; try (rewrite Hc; cbn; assumption).
      * lia.
      * eauto.
      * unfold oneAux, auxNodes. rewrite Hc, Hk. cbn. rewrite Fa.
        rewrite List.filter_app. cbn. rewrite List.filter_app. cbn.
        assert (List.filter isAuxKind (map (KIteratorCreator (Some r)) names) = []) as ->.
        { clear. induction names; cbn; auto. }
        cbn. rewrite app_nil_r. auto.
      * unfold callsValid. rewrite Hc. cbn. intros H.
        apply Forall_app. split.
        -- eapply Forall_impl; [exact H |]. cbn. intros; lia.
        -- constructor; [| constructor]. eapply lookup_lt_Some. exact Ho.
      * intros _. exact Hm.
    + destruct (compileFunction_panic name r s Hm) as (s' & -> & Hg).
      apply grows_builds, Hg.
  - destruct (compileFunction_rejects name args s Hno) as [msg ->]. cbn. reflexivity.
Qed.

Lemma builds_theAuxiliaryFields s :
  builds s (theAuxiliaryFields (comp s) s).2.
Proof.
  unfold theAuxiliaryFields.
  destruct (AuxiliaryFields (comp s)) as [a |] eqn:E; [cbn; reflexivity |].
  cbn. split; cbn; auto.
  - exists [KAuxiliaryFields]. unfold kinds. cbn. apply map_app.
  - unfold oneAux, auxNodes, kinds. cbn. rewrite E, map_app, List.filter_app, length_app.
    cbn. lia.
  - lia.
Qed.

Lemma builds_compileExpr expr : step builds (compileExpr expr).
Proof.
  induction expr as [r | name args | op l IHl r IHr | | |];
    try (apply step_fail; apply _).
  - intros s. rewrite compileExpr_Ref.
    apply bind_at; [apply _ | cbn; reflexivity |].
    intros c s1 [= <- <-].
    apply bind_at; [apply _ | apply builds_theAuxiliaryFields |].
    intros a' s1' E'. apply grows_builds, grows_Iterator.
  - rewrite compileExpr_Call. destruct (isSupported name).
    + apply builds_compileFunction.
    + apply step_fail; apply _.
  - rewrite compileExpr_BinaryExpr. destruct (isLiteral l); [apply step_fail; apply _ |].
    destruct (isLiteral r); [apply step_fail; apply _ |].
    apply step_bind; [apply _ | exact IHl |]. intros lhs.
    apply step_bind; [apply _ | exact IHr |]. intros rhs.
    apply (step_weaken grows); [apply grows_builds |].
    grow_steps.
Qed.

Lemma builds_compileFields fields : step builds (compileFields fields).
Proof.
  induction fields as [| f rest IH]; [apply step_ret; apply _ |].
  rewrite compileFields_cons.
  destruct (isTimeRef (influxql.FieldExpr f)); [exact IH |].
  apply step_bind; [apply _ | apply builds_compileExpr |]. intros out.
  apply step_bind; [apply _ | | intros; exact IH].
  intros s. split; cbn; auto; try lia. exists []. symmetry. apply app_nil_r.
Qed.

Lemma builds_runCompile stmt : builds (started stmt) (runCompile stmt).2.
Proof.
  rewrite runCompile_started. generalize (started stmt).
  apply step_bind; [apply _ | apply builds_compileFields |]. intros _.
  apply step_bind; [apply _ | |].
  - apply (step_weaken grows); [apply grows_builds | apply grows_linkAuxiliaryFields].
  - intros _ s. rewrite validateFields_state. reflexivity.
Qed.

(** ** The first error ends the compile *)

(** X1: [Compile] stops at the first field that fails to compile and returns
    that field's error: the fields after it are never looked at, the auxiliary
    fields are not linked, and the compiler is left as that field left it. *)
Theorem X1_first_error_ends_compile
        (stmt : influxql.SelectStatement) (pre post : list influxql.Field)
        (f : influxql.Field) (s s' : State) (msg : string) :
  influxql.Fields stmt = pre ++ f :: post ->
  compileFields pre (started stmt) = (Ok tt, s) ->
  isTimeRef (influxql.FieldExpr f) = false ->
  compileExpr (influxql.FieldExpr f) s = (Err msg, s') ->
  Compile stmt = Err msg /\ (runCompile stmt).2 = s'.
Proof.
  intros Hf Hpre Ht He.
  assert (compileFields (influxql.Fields stmt) (started stmt) = (Err msg, s')) as E.
  { rewrite Hf, compileFields_app. unfold bind at 1. rewrite Hpre.
    rewrite compileFields_cons, Ht. unfold bind at 1. rewrite He. reflexivity. }
  split; [exact (Compile_fields_Err _ _ _ E) |].
  rewrite runCompile_started. unfold bind at 1. rewrite E. reflexivity.
Qed.

Lemma X1_first_error_ends_compile_witness :
  Compile (select [call1 "max" "x"; influxql.Call "min" []; influxql.Call "nope" []])
  = Err "invalid number of arguments for min, expected 1, got 0".
Proof.
  apply (X1_first_error_ends_compile
           (select [call1 "max" "x"; influxql.Call "min" []; influxql.Call "nope" []])
           [field (call1 "max" "x")] [field (influxql.Call "nope" [])]
           (field (influxql.Call "min" []))
           (compileFields [field (call1 "max" "x")]
              (started (select [call1 "max" "x"; influxql.Call "min" [];
                                influxql.Call "nope" []]))).2
           (compileFields [field (call1 "max" "x")]
              (started (select [call1 "max" "x"; influxql.Call "min" [];
                                influxql.Call "nope" []]))).2);
    vm_compute; reflexivity.
Defined.

(** ** The errors of [Compile] *)

(** X2: every error [Compile] returns is one of six: "unimplemented", the
    wrong number of arguments of a function, a function argument that is not
    a field, no field but [time], aggregates mixed with raw fields, or several
    selectors mixed with raw fields. *)
Theorem X2_errors_of_Compile (stmt : influxql.SelectStatement) (msg : string) :
  Compile stmt = Err msg ->
  msg = "unimplemented"
  \/ (exists name got,
         msg = "invalid number of arguments for " +:+ name +:+ ", expected " +:+ itoa 1
               +:+ ", got " +:+ itoa got)
  \/ (exists name, msg = "expected field argument in " +:+ name +:+ "()")
  \/ msg = "at least 1 non-time field must be queried"
  \/ msg = "mixing aggregate and non-aggregate queries is not supported"
  \/ msg = "mixing multiple selector functions with tags or fields is not supported".
Proof.
  intros H. destruct (Compile_Err_cases _ _ H) as [Hx | (s & s' & E & Hl)].
  - destruct Hx as [-> | [Hx | Hx]]; auto.
  - destruct (linkAuxiliaryFields_errors _ _ _ Hl)
      as [(-> & _) | [(-> & _) | (-> & _)]]; auto 10.
Qed.

Lemma X2_errors_of_Compile_witness :
  "at least 1 non-time field must be queried" = "unimplemented"
  \/ (exists name got,
         "at least 1 non-time field must be queried"
         = "invalid number of arguments for " +:+ name +:+ ", expected " +:+ itoa 1
           +:+ ", got " +:+ itoa got)
  \/ (exists name,
         "at least 1 non-time field must be queried"
         = "expected field argument in " +:+ name +:+ "()")
  \/ "at least 1 non-time field must be queried"
     = "at least 1 non-time field must be queried"
  \/ "at least 1 non-time field must be queried"
     = "mixing aggregate and non-aggregate queries is not supported"
  \/ "at least 1 non-time field must be queried"
     = "mixing multiple selector functions with tags or fields is not supported".
Proof.
  apply (X2_errors_of_Compile (select [ref "time"])). vm_compute. reflexivity.
Defined.

(** ** When [compileFunction] returns an error *)

(** X3: [compileFunction] returns an error exactly when its arguments are not
    a single plain variable reference, and then it has built nothing: the
    compiler and the graph are as they were. *)
Theorem X3_compileFunction_error_builds_nothing
        (name : string) (args : list influxql.Expr) (s : State) :
  ((exists msg s', compileFunction name args s = (Err msg, s'))
   <-> (forall r, args <> [influxql.Ref r]))
  /\ (forall msg s', compileFunction name args s = (Err msg, s') -> s' = s).
Proof.
  split; [split |].
  - intros (msg & s' & E) r ->.
    pose proof (compileFunction_ref name r s) as H. rewrite E in H. exact H.
  - intros Hno. destruct (compileFunction_rejects name args s Hno) as [msg E]. eauto.
  - intros msg s' E.
    assert (forall r, args <> [influxql.Ref r]) as Hno.
    { intros r ->. pose proof (compileFunction_ref name r s) as H. rewrite E in H. exact H. }
    destruct (compileFunction_rejects name args s Hno) as [msg' E']. congruence.
Qed.

Lemma X3_compileFunction_error_builds_nothing_witness :
  exists msg s', compileFunction "mean" [ref "x"; ref "y"] (started (select [])) = (Err msg, s').
Proof.
  apply (X3_compileFunction_error_builds_nothing "mean" [ref "x"; ref "y"]
           (started (select []))).
  intros r. discriminate.
Defined.

(** X4: over sources that are all measurements, [compileFunction] on a plain
    variable reference succeeds and adds to the graph, in this order, one
    [Merge], one [IteratorCreator] per source that reads the argument from that
    source, and one [FunctionCall] of that name. The merge has one input per
    source and writes to the input of the function call; the edge returned is
    the one the function call writes to, nobody reads it yet, and it is the
    one entry added to [FunctionCalls]. *)
Theorem X4_compileFunction_subgraph
        (name : string) (r : influxql.VarRef) (s : State) (names : list string) :
  Sources (comp s) = measurements names ->
  exists out s' inputs w ci co,
    compileFunction name [influxql.Ref r] s = (Ok out, s')
    /\ FunctionCalls (comp s') = FunctionCalls (comp s) ++ [out]
    /\ kinds s'
       = kinds s ++ KMerge :: map (KIteratorCreator (Some r)) names ++ [KFunctionCall name]
    /\ nodes (graph s') !! length (nodes (graph s)) = Some (Merge inputs (Some w))
    /\ length inputs = length names
    /\ nodes (graph s') !! (length (nodes (graph s)) + S (length names))
       = Some (FunctionCall name (Some ci) (Some co))
    /\ ins (graph s') !! w
       = Some (mkInputEdge (Some (length (nodes (graph s)))) (Some ci))
    /\ ins (graph s') !! co
       = Some (mkInputEdge (Some (length (nodes (graph s)) + S (length names))) (Some out))
    /\ outs (graph s') !! out = Some (mkOutputEdge None (Some co)).
Proof.
  intros Hsrc.
  destruct (compileFunction_spec name r s names Hsrc)
    as (out & s' & inputs & w & ci & co & E & Hc & Hk & Hm & Hl & Hf & Hw & Hco & Ho & _).
  exists out, s', inputs, w, ci, co.
  split; [exact E |]. split; [rewrite Hc; reflexivity |]. auto 10.
Qed.

Lemma X4_compileFunction_subgraph_witness :
  exists out s',
    compileFunction "max" [ref "x"]
      (started (influxql.mkSelect (measurements ["cpu"; "mem"]) [])) = (Ok out, s')
    /\ kinds s' = [KMerge;
                   KIteratorCreator (Some (influxql.mkVarRef "x")) "cpu";
                   KIteratorCreator (Some (influxql.mkVarRef "x")) "mem";
                   KFunctionCall "max"].
Proof.
  destruct (X4_compileFunction_subgraph "max" (influxql.mkVarRef "x")
              (started (influxql.mkSelect (measurements ["cpu"; "mem"]) []))
              ["cpu"; "mem"])
    as (out & s' & inputs & w & ci & co & E & _ & Hk & _).
  - reflexivity.
  - exists out, s'. split; [exact E | exact Hk].
Defined.

(** ** How a binary expression is put together *)

(** X5: a binary expression without a literal operand compiles its left
    operand first and its right operand in the state the left one leaves; the
    error of the first operand that fails is returned as it is, the right one
    not being compiled when the left one fails. When both compile, one
    [BinaryExpr] node is added after their nodes: it carries the operator and
    the two edges the operands returned, it writes to the edge returned, and
    nothing else of the compiler changes. *)
Theorem X5_binary_expression_composes
        (op : influxql.Token) (l r : influxql.Expr) (s : State) :
  isLiteral l = false -> isLiteral r = false ->
  (forall msg s1, compileExpr l s = (Err msg, s1) ->
                  compileExpr (influxql.BinaryExpr op l r) s = (Err msg, s1))
  /\ (forall a s1 msg s2,
         compileExpr l s = (Ok a, s1) -> compileExpr r s1 = (Err msg, s2) ->
         compileExpr (influxql.BinaryExpr op l r) s = (Err msg, s2))
  /\ (forall a s1 b s2,
         compileExpr l s = (Ok a, s1) -> compileExpr r s1 = (Ok b, s2) ->
         exists out s' w,
           compileExpr (influxql.BinaryExpr op l r) s = (Ok out, s')
           /\ comp s' = comp s2
           /\ kinds s' = kinds s2 ++ [KBinaryExpr op]
           /\ nodes (graph s') !! length (nodes (graph s2))
              = Some (BinaryExpr (Some a) (Some b) op (Some w))
           /\ ins (graph s') !! w
              = Some (mkInputEdge (Some (length (nodes (graph s2)))) (Some out))
           /\ outs (graph s') !! out = Some (mkOutputEdge None (Some w))).
Proof.
  intros Hl Hr. rewrite compileExpr_BinaryExpr, Hl, Hr.
  split; [| split].
  - intros msg s1 E. unfold bind at 1. rewrite E. reflexivity.
  - intros a s1 msg s2 E1 E2. unfold bind at 1. rewrite E1.
    unfold bind at 1. rewrite E2. reflexivity.
  - intros a s1 b s2 E1 E2. unfold bind at 1. rewrite E1.
    unfold bind at 1. rewrite E2. cbn. rewrite !length_alter.
    eexists _, _, (length (ins (graph s2))). split; [reflexivity |]. cbn.
    split; [reflexivity |].
    split. { unfold kinds. cbn. rewrite map_kindOf_alter by apply kindOf_withOutput.
             apply map_app. }
    split. { rewrite list_lookup_alter_eq, list_lookup_middle by reflexivity. reflexivity. }
    split. { apply list_lookup_middle. reflexivity. }
    apply list_lookup_middle. rewrite !length_alter. reflexivity.
Qed.

Lemma X5_binary_expression_composes_witness :
  compileExpr (influxql.BinaryExpr influxql.MUL (call1 "max" "x") (influxql.Call "min" []))
    (started (select []))
  = (Err "invalid number of arguments for min, expected 1, got 0",
     (compileExpr (call1 "max" "x") (started (select []))).2).
Proof.
  destruct (X5_binary_expression_composes influxql.MUL (call1 "max" "x")
              (influxql.Call "min" []) (started (select [])) eq_refl eq_refl)
    as (_ & H & _).
  apply (H 2 (compileExpr (call1 "max" "x") (started (select []))).2);
    vm_compute; reflexivity.
Defined.

(** ** Panics come from the sources only *)

Lemma compileExpr_panic expr s p s' :
  wf s -> compileExpr expr s = (Panic p, s') ->
  p = "unimplemented" /\ ~ Forall isMeasurement (Sources (comp s)).
Proof.
  revert s s'. induction expr as [r | name args | op l IHl r IHr | | |]; intros s s' Hwf;
    try discriminate.
  - destruct (compileExpr_Ref_spec r s Hwf) as (e & s1 & -> & _). discriminate.
  - rewrite compileExpr_Call. destruct (isSupported name); [| discriminate].
    assert ((exists r, args = [influxql.Ref r]) \/ (forall r, args <> [influxql.Ref r]))
      as [[r ->] | Hno].
    { destruct args as [| [r | | | | |] [| b rest]]; try (right; intros r'; discriminate).
      left. eauto. }
    + destruct (isMeasurement_dec (Sources (comp s))) as [Hm | Hm].
      * destruct (measurements_Forall _ Hm) as [names Hsrc].
        destruct (compileFunction_spec name r s names Hsrc) as (out & s1 & ? & ? & ? & ? & -> & _).
        discriminate.
      * destruct (compileFunction_panic name r s Hm) as (s1 & -> & _).
        intros [= <- _]. auto.
    + destruct (compileFunction_rejects name args s Hno) as [msg ->]. discriminate.
  - rewrite compileExpr_BinaryExpr.
    destruct (isLiteral l); [discriminate |]. destruct (isLiteral r); [discriminate |].
    unfold bind at 1. pose proof (wf_compileExpr l s Hwf) as Hwf1.
    pose proof (ext_Sources _ _ (extends_compileExpr l s)) as Hs1.
    destruct (compileExpr l s) as [[lhs | e | q] s1] eqn:El; try discriminate.
    2: { intros [= <- <-]. eapply IHl; [exact Hwf | exact El]. }
    cbn in Hwf1, Hs1. unfold bind at 1.
    destruct (compileExpr r s1) as [[rhs | e | q] s2] eqn:Er; try discriminate.
    intros [= <- <-]. rewrite <- Hs1. eapply IHr; [exact Hwf1 | exact Er].
Qed.

Lemma compileFields_panic fields s p s' :
  wf s -> compileFields fields s = (Panic p, s') ->
  p = "unimplemented" /\ ~ Forall isMeasurement (Sources (comp s)).
Proof.
  revert s. induction fields as [| f rest IH]; intros s Hwf; [discriminate |].
  rewrite compileFields_cons.
  destruct (isTimeRef (influxql.FieldExpr f)); [apply IH, Hwf |].
  unfold bind at 1. pose proof (wf_compileExpr (influxql.FieldExpr f) s Hwf) as Hwf1.
  pose proof (ext_Sources _ _ (extends_compileExpr (influxql.FieldExpr f) s)) as Hs1.
  destruct (compileExpr (influxql.FieldExpr f) s) as [[out | e | q] s1] eqn:E;
    try discriminate.
  - unfold bind. cbn [modc]. cbn in Hwf1, Hs1. intros H.
    rewrite <- Hs1. apply IH in H; [exact H |].
    intros a Ha. exact (Hwf1 a Ha).
  - intros [= <- <-]. eapply compileExpr_panic; [exact Hwf | exact E].
Qed.

(** The four ways [linkAuxiliaryFields] goes on after its checks. *)
Lemma linkAuxiliaryFields_no_aux s :
  AuxiliaryFields (comp s) = None -> FunctionCalls (comp s) <> [] ->
  linkAuxiliaryFields s = (Ok tt, s).
Proof.
  intros Ha Hf. unfold linkAuxiliaryFields. unfold bind at 1. cbn [getc]. rewrite Ha.
  destruct (FunctionCalls (comp s)); [contradiction | reflexivity].
Qed.

Lemma linkAuxiliaryFields_splice s aux call :
  AuxiliaryFields (comp s) = Some aux -> OnlySelectors (comp s) = true ->
  FunctionCalls (comp s) = [call] -> call < length (outs (graph s)) ->
  exists s', linkAuxiliaryFields s = (Ok tt, s')
             /\ comp s' = comp s /\ kinds s' = kinds s.
Proof.
  intros Ha Hs Hf Hlt. unfold linkAuxiliaryFields. unfold bind at 1. cbn [getc].
  rewrite Ha, Hs, Hf. cbn [negb length Nat.ltb Nat.leb].
  destruct (lookup_lt_is_Some_2 _ _ Hlt) as [eo He].
  unfold Insert, bind. cbn. rewrite He. cbn.
  eexists. split; [reflexivity |]. split; [reflexivity |].
  unfold kinds. cbn.
  rewrite !map_kindOf_alter
    by (intros; first [apply kindOf_withOutput | apply kindOf_withInput]).
  reflexivity.
Qed.

Lemma linkAuxiliaryFields_merge s aux names :
  AuxiliaryFields (comp s) = Some aux -> OnlySelectors (comp s) = true ->
  FunctionCalls (comp s) = [] -> Sources (comp s) = measurements names ->
  exists s', linkAuxiliaryFields s = (Ok tt, s')
             /\ comp s' = comp s
             /\ kinds s' = kinds s ++ KMerge :: map (KIteratorCreator None) names.
Proof.
  intros Ha Hs Hf Hsrc. unfold linkAuxiliaryFields. unfold bind at 1. cbn [getc].
  rewrite Ha, Hs, Hf, Hsrc. cbn [negb length Nat.ltb Nat.leb].
  unfold bind at 1. cbn [new getg modg bind ret]. unfold bind at 1.
  match goal with |- context [sourceIterators ?e ?m ?l ?s1] =>
    destruct (sourceIterators_spec names e m s1 [] None)
      as (s2 & inputs & E & Hc & Hk & Hn & Hl & Ho) end.
  { cbn. apply list_lookup_middle. reflexivity. }
  rewrite E. cbn. eexists. split; [reflexivity |]. cbn. split; [exact Hc |].
  unfold kinds in *. cbn.
  rewrite !map_kindOf_alter
    by (intros; first [apply kindOf_withOutput | apply kindOf_withInput]).
  rewrite Hk. cbn. rewrite map_app. cbn. rewrite <- app_assoc. reflexivity.
Qed.

Lemma linkAuxiliaryFields_merge_panic s aux :
  AuxiliaryFields (comp s) = Some aux -> OnlySelectors (comp s) = true ->
  FunctionCalls (comp s) = [] -> ~ Forall isMeasurement (Sources (comp s)) ->
  exists s', linkAuxiliaryFields s = (Panic "unimplemented", s').
Proof.
  intros Ha Hs Hf Hn. unfold linkAuxiliaryFields. unfold bind at 1. cbn [getc].
  rewrite Ha, Hs, Hf. cbn [negb length Nat.ltb Nat.leb].
  unfold bind at 1. cbn [new getg modg bind ret]. unfold bind at 1.
  match goal with |- context [sourceIterators ?e ?m ?l ?s1] =>
    destruct (sourceIterators_panic e m l s1 Hn) as [s' ->] end.
  eauto.
Qed.

Lemma linkAuxiliaryFields_panic s p s' :
  callsValid s -> linkAuxiliaryFields s = (Panic p, s') ->
  p = "unimplemented" /\ ~ Forall isMeasurement (Sources (comp s)).
Proof.
  intros Hv H.
  destruct (AuxiliaryFields (comp s)) as [aux |] eqn:Ha.
  - destruct (OnlySelectors (comp s)) eqn:Hs.
    + destruct (FunctionCalls (comp s)) as [| call [| c2 rest]] eqn:Hf.
      * destruct (isMeasurement_dec (Sources (comp s))) as [Hm | Hm].
        -- destruct (measurements_Forall _ Hm) as [names Hsrc].
           destruct (linkAuxiliaryFields_merge s aux names Ha Hs Hf Hsrc) as (s1 & E & _).
           congruence.
        -- destruct (linkAuxiliaryFields_merge_panic s aux Ha Hs Hf Hm) as (s1 & E).
           rewrite E in H. injection H as <- _. auto.
      * unfold callsValid in Hv. rewrite Hf in Hv. inversion Hv as [| ? ? Hlt _]. subst.
        destruct (linkAuxiliaryFields_splice s aux call Ha Hs Hf Hlt) as (s1 & E & _).
        congruence.
      * exfalso. revert H. unfold linkAuxiliaryFields. unfold bind at 1. cbn [getc].
        rewrite Ha, Hs, Hf. discriminate.
    + exfalso. revert H. unfold linkAuxiliaryFields. unfold bind at 1. cbn [getc].
      rewrite Ha, Hs. discriminate.
  - exfalso. revert H. unfold linkAuxiliaryFields. unfold bind at 1. cbn [getc].
    rewrite Ha. destruct (length (FunctionCalls (comp s)) =? 0)%nat; discriminate.
Qed.

Lemma callsValid_fields stmt fields :
  callsValid (compileFields fields (started stmt)).2.
Proof.
  apply (bld_calls _ _ (builds_compileFields fields (started stmt))). constructor.
Qed.

Lemma Compile_Panic_cases stmt p :
  Compile stmt = Panic p ->
  (exists s, compileFields (influxql.Fields stmt) (started stmt) = (Panic p, s))
  \/ (exists s s', compileFields (influxql.Fields stmt) (started stmt) = (Ok tt, s)
                   /\ linkAuxiliaryFields s = (Panic p, s')).
Proof.
  intros H.
  destruct (compileFields (influxql.Fields stmt) (started stmt)) as [[[] | e | q] s] eqn:E.
  - right. exists s. rewrite (Compile_fields_Ok _ _ E) in H.
    destruct (linkAuxiliaryFields s) as [[[] | e | q] s1]; try discriminate.
    injection H as ->. eauto.
  - rewrite (Compile_fields_Err _ _ _ E) in H. discriminate.
  - rewrite (Compile_fields_Panic _ _ _ E) in H. injection H as ->. eauto.
Qed.

Lemma wf_started stmt : wf (started stmt).
Proof. intros a H. cbn in H. discriminate. Qed.

Lemma Compile_panic stmt p :
  Compile stmt = Panic p ->
  p = "unimplemented" /\ ~ Forall isMeasurement (influxql.Sources stmt).
Proof.
  intros H. destruct (Compile_Panic_cases _ _ H) as [(s & E) | (s & s' & E & El)].
  - exact (compileFields_panic _ _ _ _ (wf_started stmt) E).
  - pose proof (callsValid_fields stmt (influxql.Fields stmt)) as Hv.
    pose proof (reached_fields stmt (influxql.Fields stmt)) as R.
    rewrite E in Hv, R. cbn [snd] in Hv, R.
    rewrite <- (reached_Sources _ _ R).
    exact (linkAuxiliaryFields_panic _ _ _ Hv El).
Qed.

(** X6: [Compile] panics only on a statement with a source that is not a
    measurement, and then with "unimplemented"; on a statement whose sources
    are all measurements it returns a compiled statement or an error. *)
Theorem X6_panic_only_from_sources (stmt : influxql.SelectStatement) :
  (forall p, Compile stmt = Panic p ->
             p = "unimplemented" /\ ~ Forall isMeasurement (influxql.Sources stmt))
  /\ (Forall isMeasurement (influxql.Sources stmt) ->
      (exists s, Compile stmt = Ok s) \/ (exists msg, Compile stmt = Err msg)).
Proof.
  pose proof (Compile_panic stmt) as Hp.
  split; [exact Hp |].
  intros Hm. destruct (Compile stmt) as [s | msg | p] eqn:E; eauto.
  exfalso. destruct (Hp p eq_refl) as [_ Hn]. exact (Hn Hm).
Qed.

Lemma X6_panic_only_from_sources_witness :
  (exists s, Compile (select [ref "x"; call1 "max" "y"]) = Ok s)
  \/ (exists msg, Compile (select [ref "x"; call1 "max" "y"]) = Err msg).
Proof.
  apply (X6_panic_only_from_sources (select [ref "x"; call1 "max" "y"])).
  constructor; [exact I | constructor].
Defined.

(** X7: a statement compiles only if all its sources are measurements and
    it has a field other than [time]; the compiled statement then has at
    least one output edge. *)
Theorem X7_success_needs_measurements (stmt : influxql.SelectStatement) (s : State) :
  Compile stmt = Ok s ->
  Forall isMeasurement (influxql.Sources stmt)
  /\ List.filter nonTime (influxql.Fields stmt) <> []
  /\ OutputEdges (comp s) <> [].
Proof.
  intros H.
  destruct (compileFields (influxql.Fields stmt) (started stmt)) as [[[] | e | q] s0] eqn:E.
  2: { rewrite (Compile_fields_Err _ _ _ E) in H. discriminate. }
  2: { rewrite (Compile_fields_Panic _ _ _ E) in H. discriminate. }
  rewrite (Compile_fields_Ok _ _ E) in H.
  pose proof (keeps_linkAuxiliaryFields s0) as [Hc _].
  destruct (linkAuxiliaryFields s0) as [[[] | e | q] s1] eqn:El; try discriminate.
  injection H as <-. cbn in Hc.
  pose proof (reached_fields stmt (influxql.Fields stmt)) as R.
  pose proof (builds_compileFields (influxql.Fields stmt) (started stmt)) as B.
  rewrite E in R, B. cbn [snd] in R, B.
  assert (List.filter nonTime (influxql.Fields stmt) <> []) as Hne.
  { intros Hnil. rewrite compileFields_nonTime, Hnil in E. injection E as <-.
    vm_compute in El. discriminate. }
  split; [| split; [exact Hne |]].
  - destruct (FunctionCalls (comp s0)) as [| call rest] eqn:Hf.
    + destruct (isMeasurement_dec (influxql.Sources stmt)) as [Hm | Hm]; [exact Hm |].
      exfalso. rewrite <- (reached_Sources _ _ R) in Hm.
      assert (OnlySelectors (comp s0) = true) as Hs.
      { rewrite (reached_OnlySelectors _ _ R).
        pose proof (reached_FunctionCalls _ _ R) as Hl. rewrite Hf in Hl.
        destruct (compiledFunctions s0); [reflexivity | discriminate]. }
      destruct (AuxiliaryFields (comp s0)) as [aux |] eqn:Ha.
      * destruct (linkAuxiliaryFields_merge_panic s0 aux Ha Hs Hf Hm) as (s' & E').
        congruence.
      * revert El. unfold linkAuxiliaryFields. unfold bind at 1. cbn [getc].
        rewrite Ha, Hf. discriminate.
    + apply (bld_measure _ _ B). rewrite Hf. cbn. lia.
  - destruct (compileFields_OutputEdges _ _ _ E) as (edges & Ho & HF).
    rewrite Hc, Ho. cbn. intros ->.
    apply Forall2_length in HF. cbn in HF.
    destruct (List.filter nonTime (influxql.Fields stmt)); [contradiction | discriminate].
Qed.

Lemma X7_success_needs_measurements_witness :
  OutputEdges (comp (runCompile (select [ref "x"; call1 "max" "y"])).2) <> [].
Proof.
  apply (X7_success_needs_measurements (select [ref "x"; call1 "max" "y"])
           (runCompile (select [ref "x"; call1 "max" "y"])).2).
  vm_compute. reflexivity.
Defined.

(** X8: once the fields of a statement over measurements have compiled,
    the outcome of [Compile] is decided by three things the compiler holds:
    it succeeds exactly when there is no auxiliary field and at least one
    function call, or there are auxiliary fields, only selectors and at most
    one function call; the compiled statement then holds the compiler as the
    fields left it. *)
Theorem X8_outcome_after_fields (stmt : influxql.SelectStatement) (s : State) :
  Forall isMeasurement (influxql.Sources stmt) ->
  compileFields (influxql.Fields stmt) (started stmt) = (Ok tt, s) ->
  ((exists s', Compile stmt = Ok s')
   <-> (AuxiliaryFields (comp s) = None /\ FunctionCalls (comp s) <> [])
       \/ (AuxiliaryFields (comp s) <> None /\ OnlySelectors (comp s) = true
           /\ length (FunctionCalls (comp s)) <= 1))
  /\ (forall s', Compile stmt = Ok s' -> comp s' = comp s).
Proof.
  intros Hm E.
  pose proof (Compile_fields_Ok _ _ E) as HC.
  pose proof (keeps_linkAuxiliaryFields s) as [Hc _].
  split; [split |].
  - intros [s' H]. rewrite HC in H.
    destruct (linkAuxiliaryFields s) as [[[] | e | q] s1] eqn:El; try discriminate.
    revert El. unfold linkAuxiliaryFields. unfold bind at 1. cbn [getc].
    destruct (AuxiliaryFields (comp s)) as [aux |].
    + destruct (OnlySelectors (comp s)); [| discriminate]. cbn [negb].
      destruct (Nat.ltb_spec 1 (length (FunctionCalls (comp s)))); [discriminate |].
      intros _. right. split; [discriminate | auto].
    + destruct (FunctionCalls (comp s)); [discriminate |].
      intros _. left. split; [reflexivity | discriminate].
  - intros Hcond. rewrite HC.
    pose proof (callsValid_fields stmt (influxql.Fields stmt)) as Hv.
    pose proof (reached_fields stmt (influxql.Fields stmt)) as R.
    rewrite E in Hv, R. cbn [snd] in Hv, R.
    destruct (linkAuxiliaryFields s) as [[[] | e | q] s1] eqn:El; [eauto | exfalso ..].
    + destruct (linkAuxiliaryFields_errors _ _ _ El)
        as [(_ & Ha & Hf) | [(_ & Ha & Hs) | (_ & Ha & Hs & Hl)]];
        destruct Hcond as [(Ha' & Hf') | (Ha' & Hs' & Hl')];
        try congruence; lia.
    + destruct (linkAuxiliaryFields_panic _ _ _ Hv El) as [_ Hn].
      apply Hn. rewrite (reached_Sources _ _ R). exact Hm.
  - intros s' H. rewrite HC in H.
    destruct (linkAuxiliaryFields s) as [[[] | e | q] s1]; try discriminate.
    injection H as <-. exact Hc.
Qed.

Lemma X8_outcome_after_fields_witness :
  exists s', Compile (select [ref "x"; call1 "last" "y"; ref "z"]) = Ok s'.
Proof.
  apply (X8_outcome_after_fields
           (select [ref "x"; call1 "last" "y"; ref "z"])
           (compileFields (influxql.Fields (select [ref "x"; call1 "last" "y"; ref "z"]))
                          (started (select [ref "x"; call1 "last" "y"; ref "z"]))).2).
  - constructor; [exact I | constructor].
  - vm_compute. reflexivity.
  - right. vm_compute. split; [discriminate | split; [reflexivity | lia]].
Defined.

(** ** One shared [AuxiliaryFields] node *)

Lemma oneAux_started stmt : oneAux (started stmt).
Proof. reflexivity. Qed.

(** X9: a compile instantiates at most one [AuxiliaryFields] node, shared by
    all the variable references of the statement: after any number of fields,
    and in the state [Compile] stops in, the graph has one such node if the
    compiler points to one and none otherwise; and once the compiler points to
    a node, no expression makes it point to another. *)
Theorem X9_one_AuxiliaryFields_node :
  (forall stmt fields,
      auxNodes (compileFields fields (started stmt)).2
      = match AuxiliaryFields (comp (compileFields fields (started stmt)).2) with
        | Some _ => 1
        | None => 0
        end)
  /\ (forall stmt,
         auxNodes (runCompile stmt).2
         = match AuxiliaryFields (comp (runCompile stmt).2) with Some _ => 1 | None => 0 end)
  /\ (forall expr s a,
         AuxiliaryFields (comp s) = Some a ->
         AuxiliaryFields (comp (compileExpr expr s).2) = Some a).
Proof.
  split; [| split].
  - intros stmt fields.
    exact (bld_aux _ _ (builds_compileFields fields (started stmt)) (oneAux_started stmt)).
  - intros stmt. exact (bld_aux _ _ (builds_runCompile stmt) (oneAux_started stmt)).
  - intros expr s a. apply (ext_Aux _ _ (extends_compileExpr expr s)).
Qed.

Lemma X9_one_AuxiliaryFields_node_witness :
  AuxiliaryFields
    (comp (compileExpr (ref "y") (compileExpr (ref "x") (started (select []))).2).2)
  = Some 0.
Proof.
  destruct X9_one_AuxiliaryFields_node as (_ & _ & H).
  apply H. vm_compute. reflexivity.
Defined.

(** ** What [Compile] never does *)

(** X10: [Compile] never sets the [Distinct] slot and never changes the
    sources it copied from the statement; and no step of it removes a node,
    turns a node into one of another kind or with other parameters, or drops
    an edge: the kinds of the nodes after a step are those before it followed
    by the kinds of the nodes added. *)
Theorem X10_never_done :
  (forall stmt,
      Distinct (comp (runCompile stmt).2) = None
      /\ Sources (comp (runCompile stmt).2) = influxql.Sources stmt)
  /\ (forall expr s,
         (exists added, kinds (compileExpr expr s).2 = kinds s ++ added)
         /\ length (outs (graph s)) <= length (outs (graph (compileExpr expr s).2)))
  /\ (forall fields s,
         (exists added, kinds (compileFields fields s).2 = kinds s ++ added)
         /\ length (outs (graph s)) <= length (outs (graph (compileFields fields s).2)))
  /\ (forall s,
         (exists added, kinds (linkAuxiliaryFields s).2 = kinds s ++ added)
         /\ length (outs (graph s)) <= length (outs (graph (linkAuxiliaryFields s).2))).
Proof.
  split; [| split; [| split]].
  - intros stmt. pose proof (builds_runCompile stmt) as B. split.
    + rewrite (bld_Distinct _ _ B). reflexivity.
    + rewrite (bld_Sources _ _ B). reflexivity.
  - intros expr s. pose proof (builds_compileExpr expr s) as B.
    split; [exact (bld_kinds _ _ B) | exact (bld_outs _ _ B)].
  - intros fields s. pose proof (builds_compileFields fields s) as B.
    split; [exact (bld_kinds _ _ B) | exact (bld_outs _ _ B)].
  - intros s. pose proof (grows_builds _ _ (grows_linkAuxiliaryFields s)) as B.
    split; [exact (bld_kinds _ _ B) | exact (bld_outs _ _ B)].
Qed.

(** ** The edges [Compile] hands out *)

Lemma compileExpr_out_valid expr s out s' :
  wf s -> compileExpr expr s = (Ok out, s') -> out < length (outs (graph s')).
Proof.
  revert s s' out. induction expr as [r | name args | op l IHl r IHr | | |];
    intros s s' out Hwf; try discriminate.
  - destruct (compileExpr_Ref_spec r s Hwf) as (e & s1 & -> & _ & _ & Hlt & _).
    intros [= <- <-]. exact Hlt.
  - rewrite compileExpr_Call. destruct (isSupported name); [| discriminate].
    assert ((exists r, args = [influxql.Ref r]) \/ (forall r, args <> [influxql.Ref r]))
      as [[r ->] | Hno].
    { destruct args as [| [r | | | | |] [| b rest]]; try (right; intros r'; discriminate).
      left. eauto. }
    + destruct (isMeasurement_dec (Sources (comp s))) as [Hm | Hm].
      * destruct (measurements_Forall _ Hm) as [names Hsrc].
        destruct (compileFunction_spec name r s names Hsrc)
          as (o & s1 & ? & ? & ? & ? & -> & _ & _ & _ & _ & _ & _ & _ & Ho & _).
        intros [= <- <-]. eapply lookup_lt_Some. exact Ho.
      * destruct (compileFunction_panic name r s Hm) as (s1 & -> & _). discriminate.
    + destruct (compileFunction_rejects name args s Hno) as [msg ->]. discriminate.
  - rewrite compileExpr_BinaryExpr.
    destruct (isLiteral l); [discriminate |]. destruct (isLiteral r); [discriminate |].
    unfold bind at 1.
    destruct (compileExpr l s) as [[lhs | e | q] s1]; try discriminate.
    unfold bind at 1.
    destruct (compileExpr r s1) as [[rhs | e | q] s2]; try discriminate.
    cbn. intros [= <- <-]. cbn. rewrite length_app, !length_alter. cbn. lia.
Qed.

Lemma compileFields_outputs_valid fields s s' :
  wf s ->
  Forall (fun e => e < length (outs (graph s))) (OutputEdges (comp s)) ->
  compileFields fields s = (Ok tt, s') ->
  Forall (fun e => e < length (outs (graph s'))) (OutputEdges (comp s')).
Proof.
  revert s. induction fields as [| f rest IH]; intros s Hwf Hv.
  - intros [= <-]. exact Hv.
  - rewrite compileFields_cons.
    destruct (isTimeRef (influxql.FieldExpr f)); [apply IH; assumption |].
    unfold bind at 1.
    pose proof (wf_compileExpr (influxql.FieldExpr f) s Hwf) as Hwf1.
    pose proof (compileExpr_OutputEdges (influxql.FieldExpr f) s) as Ho.
    pose proof (bld_outs _ _ (builds_compileExpr (influxql.FieldExpr f) s)) as Hl.
    destruct (compileExpr (influxql.FieldExpr f) s) as [[out | e | q] s1] eqn:E;
      try discriminate.
    unfold bind. cbn [modc]. cbn in Hwf1, Ho, Hl. apply IH.
    + intros a Ha. exact (Hwf1 a Ha).
    + cbn. rewrite Ho. apply Forall_app. split.
      * eapply Forall_impl; [exact Hv |]. cbn. intros; lia.
      * constructor; [| constructor]. eapply compileExpr_out_valid; [exact Hwf | exact E].
Qed.

(** Every edge a compiled statement hands out is an edge of the store: the
    result edges, which [Select] registers with the plan, and the edges of the
    function calls. *)
Lemma no_dangling_edge (stmt : influxql.SelectStatement) (s : State) :
  Compile stmt = Ok s ->
  Forall (fun e => is_Some (outs (graph s) !! e)) (OutputEdges (comp s))
  /\ Forall (fun e => is_Some (outs (graph s) !! e)) (FunctionCalls (comp s))
  /\ (forall plan, Forall (fun e => is_Some (outs (graph s) !! e))
                          (Select (comp s) plan).2.1).
Proof.
  intros H.
  destruct (compileFields (influxql.Fields stmt) (started stmt)) as [[[] | e | q] s0] eqn:E.
  2: { rewrite (Compile_fields_Err _ _ _ E) in H. discriminate. }
  2: { rewrite (Compile_fields_Panic _ _ _ E) in H. discriminate. }
  rewrite (Compile_fields_Ok _ _ E) in H.
  pose proof (grows_linkAuxiliaryFields s0) as (Hc & _ & Hl).
  destruct (linkAuxiliaryFields s0) as [[[] | e | q] s1]; try discriminate.
  injection H as <-. cbn in Hc, Hl.
  assert (Forall (fun e => e < length (outs (graph s0))) (OutputEdges (comp s0))) as Ho.
  { apply (compileFields_outputs_valid (influxql.Fields stmt) (started stmt) s0
             (wf_started stmt)); [constructor | exact E]. }
  pose proof (callsValid_fields stmt (influxql.Fields stmt)) as Hv. rewrite E in Hv.
  cbn [snd] in Hv. unfold callsValid in Hv.
  assert (Forall (fun e => is_Some (outs (graph s1) !! e)) (OutputEdges (comp s1))) as HO.
  { rewrite Hc. eapply Forall_impl; [exact Ho |]. cbn. intros e He.
    apply lookup_lt_is_Some_2. lia. }
  split; [exact HO |]. split; [| intros plan; exact HO].
  rewrite Hc. eapply Forall_impl; [exact Hv |]. cbn. intros e He.
  apply lookup_lt_is_Some_2. lia.
Qed.

(** ** Statements of raw fields, alone or with one selector *)

Lemma Iterator_frame x r s :
  comp (Iterator x r s).2 = comp s /\ kinds (Iterator x r s).2 = kinds s.
Proof.
  unfold Iterator, bind. cbn.
  destruct (nodes (graph s) !! x) as [[] |]; cbn; auto.
  destruct (lookupAux r Aux); cbn; auto.
  split; [reflexivity |]. unfold kinds. cbn. apply map_kindOf_alter. intros []; reflexivity.
Qed.

(** A variable reference instantiates the [AuxiliaryFields] node if there is
    none, and touches nothing else of the compiler. *)
Lemma compileExpr_Ref_frame r s :
  comp (compileExpr (influxql.Ref r) s).2
  = match AuxiliaryFields (comp s) with
    | Some _ => comp s
    | None => set_AuxiliaryFields (Some (length (nodes (graph s)))) (comp s)
    end
  /\ kinds (compileExpr (influxql.Ref r) s).2
     = kinds s ++ match AuxiliaryFields (comp s) with
                  | Some _ => []
                  | None => [KAuxiliaryFields]
                  end.
Proof.
  rewrite compileExpr_Ref. unfold bind at 1 3. cbn [getc].
  unfold bind, theAuxiliaryFields.
  destruct (AuxiliaryFields (comp s)) as [a |]; cbn [ret new getg modg modc bind].
  - pose proof (Iterator_frame a r s) as [Hc Hk].
    destruct (Iterator a r s) as [[] ?]; cbn in *; rewrite Hc, Hk, app_nil_r; auto.
  - match goal with |- context [Iterator ?x r ?s1] =>
      pose proof (Iterator_frame x r s1) as [Hc Hk];
      destruct (Iterator x r s1) as [[] ?] end;
      cbn in *; rewrite Hc, Hk; unfold kinds; cbn; rewrite map_app; auto.
Qed.

Lemma compileFields_raw fields s :
  wf s ->
  Forall (fun f => timeField f \/ rawField f) fields ->
  exists s',
    compileFields fields s = (Ok tt, s')
    /\ wf s'
    /\ FunctionCalls (comp s') = FunctionCalls (comp s)
    /\ OnlySelectors (comp s') = OnlySelectors (comp s)
    /\ Sources (comp s') = Sources (comp s)
    /\ (AuxiliaryFields (comp s) <> None \/ Exists rawField fields ->
        AuxiliaryFields (comp s') <> None)
    /\ kinds s' = kinds s ++ match AuxiliaryFields (comp s), AuxiliaryFields (comp s') with
                             | None, Some _ => [KAuxiliaryFields]
                             | _, _ => []
                             end
    /\ length (OutputEdges (comp s'))
       = length (OutputEdges (comp s)) + length (List.filter nonTime fields).
Proof.
  intros Hwf Hf. revert s Hwf. induction Hf as [| f rest Hf _ IH]; intros s Hwf.
  - exists s. cbn. split; [reflexivity |]. split; [exact Hwf |].
    repeat split; auto.
    + intros [H | H]; [exact H | inversion H].
    + destruct (AuxiliaryFields (comp s)); symmetry; apply app_nil_r.
  - rewrite compileFields_cons. cbn [List.filter]. unfold nonTime at 1.
    destruct Hf as [Ht | (r & Hr & Hv)].
    + rewrite Ht. cbn [isTimeRef influxql.Val negb]. cbn.
      destruct (IH s Hwf) as (s' & E & Hw & Hfc & Hos & Hsrc & Ha & Hk & Hl).
      exists s'. repeat split; auto.
      intros [H | H]; apply Ha; [left; exact H |].
      inversion H as [? ? (r & Hr & Hv) | ]; subst; [| right; assumption].
      rewrite Ht in Hr. injection Hr as <-. exfalso. apply Hv. reflexivity.
    + rewrite Hr. cbn [isTimeRef].
      destruct (String.eqb_spec (influxql.Val r) "time") as [Et | _]; [contradiction |].
      cbn [negb]. unfold bind at 1.
      destruct (compileExpr_Ref_spec r s Hwf) as (e & s1 & E1 & Hwf1 & _).
      pose proof (compileExpr_Ref_frame r s) as [Hc1 Hk1].
      rewrite E1 in Hc1, Hk1 |- *. cbn [snd] in Hc1, Hk1.
      unfold bind at 1. cbn [modc].
      match goal with |- context [compileFields rest ?s2] =>
        destruct (IH s2) as (s' & E & Hw & Hfc & Hos & Hsrc & Ha & Hk & Hl) end.
      { intros a Ha. exact (Hwf1 a Ha). }
      cbn in Hfc, Hos, Hsrc, Ha, Hk, Hl.
      assert (AuxiliaryFields (comp s1) <> None) as Ha1.
      { rewrite Hc1. destruct (AuxiliaryFields (comp s)) eqn:Hx; [rewrite Hx |]; discriminate. }
      specialize (Ha (or_introl Ha1)).
      exists s'. split; [exact E |]. split; [exact Hw |].
      split; [rewrite Hfc, Hc1; destruct (AuxiliaryFields (comp s)); reflexivity |].
      split; [rewrite Hos, Hc1; destruct (AuxiliaryFields (comp s)); reflexivity |].
      split; [rewrite Hsrc, Hc1; destruct (AuxiliaryFields (comp s)); reflexivity |].
      split; [intros _; exact Ha |].
      split.
      * unfold kinds in Hk, Hk1 |- *. cbn in Hk. rewrite Hk, Hk1.
        destruct (AuxiliaryFields (comp s1)) as [a1 |]; [| contradiction].
        destruct (AuxiliaryFields (comp s')) as [a' |]; [| contradiction].
        rewrite app_nil_r. destruct (AuxiliaryFields (comp s)); reflexivity.
      * rewrite Hl, length_app, Hc1. cbn.
        destruct (AuxiliaryFields (comp s)); cbn; lia.
Qed.

(** X11: a statement over measurements whose fields are plain variable
    references, at least one of them not [time], compiles. The compiled
    statement has no function call and one output edge per field other than
    [time]; its graph is the one [AuxiliaryFields] node, then one [Merge], then
    one [IteratorCreator] per source, in order, that reads no particular field
    of it. *)
Theorem X11_raw_fields_compile (stmt : influxql.SelectStatement) (names : list string) :
  influxql.Sources stmt = measurements names ->
  Forall (fun f => timeField f \/ rawField f) (influxql.Fields stmt) ->
  Exists rawField (influxql.Fields stmt) ->
  exists s,
    Compile stmt = Ok s
    /\ FunctionCalls (comp s) = []
    /\ length (OutputEdges (comp s)) = length (List.filter nonTime (influxql.Fields stmt))
    /\ kinds s = KAuxiliaryFields :: KMerge :: map (KIteratorCreator None) names.
Proof.
  intros Hsrc Hf Hraw.
  destruct (compileFields_raw _ _ (wf_started stmt) Hf)
    as (s0 & E & _ & Hfc & Hos & Hs & Ha & Hk & Hl).
  cbn in Hfc, Hos, Hs, Hk, Hl. specialize (Ha (or_intror Hraw)).
  destruct (AuxiliaryFields (comp s0)) as [aux |] eqn:Hx; [| contradiction].
  destruct (linkAuxiliaryFields_merge s0 aux names Hx Hos Hfc)
    as (s1 & El & Hc & Hk1); [rewrite Hs; exact Hsrc |].
  exists s1. rewrite (Compile_fields_Ok _ _ E), El.
  split; [reflexivity |]. rewrite Hc, Hfc, Hl, Hk1, Hk. auto.
Qed.

Lemma X11_raw_fields_compile_witness :
  exists s,
    Compile (influxql.mkSelect (measurements ["cpu"; "mem"])
               (map field [ref "x"; ref "time"; ref "y"; ref "x"])) = Ok s
    /\ FunctionCalls (comp s) = []
    /\ length (OutputEdges (comp s)) = 3
    /\ kinds s = [KAuxiliaryFields; KMerge;
                  KIteratorCreator None "cpu"; KIteratorCreator None "mem"].
Proof.
  apply (X11_raw_fields_compile
           (influxql.mkSelect (measurements ["cpu"; "mem"])
              (map field [ref "x"; ref "time"; ref "y"; ref "x"]))
           ["cpu"; "mem"]).
  - reflexivity.
  - constructor; [right; eexists; split; [reflexivity | discriminate] |].
    constructor; [left; reflexivity |].
    constructor; [right; eexists; split; [reflexivity | discriminate] |].
    constructor; [right; eexists; split; [reflexivity | discriminate] | constructor].
  - apply Exists_cons_hd. eexists. split; [reflexivity | discriminate].
Defined.

Lemma filter_notAux_iterators expr names :
  List.filter (fun k => negb (isAuxKind k)) (map (KIteratorCreator expr) names)
  = map (KIteratorCreator expr) names.
Proof. induction names as [| n rest IH]; cbn; [reflexivity | rewrite IH; reflexivity]. Qed.

(** X12: a statement over measurements with exactly one call of [max],
    [min], [first] or [last] on a plain variable reference, and otherwise raw
    fields, at least one of them not [time], compiles. The sources are read
    once: besides the one [AuxiliaryFields] node, which is spliced after the
    function call, the graph has only the merge, the [IteratorCreator]s and the
    function call that the call itself built. *)
Theorem X12_one_selector_with_raw_fields
        (stmt : influxql.SelectStatement) (names : list string)
        (pre post : list influxql.Field) (name alias : string) (r : influxql.VarRef) :
  influxql.Sources stmt = measurements names ->
  influxql.Fields stmt
  = pre ++ influxql.mkField (influxql.Call name [influxql.Ref r]) alias :: post ->
  Forall (fun f => timeField f \/ rawField f) pre ->
  Forall (fun f => timeField f \/ rawField f) post ->
  Exists rawField (pre ++ post) ->
  In name ["max"; "min"; "first"; "last"] ->
  exists s,
    Compile stmt = Ok s
    /\ length (FunctionCalls (comp s)) = 1
    /\ auxNodes s = 1
    /\ List.filter (fun k => negb (isAuxKind k)) (kinds s)
       = KMerge :: map (KIteratorCreator (Some r)) names ++ [KFunctionCall name]
    /\ length (OutputEdges (comp s))
       = S (length (List.filter nonTime pre) + length (List.filter nonTime post)).
Proof.
  intros Hsrc Hf Hpre Hpost Hraw Hin.
  assert (isSupported name = true /\ isSelector name = true) as [Hsup Hsel].
  { cbn in Hin. destruct Hin as [<- | [<- | [<- | [<- | []]]]]; split; reflexivity. }
  destruct (compileFields_raw pre _ (wf_started stmt) Hpre)
    as (s1 & E1 & Hwf1 & Hfc1 & Hos1 & Hs1 & Ha1 & Hk1 & Hl1).
  cbn in Hfc1, Hos1, Hs1, Hk1, Hl1.
  destruct (compileFunction_spec name r s1 names)
    as (out & s2 & inputs & w & ci & co & E2 & Hc2 & Hk2 & _); [rewrite Hs1; exact Hsrc |].
  pose proof (wf_compileFunction name [influxql.Ref r] s1 Hwf1) as Hwf2.
  rewrite E2 in Hwf2. cbn [snd] in Hwf2.
  destruct (markFunction_frame name (comp s1)) as (_ & _ & Fa & Ff & Fo).
  destruct (compileFields_raw post
              (mkState (set_OutputEdges (OutputEdges (comp s2) ++ [out]) (comp s2)) (graph s2)))
    as (s3 & E3 & _ & Hfc3 & Hos3 & Hs3 & Ha3 & Hk3 & Hl3);
    [intros a Ha; exact (Hwf2 a Ha) | exact Hpost |].
  cbn in Hfc3, Hos3, Hs3, Ha3, Hl3.
  assert (compileFields (influxql.Fields stmt) (started stmt) = (Ok tt, s3)) as E.
  { rewrite Hf, compileFields_app. unfold bind at 1. rewrite E1.
    rewrite compileFields_cons. cbn [isTimeRef influxql.FieldExpr].
    rewrite compileExpr_Call, Hsup. unfold bind at 1. rewrite E2.
    unfold bind at 1. cbn [modc]. exact E3. }
  assert (FunctionCalls (comp s3) = [out]) as Hfc.
  { rewrite Hfc3, Hc2. cbn. rewrite Hfc1. reflexivity. }
  assert (OnlySelectors (comp s3) = true) as Hos.
  { rewrite Hos3, Hc2. cbn. rewrite markFunction_OnlySelectors, Hos1, Hsel. reflexivity. }
  assert (AuxiliaryFields (comp s2) = AuxiliaryFields (comp s1)) as Ha2.
  { rewrite Hc2. cbn. exact Fa. }
  assert (AuxiliaryFields (comp s3) <> None) as Ha.
  { apply Exists_app in Hraw. destruct Hraw as [Hr | Hr].
    - apply Ha3. left. rewrite Ha2. apply Ha1. right. exact Hr.
    - apply Ha3. right. exact Hr. }
  destruct (AuxiliaryFields (comp s3)) as [aux |] eqn:Hx; [| contradiction].
  pose proof (callsValid_fields stmt (influxql.Fields stmt)) as Hv. rewrite E in Hv.
  cbn [snd] in Hv. unfold callsValid in Hv. rewrite Hfc in Hv.
  inversion Hv as [| ? ? Hlt _]. subst.
  destruct (linkAuxiliaryFields_splice s3 aux out Hx Hos Hfc Hlt) as (s4 & El & Hc4 & Hk4).
  assert (Compile stmt = Ok s4) as HC.
  { rewrite (Compile_fields_Ok _ _ E), El. reflexivity. }
  exists s4. split; [exact HC |].
  split; [rewrite Hc4, Hfc; reflexivity |].
  split.
  { pose proof (bld_aux _ _ (builds_runCompile stmt) (oneAux_started stmt)) as H1.
    rewrite <- (Compile_Ok_state _ _ HC) in H1. unfold oneAux in H1.
    rewrite Hc4, Hx in H1. exact H1. }
  split.
  { rewrite Hk4. unfold kinds in Hk3 |- *. cbn in Hk3. rewrite Hk3.
    fold (kinds s2). rewrite Hk2, Hk1. cbn [app].
    repeat match goal with
           | |- context [match ?o with Some _ => _ | None => _ end] => destruct o
           end;
      rewrite ?List.filter_app; cbn;
      rewrite ?List.filter_app, filter_notAux_iterators; cbn;
      rewrite ?app_nil_r; reflexivity. }
  rewrite Hc4, Hl3, length_app, Hc2. cbn. rewrite Fo, Hl1. lia.
Qed.

Lemma X12_one_selector_with_raw_fields_witness :
  exists s,
    Compile (influxql.mkSelect (measurements ["cpu"; "mem"])
               (map field [ref "x"; call1 "max" "y"; ref "z"])) = Ok s
    /\ length (FunctionCalls (comp s)) = 1
    /\ auxNodes s = 1
    /\ List.filter (fun k => negb (isAuxKind k)) (kinds s)
       = [KMerge;
          KIteratorCreator (Some (influxql.mkVarRef "y")) "cpu";
          KIteratorCreator (Some (influxql.mkVarRef "y")) "mem";
          KFunctionCall "max"]
    /\ length (OutputEdges (comp s)) = 3.
Proof.
  apply (X12_one_selector_with_raw_fields
           (influxql.mkSelect (measurements ["cpu"; "mem"])
              (map field [ref "x"; call1 "max" "y"; ref "z"]))
           ["cpu"; "mem"] [field (ref "x")] [field (ref "z")] "max" ""
           (influxql.mkVarRef "y")).
  - reflexivity.
  - reflexivity.
  - constructor; [right; eexists; split; [reflexivity | discriminate] | constructor].
  - constructor; [right; eexists; split; [reflexivity | discriminate] | constructor].
  - apply Exists_cons_hd. eexists. split; [reflexivity | discriminate].
  - cbn. auto.
Defined.

(** ** The top/bottom bookkeeping of [compileFunction] *)

Lemma compileFunction_TopBottom name args s :
  TopBottomFunction (comp (compileFunction name args s).2)
  = match (compileFunction name args s).1 with
    | Ok _ => TopBottomFunction (markFunction name (comp s))
    | _ => TopBottomFunction (comp s)
    end.
Proof.
  assert ((exists r, args = [influxql.Ref r]) \/ (forall r, args <> [influxql.Ref r]))
    as [[r ->] | Hno].
  { destruct args as [| [r | | | | |] [| b rest]]; try (right; intros r'; discriminate).
    left. eauto. }
  - pose proof (compileFunction_ref name r s) as H.
    destruct (compileFunction name [influxql.Ref r] s) as [[out | e | p] s']; cbn.
    + destruct H as [-> _]. reflexivity.
    + contradiction.
    + destruct H as [-> _]. reflexivity.
  - destruct (compileFunction_rejects name args s Hno) as [msg ->]. reflexivity.
Qed.

(** X13: called on its own, [compileFunction] records the first [top] or
    [bottom] it compiles and never overwrites a name it has recorded; any
    other function leaves the record as it is. After a recorded [top] or
    [bottom] and one more compiled function, [validateFields] fails and names
    the recorded function. *)
Theorem X13_top_bottom_first_wins (s : State) (names : list string) :
  (forall name args,
      TopBottomFunction (comp s) <> "" ->
      TopBottomFunction (comp (compileFunction name args s).2) = TopBottomFunction (comp s))
  /\ (forall name r,
         Sources (comp s) = measurements names ->
         TopBottomFunction (comp s) = "" ->
         TopBottomFunction (comp (compileFunction name [influxql.Ref r] s).2)
         = if oneOf name ["top"; "bottom"] then name else "")
  /\ (forall first second r1 r2,
         Sources (comp s) = measurements names ->
         TopBottomFunction (comp s) = "" ->
         In first ["top"; "bottom"] ->
         validateFields
           (compileFunction second [influxql.Ref r2]
              (compileFunction first [influxql.Ref r1] s).2).2
         = (Err ("selector function " +:+ first
                 +:+ "() cannot be combined with other functions"),
            (compileFunction second [influxql.Ref r2]
               (compileFunction first [influxql.Ref r1] s).2).2)).
Proof.
  assert (forall name c, TopBottomFunction c <> "" ->
                         TopBottomFunction (markFunction name c) = TopBottomFunction c) as Hkeep.
  { intros name c Hne. unfold markFunction.
    destruct (oneOf name ["top"; "bottom"]).
    - destruct (String.eqb_spec (TopBottomFunction c) ""); [contradiction | reflexivity].
    - destruct (oneOf name ["max"; "min"; "first"; "last"; "percentile"; "sample"]);
        reflexivity. }
  assert (forall name c, TopBottomFunction c = "" ->
                         TopBottomFunction (markFunction name c)
                         = if oneOf name ["top"; "bottom"] then name else "") as Hset.
  { intros name c He. unfold markFunction.
    destruct (oneOf name ["top"; "bottom"]).
    - rewrite He. reflexivity.
    - destruct (oneOf name ["max"; "min"; "first"; "last"; "percentile"; "sample"]);
        exact He. }
  split; [| split].
  - intros name args Hne. rewrite compileFunction_TopBottom.
    destruct (compileFunction name args s).1; auto.
  - intros name r Hsrc He. rewrite compileFunction_TopBottom.
    destruct (compileFunction_spec name r s names Hsrc) as (out & s' & ? & ? & ? & ? & -> & _).
    cbn. apply Hset, He.
  - intros first second r1 r2 Hsrc He Hin.
    destruct (compileFunction_spec first r1 s names Hsrc)
      as (o1 & s1 & ? & ? & ? & ? & E1 & Hc1 & _).
    rewrite E1. cbn [snd].
    assert (Sources (comp s1) = measurements names) as Hsrc1.
    { rewrite Hc1. cbn. rewrite (proj1 (markFunction_frame first (comp s))). exact Hsrc. }
    destruct (compileFunction_spec second r2 s1 names Hsrc1)
      as (o2 & s2 & ? & ? & ? & ? & E2 & Hc2 & _).
    rewrite E2. cbn [snd].
    assert (TopBottomFunction (comp s1) = first) as Ht1.
    { rewrite Hc1. cbn. rewrite (Hset first (comp s) He).
      cbn in Hin. destruct Hin as [<- | [<- | []]]; reflexivity. }
    assert (first <> "") as Hne.
    { cbn in Hin. destruct Hin as [<- | [<- | []]]; discriminate. }
    assert (TopBottomFunction (comp s2) = first) as Ht2.
    { rewrite Hc2. cbn. rewrite Hkeep; rewrite Ht1; auto. }
    assert (1 < length (FunctionCalls (comp s2))) as Hlen.
    { pose proof (f_equal (fun c => length (FunctionCalls c)) Hc2) as L2.
      pose proof (f_equal (fun c => length (FunctionCalls c)) Hc1) as L1.
      cbn [FunctionCalls set_FunctionCalls] in L1, L2. rewrite length_app in L1, L2.
      cbn [length] in L1, L2. lia. }
    unfold validateFields, bind. cbn [getc]. rewrite Ht2.
    destruct (String.eqb_spec first "") as [Ee | _]; [contradiction |].
    destruct (Nat.ltb_spec 1 (length (FunctionCalls (comp s2)))); [reflexivity | lia].
Qed.

Lemma X13_top_bottom_first_wins_witness :
  TopBottomFunction
    (comp (compileFunction "bottom" [ref "y"]
             (compileFunction "top" [ref "x"] (started (select []))).2).2)
  = "top".
Proof.
  destruct (X13_top_bottom_first_wins
              (compileFunction "top" [ref "x"] (started (select []))).2 ["cpu"])
    as (H & _).
  rewrite H; [vm_compute; reflexivity | vm_compute; discriminate].
Defined.

(** ** What the compiler reads of a statement *)

(** X14: [Compile] reads of a field only its expression: two statements with
    the same sources and the same field expressions compile alike, whatever
    the aliases of their fields. *)
Theorem X14_aliases_are_not_read (stmt stmt' : influxql.SelectStatement) :
  influxql.Sources stmt = influxql.Sources stmt' ->
  map influxql.FieldExpr (influxql.Fields stmt) = map influxql.FieldExpr (influxql.Fields stmt') ->
  runCompile stmt = runCompile stmt' /\ Compile stmt = Compile stmt'.
Proof.
  intros Hs Hf.
  assert (forall fs fs', map influxql.FieldExpr fs = map influxql.FieldExpr fs' ->
                         forall s, compileFields fs s = compileFields fs' s) as Hfields.
  { induction fs as [| f fs IH]; intros [| f' fs'] H s; try discriminate; [reflexivity |].
    cbn in H. injection H as Hh Ht. rewrite !compileFields_cons, Hh.
    destruct (isTimeRef (influxql.FieldExpr f')); [apply IH, Ht |].
    unfold bind. destruct (compileExpr (influxql.FieldExpr f') s) as [[out | e | p] s1];
      try reflexivity.
    cbn [modc]. apply IH, Ht. }
  assert (runCompile stmt = runCompile stmt') as E.
  { rewrite !runCompile_started. unfold started, newCompiler. rewrite Hs.
    unfold bind at 1 3. rewrite (Hfields _ _ Hf). reflexivity. }
  split; [exact E |]. unfold Compile. rewrite E. reflexivity.
Qed.

Lemma X14_aliases_are_not_read_witness :
  Compile (influxql.mkSelect [influxql.Measurement "cpu"]
             [influxql.mkField (call1 "max" "x") "highest"])
  = Compile (influxql.mkSelect [influxql.Measurement "cpu"]
               [influxql.mkField (call1 "max" "x") ""]).
Proof.
  apply (X14_aliases_are_not_read
           (influxql.mkSelect [influxql.Measurement "cpu"]
              [influxql.mkField (call1 "max" "x") "highest"])
           (influxql.mkSelect [influxql.Measurement "cpu"]
              [influxql.mkField (call1 "max" "x") ""])); reflexivity.
Defined.

(** ** The function calls of the graph *)

(** X15: whatever the statement, the graph [Compile] builds holds function
    calls of [count], [min], [max], [sum], [first], [last] and [mean] only, and
    [FunctionCalls] has exactly one edge for each of them. *)
Theorem X15_only_supported_function_calls (stmt : influxql.SelectStatement) :
  (forall name, In name (compiledFunctions (runCompile stmt).2) ->
                In name ["count"; "min"; "max"; "sum"; "first"; "last"; "mean"])
  /\ length (FunctionCalls (comp (runCompile stmt).2))
     = length (compiledFunctions (runCompile stmt).2).
Proof.
  pose proof (reached_runCompile stmt) as R. split.
  - intros name Hin. pose proof (reached_supported _ _ R) as Hs.
    rewrite forallb_forall in Hs. specialize (Hs name Hin).
    unfold isSupported, oneOf in Hs. cbn in Hs.
    repeat match type of Hs with
           | context [String.eqb name ?x] =>
               destruct (String.eqb_spec name x) as [-> | _]; [cbn; auto 10 |]
           end.
    discriminate.
  - exact (reached_FunctionCalls _ _ R).
Qed.

Lemma X15_only_supported_function_calls_witness :
  In "max" ["count"; "min"; "max"; "sum"; "first"; "last"; "mean"].
Proof.
  destruct (X15_only_supported_function_calls (select [ref "x"; call1 "max" "y"])) as [H _].
  apply H. vm_compute. auto.
Defined.

(** ** The edges [Select] registers, field by field *)

#[local] Instance retains_preorder : PreOrder retains.
Proof.
  split.
  - intros s. split; auto.
  - intros a b c [H1 H2] [H3 H4]. split; auto.
Qed.

Create HintDb retdb.

Lemma retains_nodes s s' :
  AuxiliaryFields (comp s') = AuxiliaryFields (comp s) ->
  (forall a fields os i o,
      AuxiliaryFields (comp s) = Some a ->
      nodes (graph s) !! a = Some (AuxiliaryFieldsNode fields os i o) ->
      exists more os' i' o',
        nodes (graph s') !! a = Some (AuxiliaryFieldsNode (fields ++ more) os' i' o')) ->
  (forall e, In e (FunctionCalls (comp s)) -> In e (FunctionCalls (comp s'))) ->
  retains s s'.
Proof.
  intros Ha Hn Hf. split; [| exact Hf].
  intros r e. unfold auxEdge. rewrite Ha.
  destruct (AuxiliaryFields (comp s)) as [a |]; [| discriminate].
  destruct (nodes (graph s) !! a) as [[] |] eqn:En; try discriminate.
  destruct (Hn _ _ _ _ _ eq_refl En) as (more & os' & i' & o' & ->).
  apply lookupAux_app_Some.
Qed.

Lemma retains_new n : step retains (new n).
Proof.
  intros s. apply retains_nodes; [reflexivity | | auto].
  intros a fields os i o _ Hn. exists [], os, i, o. rewrite app_nil_r.
  cbn. apply lookup_app_l_Some, Hn.
Qed.

Lemma retains_setNode p f : keepsAux f -> step retains (setNode p f).
Proof.
  intros Hf s. apply retains_nodes; [reflexivity | | auto].
  intros a fields os i o _ Hn. exists []. rewrite app_nil_r.
  cbn. rewrite list_lookup_alter. case_decide; subst.
  - rewrite Hn. cbn. destruct (Hf fields os i o) as (os' & i' & o' & ->). eauto.
  - eauto.
Qed.

Lemma retains_setOutputEdgeNode e n : step retains (setOutputEdgeNode e n).
Proof. intros s. split; intros; assumption. Qed.

Lemma retains_NewEdge n : step retains (NewEdge n).
Proof. intros s. split; intros; assumption. Qed.

Lemma retains_AddEdge a b : step retains (AddEdge a b).
Proof. intros s. split; intros; assumption. Qed.

Lemma retains_Insert e n : step retains (Insert e n).
Proof.
  intros s. unfold Insert, bind. cbn.
  destruct (outs (graph s) !! e); cbn; split; intros; assumption.
Qed.

Lemma retains_modc g :
  (forall c, AuxiliaryFields (g c) = AuxiliaryFields c) ->
  (forall c e, In e (FunctionCalls c) -> In e (FunctionCalls (g c))) ->
  step retains (modc g).
Proof.
  intros Ha Hf s. apply retains_nodes; cbn; [apply Ha | | apply Hf].
  intros a fields os i o _ Hn. exists [], os, i, o. rewrite app_nil_r. exact Hn.
Qed.

Lemma retains_Iterator aux r : step retains (Iterator aux r).
Proof.
  intros s. unfold Iterator, bind. cbn.
  destruct (nodes (graph s) !! aux) as [[] |] eqn:En; cbn; try reflexivity.
  destruct (lookupAux r Aux); cbn; [reflexivity |].
  apply retains_nodes; [reflexivity | | auto].
  intros a fields os i o _ Hn. cbn. rewrite list_lookup_alter. case_decide; subst.
  - rewrite Hn. cbn. eauto.
  - exists []. rewrite app_nil_r. eauto.
Qed.

Lemma retains_theAuxiliaryFields s : retains s (theAuxiliaryFields (comp s) s).2.
Proof.
  unfold theAuxiliaryFields.
  destruct (AuxiliaryFields (comp s)) as [a |] eqn:Ha; [reflexivity |].
  split; [| intros e H; exact H].
  intros r e. unfold auxEdge at 1. rewrite Ha. discriminate.
Qed.

#[local] Hint Resolve retains_new retains_setOutputEdgeNode retains_NewEdge retains_AddEdge
  retains_Insert retains_Iterator keepsAux_withOutput keepsAux_withInput : retdb.

(** One step through a sequence of store operations. *)
Ltac ret_steps :=
  repeat first
    [ apply step_ret; apply _
    | apply step_fail; apply _
    | apply step_panic; apply _
    | apply step_getc; apply _
    | apply step_getg; apply _
    | apply retains_setNode; solve [auto with retdb]
    | apply retains_modc; solve [intros; auto]
    | solve [auto with retdb]
    | apply step_bind; [apply _ | | intros ?]
    | match goal with p : (_ * _)%type |- _ => destruct p end ].

Lemma retains_Merge_AddInput m n : step retains (Merge_AddInput m n).
Proof.
  unfold Merge_AddInput. ret_steps.
  apply retains_setNode. intros fields os i o. eauto.
Qed.

#[local] Hint Resolve retains_Merge_AddInput : retdb.

Lemma retains_sourceIterators expr merge sources :
  step retains (sourceIterators expr merge sources).
Proof.
  induction sources as [| [m |] rest IH]; cbn; ret_steps.
Qed.

#[local] Hint Resolve retains_sourceIterators : retdb.

Lemma retains_compileFunction name args : step retains (compileFunction name args).
Proof.
  unfold compileFunction.
  destruct (negb (1 =? length args)%nat); [ret_steps |].
  destruct args as [| a0 rest]; [ret_steps |].
  destruct (String.eqb name "count" && isDistinctCall a0); [ret_steps |].
  destruct a0; ret_steps.
  - destruct (oneOf name ["top"; "bottom"]);
      [| destruct (oneOf name ["max"; "min"; "first"; "last"; "percentile"; "sample"])];
      ret_steps.
    apply retains_modc; intros c; destruct (String.eqb (TopBottomFunction c) ""); auto.
  - apply retains_modc; [reflexivity |]. intros c e H. cbn. apply in_or_app. auto.
Qed.

Lemma retains_compileExpr expr : step retains (compileExpr expr).
Proof.
  induction expr as [r | name args | op l IHl r IHr | | |]; try (apply step_fail; apply _).
  - intros s. rewrite compileExpr_Ref. unfold bind at 1. cbn [getc].
    apply bind_at; [apply _ | apply retains_theAuxiliaryFields |].
    intros a s1 _. apply retains_Iterator.
  - rewrite compileExpr_Call. destruct (isSupported name); [| apply step_fail; apply _].
    apply retains_compileFunction.
  - rewrite compileExpr_BinaryExpr.
    destruct (isLiteral l); [apply step_fail; apply _ |].
    destruct (isLiteral r); [apply step_fail; apply _ |].
    apply step_bind; [apply _ | exact IHl |]. intros lhs.
    apply step_bind; [apply _ | exact IHr |]. intros rhs.
    ret_steps.
Qed.

Lemma retains_compileFields fields : step retains (compileFields fields).
Proof.
  induction fields as [| f rest IH]; [apply step_ret; apply _ |].
  rewrite compileFields_cons.
  destruct (isTimeRef (influxql.FieldExpr f)); [exact IH |].
  apply step_bind; [apply _ | apply retains_compileExpr |]. intros out.
  apply step_bind; [apply _ | apply retains_modc; auto | intros; exact IH].
Qed.

Lemma retains_linkAuxiliaryFields : step retains linkAuxiliaryFields.
Proof.
  unfold linkAuxiliaryFields.
  apply step_bind; [apply _ | apply step_getc; apply _ |]. intros c.
  destruct (AuxiliaryFields c) as [aux |].
  - destruct (negb (OnlySelectors c)); [apply step_fail; apply _ |].
    destruct (1 <? length (FunctionCalls c))%nat; [apply step_fail; apply _ |].
    destruct (FunctionCalls c) as [| call [| ? ?]]; ret_steps.
  - destruct (length (FunctionCalls c) =? 0)%nat; ret_steps.
Qed.

(** The edge [Iterator] returns for a reference is the edge the node has for
    that reference from then on. *)
Lemma Iterator_auxEdge a r s e s1 :
  AuxiliaryFields (comp s) = Some a ->
  Iterator a r s = (Ok e, s1) ->
  auxEdge s1 r = Some e.
Proof.
  intros Ha. unfold Iterator, bind. cbn.
  destruct (nodes (graph s) !! a) as [[] |] eqn:En; cbn; try discriminate.
  destruct (lookupAux r Aux) eqn:El; cbn.
  - intros [= <- <-]. unfold auxEdge. rewrite Ha, En. exact El.
  - intros [= <- <-]. unfold auxEdge. cbn. rewrite Ha, list_lookup_alter_eq, En. cbn.
    apply lookupAux_app_None, El.
Qed.

Lemma compileExpr_Ref_auxEdge r s e s1 :
  compileExpr (influxql.Ref r) s = (Ok e, s1) -> auxEdge s1 r = Some e.
Proof.
  rewrite compileExpr_Ref. unfold bind at 1. cbn [getc].
  unfold theAuxiliaryFields.
  destruct (AuxiliaryFields (comp s)) as [a |] eqn:Ha.
  - unfold bind. cbn [ret]. apply Iterator_auxEdge, Ha.
  - unfold bind. cbn [new getg modg modc ret]. apply Iterator_auxEdge. reflexivity.
Qed.

(** The edge of a compiled call is the entry [compileFunction] appended to
    [FunctionCalls]. *)
Lemma compileExpr_Call_FunctionCalls name args s e s1 :
  compileExpr (influxql.Call name args) s = (Ok e, s1) ->
  In e (FunctionCalls (comp s1)).
Proof.
  rewrite compileExpr_Call. destruct (isSupported name); [| discriminate].
  assert ((exists r, args = [influxql.Ref r]) \/ (forall r, args <> [influxql.Ref r]))
    as [[r ->] | Hno].
  { destruct args as [| [r | | | | |] [| b rest]]; try (right; intros r'; discriminate).
    left. eauto. }
  - pose proof (compileFunction_ref name r s) as H. intros E. rewrite E in H.
    destruct H as [-> _]. cbn. apply in_or_app. right. left. reflexivity.
  - destruct (compileFunction_rejects name args s Hno) as [msg ->]. discriminate.
Qed.

Lemma inFieldOrder_unique s fields edges edges' :
  inFieldOrder s fields edges -> inFieldOrder s fields edges' -> edges = edges'.
Proof.
  intros H. revert edges'.
  induction H as [s | s f rest edges Ht _ IH | s f rest out s1 edges Ht E _ IH];
    intros edges' H'.
  - inversion H'. reflexivity.
  - inversion H' as [| ? ? ? ? _ Hr | ? ? ? ? ? ? Hf]; subst; [auto | congruence].
  - inversion H' as [| ? ? ? ? Hf | ? ? ? out' s1' edges0 _ E' Hr]; subst; [congruence |].
    rewrite E in E'. injection E' as <- <-. f_equal. auto.
Qed.

Lemma retains_appendOutput out s : retains s (appendOutput out s).
Proof. split; intros; assumption. Qed.

Lemma compileFields_inFieldOrder fields s s' s'' :
  compileFields fields s = (Ok tt, s') ->
  retains s' s'' ->
  exists edges,
    OutputEdges (comp s') = OutputEdges (comp s) ++ edges
    /\ inFieldOrder s fields edges
    /\ Forall2 (edgeIn s'') (List.filter nonTime fields) edges.
Proof.
  intros H R. revert s H. induction fields as [| f rest IH]; intros s.
  - intros [= <-]. exists []. split; [symmetry; apply app_nil_r |]. split; constructor.
  - rewrite compileFields_cons. cbn [List.filter]. unfold nonTime at 1.
    destruct (isTimeRef (influxql.FieldExpr f)) eqn:Et; cbn [negb].
    + intros H. destruct (IH _ H) as (edges & Hout & Hord & Hall).
      exists edges. split; [exact Hout |]. split; [| exact Hall].
      apply inFieldOrder_time; assumption.
    + unfold bind at 1.
      pose proof (compileExpr_OutputEdges (influxql.FieldExpr f) s) as Ho.
      destruct (compileExpr (influxql.FieldExpr f) s) as [[out | e | p] s1] eqn:E;
        try discriminate.
      unfold bind. cbn [modc]. intros H.
      destruct (IH _ H) as (edges & Hout & Hord & Hall). cbn in Hout, Ho.
      assert (retains s1 s'') as R1.
      { etransitivity; [apply (retains_appendOutput out) |].
        etransitivity; [| exact R].
        pose proof (retains_compileFields rest (appendOutput out s1)) as Hr.
        unfold appendOutput in Hr. cbn [modc snd] in Hr. rewrite H in Hr. exact Hr. }
      exists (out :: edges). split; [| split].
      * rewrite Hout, Ho, <- app_assoc. reflexivity.
      * eapply inFieldOrder_field; [exact Et | exact E | exact Hord].
      * constructor; [| exact Hall]. unfold edgeIn.
        destruct (influxql.FieldExpr f) as [r | name args | | | |]; try exact I.
        -- apply R1. eapply compileExpr_Ref_auxEdge, E.
        -- apply R1. eapply compileExpr_Call_FunctionCalls, E.
Qed.

Lemma addTargetCalls_OutputEdges c : addTargetCalls c = OutputEdges c.
Proof. unfold addTargetCalls. cbn [Select fst]. apply targets_fold_AddTarget. Qed.



